(** * bearnotes: parsing and rewriting of Bear notes

    A shallow embedding of the Go package [bearnotes] (note.go): the three
    regular expressions that detect tags, file attachments and embedded
    images, the constructors [NewTag], [NewFile], [NewImage], the parser
    [LoadNote] and the serializer [WriteNote], together with the parts of
    the Go standard library they call ([unicode/utf8], [unicode],
    [regexp], [net/url], [strings], [sort]).

    Go strings are byte sequences: they are modelled as [list byte].
    Go [int] values (offsets in a note) are modelled as [Z]; sizes and
    positions inside the regexp engine are [nat]. A Go run-time panic
    (slice bounds or index out of range) is modelled by [None]. *)

From Stdlib Require Import List ZArith Lia Bool Arith Btauto.
From Stdlib Require Import Strings.Byte Strings.String Strings.Ascii.
From Stdlib Require Import Sorting.Permutation Sorting.Sorted.
Import ListNotations.

Local Open Scope Z_scope.

(** ** Go strings *)

Module GoString.

Definition gostring := list byte.

(** A string literal of the Go source. *)
Definition str (s : string) : gostring := list_byte_of_string s.

Definition b2z (b : byte) : Z := Z.of_N (Byte.to_N b).

(** [len(s)] *)
Definition len (s : gostring) : Z := Z.of_nat (List.length s).

(** [s[i]] for an index known to be in range. *)
Definition at_ (s : gostring) (i : nat) : Z := b2z (nth i s x00).

(** [s[lo:hi]]: panics unless [0 <= lo <= hi <= len(s)]. *)
Definition slice (s : gostring) (lo hi : Z) : option gostring :=
  if (0 <=? lo) && (lo <=? hi) && (hi <=? len s)
  then Some (firstn (Z.to_nat (hi - lo)) (skipn (Z.to_nat lo) s))
  else None.

(** The same slice on offsets that are natural numbers and in range. *)
Definition sub (s : gostring) (lo hi : nat) : gostring :=
  firstn (hi - lo) (skipn lo s).

Definition eqb (a b : gostring) : bool :=
  if list_eq_dec Byte.byte_eq_dec a b then true else false.

End GoString.
Export GoString.

(** ** unicode/utf8 *)

Module utf8.

Definition RuneError : Z := 0xFFFD.
Definition RuneSelf : Z := 0x80.

Definition maskx : Z := 0x3F.
Definition mask2 : Z := 0x1F.
Definition mask3 : Z := 0x0F.
Definition mask4 : Z := 0x07.
Definition locb : Z := 0x80.
Definition hicb : Z := 0xBF.

(** Codes of the [first] table: the low three bits are the size of the
    encoding, the high four bits index [acceptRanges]. *)
Definition xx : Z := 0xF1.
Definition as_ : Z := 0xF0.
Definition s1 : Z := 0x02.
Definition s2 : Z := 0x13.
Definition s3 : Z := 0x03.
Definition s4 : Z := 0x23.
Definition s5 : Z := 0x34.
Definition s6 : Z := 0x04.
Definition s7 : Z := 0x44.

(** [first[b]]: information about the first byte of an encoding. *)
Definition first (b : Z) : Z :=
  if b <? 0x80 then as_
  else if b <? 0xC2 then xx
  else if b <? 0xE0 then s1
  else if b =? 0xE0 then s2
  else if b <? 0xED then s3
  else if b =? 0xED then s4
  else if b <? 0xF0 then s3
  else if b =? 0xF0 then s5
  else if b <? 0xF4 then s6
  else if b =? 0xF4 then s7
  else xx.

(** [acceptRanges[i]]: the bounds of the second byte. *)
Definition acceptRanges (i : Z) : Z * Z :=
  if i =? 0 then (locb, hicb)
  else if i =? 1 then (0xA0, hicb)
  else if i =? 2 then (locb, 0x9F)
  else if i =? 3 then (0x90, hicb)
  else if i =? 4 then (locb, 0x8F)
  else (0, 0).

(** [DecodeRuneInString(s)]: the first rune of [s] and its width in
    bytes; [(RuneError, 0)] on the empty string and [(RuneError, 1)] on
    an invalid encoding. *)
Definition DecodeRuneInString (s : gostring) : Z * nat :=
  match s with
  | [] => (RuneError, 0%nat)
  | b0 :: _ =>
      let s0 := b2z b0 in
      let x := first s0 in
      if as_ <=? x then
        (* mask := rune(x) << 31 >> 31 is all ones exactly when x = xx *)
        (if Z.odd x then RuneError else s0, 1%nat)
      else
        let sz := Z.to_nat (Z.land x 7) in
        let accept := acceptRanges (Z.shiftr x 4) in
        if (List.length s <? sz)%nat then (RuneError, 1%nat)
        else
          let c1 := at_ s 1 in
          if (c1 <? fst accept) || (snd accept <? c1) then (RuneError, 1%nat)
          else if (sz <=? 2)%nat then
            (Z.lor (Z.shiftl (Z.land s0 mask2) 6) (Z.land c1 maskx), 2%nat)
          else
            let c2 := at_ s 2 in
            if (c2 <? locb) || (hicb <? c2) then (RuneError, 1%nat)
            else if (sz <=? 3)%nat then
              (Z.lor (Z.lor (Z.shiftl (Z.land s0 mask3) 12)
                            (Z.shiftl (Z.land c1 maskx) 6))
                     (Z.land c2 maskx), 3%nat)
            else
              let c3 := at_ s 3 in
              if (c3 <? locb) || (hicb <? c3) then (RuneError, 1%nat)
              else
                (Z.lor (Z.lor (Z.lor (Z.shiftl (Z.land s0 mask4) 18)
                                     (Z.shiftl (Z.land c1 maskx) 12))
                              (Z.shiftl (Z.land c2 maskx) 6))
                       (Z.land c3 maskx), 4%nat)
  end.

End utf8.

(** ** unicode *)

Module unicode.

Definition MaxLatin1 : Z := 0xFF.

(** The range tables [unicode.L] (letters) and [unicode.N] (numbers)
    above Latin-1 are data of the Go distribution: they are taken as
    parameters, and every result below holds for any such tables. *)
Record RangeTables : Type := {
  tableL : Z -> bool;
  tableN : Z -> bool
}.

Definition inRange (lo hi r : Z) : bool := (lo <=? r) && (r <=? hi).

(** Category L restricted to Latin-1. *)
Definition latin1L (r : Z) : bool :=
  inRange 0x41 0x5A r || inRange 0x61 0x7A r
  || (r =? 0xAA) || (r =? 0xB5) || (r =? 0xBA)
  || inRange 0xC0 0xD6 r || inRange 0xD8 0xF6 r || inRange 0xF8 0xFF r.

(** Category N restricted to Latin-1. *)
Definition latin1N (r : Z) : bool :=
  inRange 0x30 0x39 r
  || (r =? 0xB2) || (r =? 0xB3) || (r =? 0xB9) || inRange 0xBC 0xBE r.

Definition IsLetter (U : RangeTables) (r : Z) : bool :=
  if r <=? MaxLatin1 then (0 <=? r) && latin1L r else tableL U r.

Definition IsNumber (U : RangeTables) (r : Z) : bool :=
  if r <=? MaxLatin1 then (0 <=? r) && latin1N r else tableN U r.

(** [White_Space] above Latin-1. *)
Definition White_Space (r : Z) : bool :=
  (r =? 0x1680) || inRange 0x2000 0x200A r
  || (r =? 0x2028) || (r =? 0x2029) || (r =? 0x202F)
  || (r =? 0x205F) || (r =? 0x3000).

(** [unicode.IsSpace] *)
Definition IsSpace (r : Z) : bool :=
  if (0 <=? r) && (r <=? MaxLatin1) then
    (r =? 0x09) || (r =? 0x0A) || (r =? 0x0B) || (r =? 0x0C)
    || (r =? 0x0D) || (r =? 0x20) || (r =? 0x85) || (r =? 0xA0)
  else White_Space r.

End unicode.

(** ** regexp

    The part of Go's [regexp] package that the three patterns of the
    package use: the syntax tree of [regexp/syntax] (with its operator
    names), and a backtracking matcher that explores the alternatives in
    the priority order of the leftmost-first semantics of the library
    (first alternative first, greedy repetition). Input is read rune by
    rune with [utf8.DecodeRuneInString], as [inputString.step] does. *)

Module regexp.

Import unicode.

(** An item of a bracket expression. *)
Inductive classItem : Type :=
| CChar (r : Z)            (* a single rune *)
| CPropL                   (* \p{L} *)
| CPropN.                  (* \p{N} *)

Inductive Regexp : Type :=
| OpEmptyMatch
| OpBeginText                                   (* ^ (no m flag) *)
| OpEndText                                     (* $ (no m flag) *)
| OpAnyCharNotNL                                (* . (no s flag) *)
| OpLiteral (rs : list Z)                       (* a rune sequence *)
| OpCharClass (neg : bool) (items : list classItem)
| OpCapture (n : nat) (r : Regexp)
| OpStar (r : Regexp)
| OpPlus (r : Regexp)
| OpQuest (r : Regexp)
| OpConcat (r1 r2 : Regexp)
| OpAlternate (r1 r2 : Regexp).

(** Number of capture groups. *)
Fixpoint NumSubexp (re : Regexp) : nat :=
  match re with
  | OpCapture n r => Nat.max n (NumSubexp r)
  | OpStar r | OpPlus r | OpQuest r => NumSubexp r
  | OpConcat r1 r2 | OpAlternate r1 r2 => Nat.max (NumSubexp r1) (NumSubexp r2)
  | _ => 0%nat
  end.

(** The input of a match: the offset reached and the text from there. *)
Record input : Type := mkInput { ipos : nat; irest : gostring }.

(** [inputString.step]: the rune at the current offset, and the input
    after it; [None] at the end of the text. *)
Definition step (i : input) : option (Z * input) :=
  match utf8.DecodeRuneInString (irest i) with
  | (_, O) => None
  | (r, w) => Some (r, mkInput (ipos i + w) (skipn w (irest i)))
  end.

(** The capture registers: the offsets (start, end) recorded for the
    groups, the latest record of a group first. *)
Definition caps : Type := list (nat * (nat * nat)).

Definition nocaps : caps := [].

Definition setcap (c : caps) (n : nat) (v : nat * nat) : caps := (n, v) :: c.

Fixpoint getcap (c : caps) (n : nat) : option (nat * nat) :=
  match c with
  | [] => None
  | (m, v) :: c' => if (m =? n)%nat then Some v else getcap c' n
  end.

(** What remains to be matched after a sub-expression. *)
Definition cont : Type := input -> caps -> option caps.

Definition orElse (a b : option caps) : option caps :=
  match a with Some x => Some x | None => b end.

Section Matcher.

Variable U : RangeTables.

Definition itemMatches (it : classItem) (r : Z) : bool :=
  match it with
  | CChar c => r =? c
  | CPropL => IsLetter U r
  | CPropN => IsNumber U r
  end.

Definition classMatches (neg : bool) (items : list classItem) (r : Z) : bool :=
  xorb neg (existsb (fun it => itemMatches it r) items).

(** One rune satisfying [p], then [k]. *)
Definition rune1 (p : Z -> bool) (k : cont) : cont :=
  fun i c =>
    match step i with
    | Some (r, i') => if p r then k i' c else None
    | None => None
    end.

Fixpoint literal (rs : list Z) (k : cont) : cont :=
  match rs with
  | [] => k
  | r :: rs' => rune1 (Z.eqb r) (literal rs' k)
  end.

(** Greedy repetition of [m]: as many iterations as possible first;
    an iteration must consume input. *)
Fixpoint star (m : cont -> cont) (fuel : nat) (k : cont) : cont :=
  fun i c =>
    match fuel with
    | O => k i c
    | S fuel' =>
        orElse
          (m (fun i' c' =>
                if (ipos i <? ipos i')%nat then star m fuel' k i' c'
                else None) i c)
          (k i c)
    end.

Fixpoint run (re : Regexp) (k : cont) : cont :=
  match re with
  | OpEmptyMatch => k
  | OpBeginText => fun i c => if (ipos i =? 0)%nat then k i c else None
  | OpEndText => fun i c => match irest i with [] => k i c | _ => None end
  | OpAnyCharNotNL => rune1 (fun r => negb (r =? 0x0A)) k
  | OpLiteral rs => literal rs k
  | OpCharClass neg items => rune1 (classMatches neg items) k
  | OpCapture n r =>
      fun i c => run r (fun i' c' => k i' (setcap c' n (ipos i, ipos i'))) i c
  | OpStar r => fun i c => star (run r) (List.length (irest i)) k i c
  | OpPlus r =>
      run r (fun i c => star (run r) (List.length (irest i)) k i c)
  | OpQuest r => fun i c => orElse (run r k i c) (k i c)
  | OpConcat r1 r2 => run r1 (run r2 k)
  | OpAlternate r1 r2 => fun i c => orElse (run r1 k i c) (run r2 k i c)
  end.

(** A match of the whole expression starting at [i]; group 0 is the
    match itself. *)
Definition matchAt (re : Regexp) (i : input) : option caps :=
  run re (fun i' c' => Some (setcap c' 0 (ipos i, ipos i'))) i nocaps.

(** The unanchored search: every start offset from [i] on, rune by
    rune, the end of the text included. *)
Fixpoint searchFrom (fuel : nat) (re : Regexp) (i : input) : option caps :=
  match matchAt re i with
  | Some c => Some c
  | None =>
      match fuel with
      | O => None
      | S fuel' =>
          match step i with
          | Some (_, i') => searchFrom fuel' re i'
          | None => None
          end
      end
  end.

(** [re.doExecute(s, pos)]: the leftmost match at or after [pos]. *)
Definition doExecute (re : Regexp) (s : gostring) (pos : nat) : option caps :=
  searchFrom (List.length s) re (mkInput pos (skipn pos s)).

Definition capText (s : gostring) (c : caps) (n : nat) : gostring :=
  match getcap c n with
  | Some (lo, hi) => sub s lo hi
  | None => []
  end.

(** [re.FindStringSubmatch(s)]: the text of the leftmost match and of
    its groups; [None] is the nil slice. *)
Definition FindStringSubmatch (re : Regexp) (s : gostring) : option (list gostring) :=
  match doExecute re s 0 with
  | Some c => Some (map (capText s c) (seq 0 (S (NumSubexp re))))
  | None => None
  end.

(** The loop of [re.allMatches]: [pos] is the offset of the next
    search, [prevMatchEnd] the end of the previous match, [n] the
    number of matches still wanted. *)
Fixpoint allMatches (fuel : nat) (re : Regexp) (s : gostring)
         (pos : nat) (n : nat) (prevMatchEnd : Z) : list (nat * nat) :=
  match fuel with
  | O => []
  | S fuel' =>
      if (n =? 0)%nat || (List.length s <? pos)%nat then []
      else
        match doExecute re s pos with
        | None => []
        | Some c =>
            match getcap c 0 with
            | None => []
            | Some (m0, m1) =>
                if (m1 =? pos)%nat then
                  (* an empty match *)
                  let accept := negb (Z.of_nat m0 =? prevMatchEnd) in
                  let width := snd (utf8.DecodeRuneInString (skipn pos s)) in
                  let pos' := if (0 <? width)%nat then (pos + width)%nat
                              else S (List.length s) in
                  if accept then
                    (m0, m1)
                      :: allMatches fuel' re s pos' (n - 1) (Z.of_nat m1)
                  else allMatches fuel' re s pos' n (Z.of_nat m1)
                else
                  (m0, m1)
                    :: allMatches fuel' re s m1 (n - 1) (Z.of_nat m1)
            end
        end
  end.

(** [re.FindAllStringIndex(s, -1)]: the matches as pairs (start, end)
    of offsets in [s]; the library returns each as a slice of two
    ints. *)
Definition FindAllStringIndex (re : Regexp) (s : gostring) : list (nat * nat) :=
  allMatches (List.length s + 2) re s 0 (List.length s + 1) (-1).

End Matcher.

End regexp.

(** ** strings *)

Module strings.

(** [strings.Split(s, sep)] for a separator of one byte. *)
Fixpoint Split (s : gostring) (sep : byte) : list gostring :=
  match s with
  | [] => [[]]
  | c :: t =>
      if Byte.eqb c sep then [] :: Split t sep
      else match Split t sep with
           | h :: r => (c :: h) :: r
           | [] => [[c]]
           end
  end.

End strings.

(** ** net/url

    [PathEscape] and [PathUnescape] are [escape] and [unescape] at the
    mode [encodePathSegment]; the other modes are not used by the
    package and the tests on the mode are resolved for this one. *)

Module url.

Definition z2b (z : Z) : byte :=
  match Byte.of_N (Z.to_N (z mod 256)) with
  | Some b => b
  | None => x00
  end.

Definition upperhex : gostring := str "0123456789ABCDEF".

Definition ishex (c : Z) : bool :=
  ((0x30 <=? c) && (c <=? 0x39))          (* '0' <= c && c <= '9' *)
  || ((0x61 <=? c) && (c <=? 0x66))       (* 'a' <= c && c <= 'f' *)
  || ((0x41 <=? c) && (c <=? 0x46)).      (* 'A' <= c && c <= 'F' *)

Definition unhex (c : Z) : Z :=
  if (0x30 <=? c) && (c <=? 0x39) then c - 0x30
  else if (0x61 <=? c) && (c <=? 0x66) then c - 0x61 + 10
  else if (0x41 <=? c) && (c <=? 0x46) then c - 0x41 + 10
  else 0.

(** [shouldEscape(c, encodePathSegment)] *)
Definition shouldEscape (c : Z) : bool :=
  if ((0x61 <=? c) && (c <=? 0x7A)) || ((0x41 <=? c) && (c <=? 0x5A))
     || ((0x30 <=? c) && (c <=? 0x39))
  then false                               (* unreserved: alphanum *)
  else if (c =? 0x2D) || (c =? 0x5F) || (c =? 0x2E) || (c =? 0x7E)
  then false                               (* '-', '_', '.', '~' *)
  else if (c =? 0x24) || (c =? 0x26) || (c =? 0x2B) || (c =? 0x2C)
          || (c =? 0x2F) || (c =? 0x3A) || (c =? 0x3B) || (c =? 0x3D)
          || (c =? 0x3F) || (c =? 0x40)
  then (* reserved: '$' '&' '+' ',' '/' ':' ';' '=' '?' '@';
          a path segment keeps all of them but '/' ';' ',' '?' *)
    (c =? 0x2F) || (c =? 0x3B) || (c =? 0x2C) || (c =? 0x3F)
  else true.                               (* everything else *)

(** [escape(s, encodePathSegment)]: every byte that must be escaped
    becomes '%' and two upper-case hexadecimal digits. *)
Fixpoint escape (s : gostring) : gostring :=
  match s with
  | [] => []
  | b :: t =>
      let c := b2z b in
      if shouldEscape c then
        x25 :: nth (Z.to_nat (Z.shiftr c 4)) upperhex x00
            :: nth (Z.to_nat (Z.land c 15)) upperhex x00
            :: escape t
      else b :: escape t
  end.

Definition PathEscape (s : gostring) : gostring := escape s.

(** The first loop of [unescape]: every '%' must be followed by two
    hexadecimal digits; the result is the text of the [EscapeError]. *)
Fixpoint checkEscapes (s : gostring) : option gostring :=
  match s with
  | [] => None
  | b :: t =>
      if Byte.eqb b x25 then
        match t with
        | h1 :: h2 :: t' =>
            if ishex (b2z h1) && ishex (b2z h2) then checkEscapes t'
            else Some (firstn 3 s)
        | _ => Some (firstn 3 s)
        end
      else checkEscapes t
  end.

(** The second loop of [unescape], on a string that passed the check. *)
Fixpoint decodeEscapes (s : gostring) : gostring :=
  match s with
  | [] => []
  | b :: t =>
      if Byte.eqb b x25 then
        match t with
        | h1 :: h2 :: t' =>
            z2b (Z.lor (Z.shiftl (unhex (b2z h1)) 4) (unhex (b2z h2)))
              :: decodeEscapes t'
        | _ => []
        end
      else b :: decodeEscapes t
  end.

(** [PathUnescape(s)]: the decoded string and the error. On an error
    the string returned is empty. *)
Definition PathUnescape (s : gostring) : gostring * option gostring :=
  match checkEscapes s with
  | Some e => ([], Some e)
  | None => (decodeEscapes s, None)
  end.

End url.

(** ** sort

    [sort.Slice] is taken through what it guarantees: the result is a
    rearrangement of the slice, and when [less], on every two elements
    at distinct indices, is the strict order of some key, the result is
    sorted by that key. Nothing is assumed of [less] on an element and
    itself, which the library never asks. [insertionSort] is the
    procedure that the library runs on a short slice. *)

Module sort.

Section Contract.

Variable A : Type.

(** [less] and the order of [key] agree on [x] and [y]. *)
Definition agreesOn (less : A -> A -> bool) (key : A -> Z) (x y : A) : Prop :=
  less x y = (key x <? key y) /\ less y x = (key y <? key x).

Definition Slice_spec (srt : (A -> A -> bool) -> list A -> list A) : Prop :=
  forall less l,
    Permutation l (srt less l) /\
    (forall key,
        ForallOrdPairs (agreesOn less key) l ->
        StronglySorted (fun x y => key x <= key y) (srt less l)).

(** [insertionSort]: the element at index [i] moves down while it is
    less than its predecessor. [prefix] is the sorted part, last
    element first. *)
Fixpoint insertDown (less : A -> A -> bool) (x : A) (prefix : list A) : list A :=
  match prefix with
  | [] => [x]
  | y :: prefix' =>
      if less x y then y :: insertDown less x prefix'
      else x :: prefix
  end.

Definition insertionSort (less : A -> A -> bool) (l : list A) : list A :=
  rev (fold_left (fun prefix x => insertDown less x prefix) l []).

End Contract.

End sort.

(** ** Package bearnotes *)

Module bearnotes.

Import regexp.

Definition rune (c : ascii) : Z := Z.of_N (N_of_ascii c).

Definition runes (s : string) : list Z := map b2z (list_byte_of_string s).

(** The pattern of [reTag], group by group:
    - group 1: ^|.?
    - the literal #
    - group 2: [\p{L}] followed by [-\p{L}\p{N}/$_§%=+°({[\\@] repeated
      (star)
    - group 3: .?|$ *)
Definition reTag : Regexp :=
  OpConcat
    (OpCapture 1 (OpAlternate OpBeginText (OpQuest OpAnyCharNotNL)))
    (OpConcat
       (OpLiteral (runes "#"))
       (OpConcat
          (OpCapture 2
             (OpConcat
                (OpCharClass false [CPropL])
                (OpStar
                   (OpCharClass false
                      [CChar (rune "-"); CPropL; CPropN; CChar (rune "/");
                       CChar (rune "$"); CChar (rune "_"); CChar 0xA7 (* § *);
                       CChar (rune "%"); CChar (rune "="); CChar (rune "+");
                       CChar 0xB0 (* ° *); CChar (rune "("); CChar (rune "{");
                       CChar (rune "["); CChar (rune "\"); CChar (rune "@")]))))
          (OpCapture 3 (OpAlternate (OpQuest OpAnyCharNotNL) OpEndText)))).

(** The pattern of [reFile], piece by piece, where Q is the class of
    the single and the double quote and ^Q its complement:
    <a, one or more blanks, href=, Q, group 1: ^Q repeated (plus), Q,
    >, group 2: [^<] repeated (plus), </a> *)
Definition reFile : Regexp :=
  OpConcat (OpLiteral (runes "<a"))
    (OpConcat (OpPlus (OpLiteral (runes " ")))
       (OpConcat (OpLiteral (runes "href="))
          (OpConcat (OpCharClass false [CChar 0x27; CChar 0x22])
             (OpConcat
                (OpCapture 1 (OpPlus (OpCharClass true [CChar 0x27; CChar 0x22])))
                (OpConcat (OpCharClass false [CChar 0x27; CChar 0x22])
                   (OpConcat (OpLiteral (runes ">"))
                      (OpConcat
                         (OpCapture 2 (OpPlus (OpCharClass true [CChar (rune "<")])))
                         (OpLiteral (runes "</a>"))))))))).

(** The pattern of [reImage], piece by piece:
    the literal ![, group 1: [^\]] repeated (star), the literal ](,
    group 2: [^(] repeated (plus), the literal ) *)
Definition reImage : Regexp :=
  OpConcat (OpLiteral (runes "!["))
    (OpConcat (OpCapture 1 (OpStar (OpCharClass true [CChar (rune "]")])))
       (OpConcat (OpLiteral (runes "]("))
          (OpConcat (OpCapture 2 (OpPlus (OpCharClass true [CChar (rune "(")])))
             (OpLiteral (runes ")"))))).

(** [position[i]] on a slice of ints: out of range is a panic. *)
Definition index (position : list Z) (i : nat) : option Z := nth_error position i.

(** The slice of two ints that [FindAllStringIndex] returns for a match. *)
Definition matchSlice (m : nat * nat) : list Z := [Z.of_nat (fst m); Z.of_nat (snd m)].

(** URL encode a path, component by component so that slashes do not
    go through URL encoding. [escapedPath] is the builder. *)
Definition escapePath (path : gostring) : gostring :=
  let pathComponents := strings.Split path x2f in
  fold_left
    (fun escapedPath ic =>
       let '(i, pathComponent) := ic in
       let escapedPath :=
         if (0 <? i)%nat then escapedPath ++ str "/" else escapedPath in
       escapedPath ++ url.PathEscape pathComponent)
    (combine (seq 0 (List.length pathComponents)) pathComponents)
    [].

(** Tag represents a Bear tag (#foo). *)
Module Tag.
Record t : Type := mk {
  Name : gostring;        (* the name of the tag, without the hashtag *)
  position : list Z;      (* position of the tag in the Markdown file *)
  before : gostring;      (* the character before the tag *)
  after : gostring        (* the character after the tag *)
}.

(** The zero value, [var tag Tag]. *)
Definition zero : t := mk [] [] [] [].

(** String converts the Tag back to string. *)
Definition String (tag : t) : gostring :=
  if (len (Name tag) =? 0) then before tag ++ after tag
  else before tag ++ str "#" ++ Name tag ++ after tag.
End Tag.

(** File represents a file attachment in a note. *)
Module File.
Record t : Type := mk {
  Location : gostring;    (* the path to the file attachment *)
  Name : gostring;        (* the name of the file *)
  position : list Z       (* the position in the Markdown file *)
}.

Definition zero : t := mk [] [] [].

(** String converts a file attachment back to Markdown syntax
    suitable for Zettlr. *)
Definition String (file : t) : gostring :=
  str "[" ++ Name file ++ str "](" ++ escapePath (Location file) ++ str ")".
End File.

(** Image represents an embedded image in a note. *)
Module Image.
Record t : Type := mk {
  Location : gostring;    (* the path to the embedded image *)
  Description : gostring; (* the alternative text for the image *)
  position : list Z       (* the position in the Markdown file *)
}.

Definition zero : t := mk [] [] [].

(** String converts an image back to Markdown syntax suitable for
    Zettlr. *)
Definition String (image : t) : gostring :=
  str "![" ++ Description image ++ str "](" ++ escapePath (Location image) ++ str ")".
End Image.

(** Note represents a Bear note with its tags, file attachments and
    embedded images. *)
Record Note : Type := mkNote {
  Tags : list Tag.t;
  Files : list File.t;
  Images : list Image.t;
  content : gostring
}.

(** updatedItem is used to sort tags, images and files by their order
    of appearance in the file. *)
Record updatedItem : Type := mkItem {
  item_content : gostring;     (* tag, file or image content *)
  item_position : list Z       (* position in file *)
}.

(** The comparison given to [sort.Slice]:
    [items[i].position[0] < items[j].position[1]].
    On a position with fewer than two entries the Go function panics;
    here the missing entry reads as 0 and the panic is raised by
    [copyItems], which reads both entries of every item. *)
Definition less (x y : updatedItem) : bool :=
  nth 0 (item_position x) 0 <? nth 1 (item_position y) 0.

(** The copy loop of [WriteNote]: [current] is the offset reached in
    the original content, [newContent] the builder. *)
Fixpoint copyItems (content : gostring) (items : list updatedItem)
         (current : Z) (newContent : gostring) : option gostring :=
  match items with
  | [] =>
      match slice content current (len content) with
      | Some tail => Some (newContent ++ tail)
      | None => None
      end
  | item :: items' =>
      match index (item_position item) 0 with
      | None => None
      | Some p0 =>
          match slice content current p0 with
          | None => None
          | Some excerpt =>
              match index (item_position item) 1 with
              | None => None
              | Some p1 =>
                  copyItems content items' p1
                            (newContent ++ excerpt ++ item_content item)
              end
          end
      end
  end.

Section Package.

Variable U : unicode.RangeTables.

(** NewTag creates a Tag from its content (including leading and
    trailing characters) and position in file. *)
Definition NewTag (content : gostring) (position : list Z) : Tag.t :=
  match FindStringSubmatch U reTag content with
  | Some parts =>
      let parts1 := nth 1 parts [] in
      let parts2 := nth 2 parts [] in
      let parts3 := nth 3 parts [] in
      let beforeIsEmpty := len parts1 =? 0 in
      let beforeIsSpace := unicode.IsSpace (fst (utf8.DecodeRuneInString parts1)) in
      let afterIsEmpty := len parts3 =? 0 in
      let afterIsSpace := unicode.IsSpace (fst (utf8.DecodeRuneInString parts3)) in
      (* a valid tag is surrounded by either a space character or nothing *)
      if (beforeIsEmpty || beforeIsSpace) && (afterIsEmpty || afterIsSpace)
      then Tag.mk parts2 position parts1 parts3
      else Tag.zero
  | None => Tag.zero
  end.

(** NewFile creates a File from the Markdown content and position in
    file. The error of [PathUnescape] is dropped. *)
Definition NewFile (content : gostring) (position : list Z) : File.t :=
  match FindStringSubmatch U reFile content with
  | Some parts =>
      File.mk (fst (url.PathUnescape (nth 1 parts []))) (nth 2 parts []) position
  | None => File.zero
  end.

(** NewImage creates an Image from the Markdown content and position
    in file. The error of [PathUnescape] is dropped. *)
Definition NewImage (content : gostring) (position : list Z) : Image.t :=
  match FindStringSubmatch U reImage content with
  | Some parts =>
      Image.mk (fst (url.PathUnescape (nth 2 parts []))) (nth 1 parts []) position
  | None => Image.zero
  end.

(** LoadNote parses a Bear note in Markdown format and returns a
    Note. The offsets of a match are within the content (lemma
    [FindAllStringIndex_spec] below), so that [content[m0:m1]] is
    written with [sub]. *)
Definition LoadNote (content : gostring) : Note :=
  let tags :=
    fold_left
      (fun Tags m =>
         let tag := NewTag (sub content (fst m) (snd m)) (matchSlice m) in
         if 0 <? len (Tag.Name tag) then Tags ++ [tag] else Tags)
      (FindAllStringIndex U reTag content) [] in
  let files :=
    fold_left
      (fun Files m => Files ++ [NewFile (sub content (fst m) (snd m)) (matchSlice m)])
      (FindAllStringIndex U reFile content) [] in
  let images :=
    fold_left
      (fun Images m => Images ++ [NewImage (sub content (fst m) (snd m)) (matchSlice m)])
      (FindAllStringIndex U reImage content) [] in
  mkNote tags files images content.

End Package.

Section Serializer.

(** [sort.Slice] at the type of the items. *)
Variable sort_Slice :
  (updatedItem -> updatedItem -> bool) -> list updatedItem -> list updatedItem.

(** Tags, Images and Files are all stored into a common list. *)
Definition collectItems (note : Note) : list updatedItem :=
  let items := [] in
  let items :=
    fold_left (fun items item => items ++ [mkItem (Tag.String item) (Tag.position item)])
              (Tags note) items in
  let items :=
    fold_left (fun items item => items ++ [mkItem (File.String item) (File.position item)])
              (Files note) items in
  fold_left (fun items item => items ++ [mkItem (Image.String item) (Image.position item)])
            (Images note) items.

(** WriteNote converts the note back into a format suitable for
    Zettlr; [None] is a panic. *)
Definition WriteNote (note : Note) : option gostring :=
  let items := collectItems note in
  (* sorted by their order of appearance in the file *)
  let items := sort_Slice less items in
  (* copy the updated version of the items along with the
     interleaved original excerpts *)
  copyItems (content note) items 0 [].

End Serializer.

End bearnotes.

(** * discover.go and migrate.go: the tags of a note and their options

    The two commands walk a directory, read every note with [LoadNote]
    and go through its tags. What they do with the file system, the YAML
    file and the standard output is outside of this development; the
    options of a tag and the loops over the tags of a note are embedded.
    [norm.NFC.String] and [strings.ToLower] are parameters, and a Go map
    with string keys is a function from keys to optional values. *)

Module discover.

Import bearnotes.

(** Go's [int] on a 64-bit platform. *)
Definition int_ (z : Z) : Z := (z + 2 ^ 63) mod 2 ^ 64 - 2 ^ 63.

(** TagOptions specifies how to convert notes having this tag. *)
Record TagOptions : Type := mkTagOptions {
  count : Z;                   (* counts the notes having this tag *)
  Ignore : bool;               (* this tag is not relevant *)
  HandlingStrategy : gostring; (* same-folder, one-note-per-folder or empty *)
  TargetDirectory : gostring;  (* where to store the notes *)
  TargetTagName : gostring     (* the new tag name; empty removes the tag *)
}.

(** [map[string]TagOptions]: the lookup [tags[k]] with its [ok] flag
    is the application of the map, [tags[k] = v] is [assign]. *)
Definition tagMap : Type := gostring -> option TagOptions.

Definition emptyMap : tagMap := fun _ => None.

Definition assign (tags : tagMap) (k : gostring) (v : TagOptions) : tagMap :=
  fun k' => if eqb k' k then Some v else tags k'.

(** [s[i]] on a slice of strings: out of range is a panic. *)
Definition element (s : list gostring) (i : Z) : option gostring :=
  if i <? 0 then None else nth_error s (Z.to_nat i).

(** NewTagOptions initializes a new TagOptions from a Tag object, with
    sane defaults and counter == 1. *)
Definition NewTagOptions (tag : Tag.t) : option TagOptions :=
  let tagComponents := strings.Split (Tag.Name tag) x2f in
  match element tagComponents (Z.of_nat (List.length tagComponents) - 1) with
  | Some lastComponent =>
      Some (mkTagOptions 1 false (str "same-folder") (Tag.Name tag) lastComponent)
  | None => None
  end.

(** [tag.Name = name] on a tag. *)
Definition withName (tag : Tag.t) (name : gostring) : Tag.t :=
  Tag.mk name (Tag.position tag) (Tag.before tag) (Tag.after tag).

Section Tags.

Variable norm_NFC_String : gostring -> gostring.
Variable strings_ToLower : gostring -> gostring.

(** The body of the loop over the tags of a note in [DiscoverNotes]:
    a tag seen for the first time gets its options, a tag already
    seen is counted once more. *)
Definition countTag (tags : tagMap) (tag : Tag.t) : option tagMap :=
  (* just to be safe, normalize the tag name *)
  let tag := withName tag (norm_NFC_String (Tag.Name tag)) in
  (* all tags are lowercase in Bear *)
  let tagName := strings_ToLower (Tag.Name tag) in
  match tags tagName with
  | None =>
      match NewTagOptions tag with
      | Some options => Some (assign tags tagName options)
      | None => None
      end
  | Some tagEntry =>
      let tagEntry :=
        mkTagOptions (int_ (count tagEntry + 1)) (Ignore tagEntry)
                     (HandlingStrategy tagEntry) (TargetDirectory tagEntry)
                     (TargetTagName tagEntry) in
      Some (assign tags tagName tagEntry)
  end.

(** [for _, tag := range note.Tags]; [None] is a panic. *)
Fixpoint countTags (tags : tagMap) (noteTags : list Tag.t) : option tagMap :=
  match noteTags with
  | [] => Some tags
  | tag :: noteTags' =>
      match countTag tags tag with
      | Some tags' => countTags tags' noteTags'
      | None => None
      end
  end.

End Tags.

End discover.

Module migrate.

Import bearnotes discover.

(** [strings.HasSuffix] and [strings.TrimSuffix]. *)
Definition HasSuffix (s suffix : gostring) : bool :=
  (List.length suffix <=? List.length s)%nat
  && eqb (skipn (List.length s - List.length suffix) s) suffix.

Definition TrimSuffix (s suffix : gostring) : gostring :=
  if HasSuffix s suffix then firstn (List.length s - List.length suffix) s else s.

(** The lines that the loop over the tags writes with [log.Printf],
    each with the arguments of its format. *)
Inductive logLine : Type :=
| ErrorUnknownTag (tagName fileName : gostring)
| WarningTargetDirectory (directory tagName targetDir : gostring)
| WarningHandlingStrategy (strategy tagName handlingStrategy : gostring)
| WarningUnknownStrategy (strategy tagName : gostring).

(** The variables of the closure that the loop reads and writes: the
    tags of the note, shared with the note, the target directory, the
    handling strategy and the log. *)
Record directives : Type := mkDirectives {
  noteTags : list Tag.t;
  targetDir : gostring;
  handlingStrategy : gostring;
  logged : list logLine
}.

(** The loop goes on, or the closure returns [nil] and the note is
    left. *)
Inductive flow : Type :=
| Next (d : directives)
| Return (d : directives).

(** [note.Tags[i].Name = name] *)
Definition setTagName (l : list Tag.t) (i : nat) (name : gostring) : list Tag.t :=
  match nth_error l i with
  | Some tag => firstn i l ++ withName tag name :: skipn (S i) l
  | None => l
  end.

Definition log (d : directives) (line : logLine) : directives :=
  mkDirectives (noteTags d) (targetDir d) (handlingStrategy d) (logged d ++ [line]).

Section Tags.

Variable norm_NFC_String : gostring -> gostring.
Variable strings_ToLower : gostring -> gostring.
Variable path_Join : list gostring -> gostring.

(** The map read from the tag file, and [info.Name()]. *)
Variable tags : tagMap.
Variable infoName : gostring.

(** The body of the loop over the tags of a note in [MigrateNotes]. *)
Definition tagDirective (i : nat) (tag : Tag.t) (d : directives) : flow :=
  (* normalize tag names *)
  let tag := withName tag (norm_NFC_String (Tag.Name tag)) in
  (* and make it lowercase since all tags are lower-case in Bear *)
  let tagName := strings_ToLower (Tag.Name tag) in
  match tags tagName with
  | None => Return (log d (ErrorUnknownTag tagName infoName))
  | Some tagOption =>
      if Ignore tagOption then Next d
      else
        (* rewrite the tag name as instructed *)
        let d := mkDirectives (setTagName (noteTags d) i (TargetTagName tagOption))
                              (targetDir d) (handlingStrategy d) (logged d) in
        let d :=
          if negb (eqb (TargetDirectory tagOption) [])
             && negb (eqb (targetDir d) [])
             && negb (eqb (targetDir d) (TargetDirectory tagOption))
          then log d (WarningTargetDirectory (TargetDirectory tagOption) tagName
                                             (targetDir d))
          else mkDirectives (noteTags d) (TargetDirectory tagOption)
                            (handlingStrategy d) (logged d) in
        let d :=
          if negb (eqb (HandlingStrategy tagOption) [])
             && negb (eqb (handlingStrategy d) [])
             && negb (eqb (handlingStrategy d) (HandlingStrategy tagOption))
          then log d (WarningHandlingStrategy (HandlingStrategy tagOption) tagName
                                              (handlingStrategy d))
          else if eqb (HandlingStrategy tagOption) (str "same-folder")
                  || eqb (HandlingStrategy tagOption) (str "one-note-per-folder")
                  || eqb (HandlingStrategy tagOption) []
          then mkDirectives (noteTags d) (targetDir d)
                            (HandlingStrategy tagOption) (logged d)
          else log d (WarningUnknownStrategy (HandlingStrategy tagOption) tagName) in
        Next d
  end.

(** [for i, tag := range note.Tags]: [n] iterations are left, [i]
    is the index; the tag is read in the slice at each iteration. *)
Fixpoint rangeTags (n i : nat) (d : directives) : flow :=
  match n with
  | O => Next d
  | S n' =>
      match nth_error (noteTags d) i with
      | Some tag =>
          match tagDirective i tag d with
          | Next d' => rangeTags n' (S i) d'
          | Return d' => Return d'
          end
      | None => Next d
      end
  end.

(** The loop, from the tags of the note and the zero values of
    [targetDir] and [handlingStrategy]. *)
Definition tagDirectives (note : Note) : flow :=
  rangeTags (List.length (Tags note)) 0 (mkDirectives (Tags note) [] [] []).

(** The final target directory, based on the handling strategy. *)
Definition finalTargetDir (to : gostring) (d : directives) : gostring :=
  let noteName := TrimSuffix infoName (str ".md") in
  if eqb (handlingStrategy d) (str "one-note-per-folder")
  then path_Join [to; targetDir d; noteName]
  else if eqb (handlingStrategy d) (str "same-folder")
  then path_Join [to; targetDir d]
  else to.

(** The note that [WriteNote] is called on when the note has no
    image and no file attachment: the tags as the loop left them. *)
Definition migratedNote (note : Note) (d : directives) : Note :=
  mkNote (noteTags d) (Files note) (Images note) (content note).

End Tags.

End migrate.

(** * Definitions used to state the properties of the package *)

Module Spec.

Import unicode regexp bearnotes.

(** ** Escaping, byte by byte *)

(** What [url.escape] writes for one byte. *)
Definition escapeByte (b : byte) : gostring :=
  if url.shouldEscape (b2z b) then
    [x25; nth (Z.to_nat (Z.shiftr (b2z b) 4)) url.upperhex x00;
     nth (Z.to_nat (Z.land (b2z b) 15)) url.upperhex x00]
  else [b].

(** What [escapePath] writes for one byte: a slash is kept, any other
    byte is written as [url.escape] writes it. *)
Definition escapePathByte (b : byte) : gostring :=
  if Byte.eqb b x2f then [x2f] else escapeByte b.

(** The components joined by slashes, each one escaped. *)
Definition joinEscaped (components : list gostring) : gostring :=
  match components with
  | [] => []
  | c :: cs => url.PathEscape c ++ flat_map (fun c' => str "/" ++ url.PathEscape c') cs
  end.

(** The number of slashes of a string. *)
Definition slashes (s : gostring) : nat :=
  List.length (filter (fun b => Byte.eqb b x2f) s).

(** ** The paths of a regular expression *)

(** [j] is [i] moved forward by [n] bytes. *)
Definition advances (i j : input) (n : nat) : Prop :=
  ipos j = (ipos i + n)%nat /\ irest j = skipn n (irest i) /\
  (n <= List.length (irest i))%nat.

(** The input of the text [s] at the offset [p]. *)
Definition inputAt (s : gostring) (p : nat) : input := mkInput p (skipn p s).

(** The input [i] of a text, seen in the part of the text between the
    offsets [a] and [b]. *)
Definition localize (a b : nat) (i : input) : input :=
  mkInput (ipos i - a) (firstn (b - ipos i) (irest i)).

Section Paths.

Variable U : RangeTables.

(** [Path re i j]: [re] matches the text between the inputs [i] and
    [j], by some choice of alternatives and numbers of iterations. *)
Inductive Path : Regexp -> input -> input -> Prop :=
| PathEmpty i : Path OpEmptyMatch i i
| PathBegin i : ipos i = 0%nat -> Path OpBeginText i i
| PathEnd i : irest i = [] -> Path OpEndText i i
| PathAny i r j :
    step i = Some (r, j) -> (r =? 0x0A) = false -> Path OpAnyCharNotNL i j
| PathLitNil i : Path (OpLiteral []) i i
| PathLitCons i r rs j k :
    step i = Some (r, j) -> Path (OpLiteral rs) j k ->
    Path (OpLiteral (r :: rs)) i k
| PathClass neg items i r j :
    step i = Some (r, j) -> classMatches U neg items r = true ->
    Path (OpCharClass neg items) i j
| PathCapture n re i j : Path re i j -> Path (OpCapture n re) i j
| PathStarNil re i : Path (OpStar re) i i
| PathStarCons re i j k :
    Path re i j -> (ipos i < ipos j)%nat -> Path (OpStar re) j k ->
    Path (OpStar re) i k
| PathPlus re i j k :
    Path re i j -> Path (OpStar re) j k -> Path (OpPlus re) i k
| PathQuestSome re i j : Path re i j -> Path (OpQuest re) i j
| PathQuestNone re i : Path (OpQuest re) i i
| PathConcat r1 r2 i j k :
    Path r1 i j -> Path r2 j k -> Path (OpConcat r1 r2) i k
| PathAltL r1 r2 i j : Path r1 i j -> Path (OpAlternate r1 r2) i j
| PathAltR r1 r2 i j : Path r2 i j -> Path (OpAlternate r1 r2) i j.

(** Where there is a path of [re] to an input from which the
    continuation cannot fail, the matcher returns a result. *)
Definition complete (re : Regexp) : Prop :=
  forall i j, Path re i j ->
  forall k, (forall c', k j c' <> None) -> forall c, run U re k i c <> None.

(** [m] is a match of [re] in [s]: offsets in range with a path
    between them. *)
Definition IsMatch (re : Regexp) (s : gostring) (m : nat * nat) : Prop :=
  (fst m <= snd m <= List.length s)%nat /\
  Path re (inputAt s (fst m)) (inputAt s (snd m)).

End Paths.

(** [m] is found by [matchAt] at its first offset. *)
Definition Found (U : RangeTables) (re : Regexp) (s : gostring) (m : nat * nat) : Prop :=
  (fst m <= List.length s)%nat /\
  exists c, matchAt U re (inputAt s (fst m)) = Some c /\ getcap c 0 = Some m.

(** A byte that starts a rune: an ASCII byte or a leading byte, not a
    continuation byte. *)
Definition startsRune (a : byte) : Prop :=
  b2z a < utf8.locb \/ utf8.hicb < b2z a.

(** ** The pattern of tags, step by step *)

(** The input after the longest run of runes that satisfy [p]. *)
Fixpoint skipRunes (p : Z -> bool) (fuel : nat) (i : input) : input :=
  match fuel with
  | O => i
  | S fuel' =>
      match step i with
      | Some (r, j) => if p r then skipRunes p fuel' j else i
      | None => i
      end
  end.

(** The input after one rune that is not a newline, if there is one. *)
Definition optAny (i : input) : input :=
  match step i with
  | Some (r, j) => if negb (r =? 0x0A) then j else i
  | None => i
  end.

(** The first rune of a name, and the runes that follow. *)
Definition nameFirst (U : RangeTables) : Z -> bool :=
  classMatches U false [CPropL].
Definition nameNext (U : RangeTables) : Z -> bool :=
  classMatches U false
    [CChar (rune "-"); CPropL; CPropN; CChar (rune "/");
     CChar (rune "$"); CChar (rune "_"); CChar 0xA7;
     CChar (rune "%"); CChar (rune "="); CChar (rune "+");
     CChar 0xB0; CChar (rune "("); CChar (rune "{");
     CChar (rune "["); CChar 0x5C; CChar (rune "@")].

(** [enc] is the encoding of the rune [r], whatever follows it. *)
Definition Encodes (enc : gostring) (r : Z) : Prop :=
  enc <> [] /\
  forall t, utf8.DecodeRuneInString (enc ++ t) = (r, List.length enc).

(** [s] is a sequence of encoded runes that all satisfy [p]. *)
Inductive Runes (p : Z -> bool) : gostring -> Prop :=
| RunesNil : Runes p []
| RunesCons enc r s :
    Encodes enc r -> p r = true -> Runes p s -> Runes p (enc ++ s).

(** [name] is a name of the tag grammar: an encoded letter, then
    encoded runes of the class of the pattern. *)
Definition TagName (U : RangeTables) (name : gostring) : Prop :=
  exists enc r s,
    name = enc ++ s /\ Encodes enc r /\ nameFirst U r = true /\
    Runes (nameNext U) s.

(** The text [rest] does not go on with a rune that satisfies [p]. *)
Definition StopsAt (p : Z -> bool) (rest : gostring) : Prop :=
  rest = [] \/ p (fst (utf8.DecodeRuneInString rest)) = false.

(** The rune that [reTag] takes after a name: the first rune of
    [rest] unless it is a newline. *)
Definition boundaryAfter (rest : gostring) : gostring :=
  let (r, w) := utf8.DecodeRuneInString rest in
  if negb (r =? 0x0A) then firstn w rest else [].

(** Two tags with the encoding [w] of one rune [wr] between them, and
    what the first match takes after the first name: the rune, unless
    it is a newline. *)
Definition twoTags (n1 w n2 : gostring) : gostring :=
  str "#" ++ n1 ++ w ++ str "#" ++ n2.
Definition afterSpace (w : gostring) (wr : Z) : gostring :=
  if negb (wr =? 0x0A) then w else [].

(** [reTag] after its group 1. *)
Definition reTagRest : Regexp :=
  match reTag with
  | OpConcat _ rest => rest
  | _ => OpEmptyMatch
  end.

(** The match of [reTag] whose group 1 lies between the inputs [start]
    and [i]: the hashtag, a letter, the longest run of name runes, and
    one more rune when there is one on the line. *)
Definition tagFrom (U : RangeTables) (start i : input) : option caps :=
  match step i with
  | Some (r1, j1) =>
      if 0x23 =? r1 then
        match step j1 with
        | Some (r2, j2) =>
            if nameFirst U r2 then
              let j3 := skipRunes (nameNext U) (List.length (irest j2)) j2 in
              let j4 := optAny j3 in
              Some [(0%nat, (ipos start, ipos j4)); (3%nat, (ipos j3, ipos j4));
                    (2%nat, (ipos j1, ipos j3)); (1%nat, (ipos start, ipos i))]
            else None
        | None => None
        end
      else None
  | None => None
  end.

(** The three ways of [reTag] at an input, in the order of the
    alternatives of group 1: nothing at the start of the text, one
    rune, nothing. *)
Definition tagMatchAt (U : RangeTables) (i : input) : option caps :=
  orElse (if (ipos i =? 0)%nat then tagFrom U i i else None)
         (orElse (match step i with
                  | Some (r, j) => if negb (r =? 0x0A) then tagFrom U i j else None
                  | None => None
                  end)
                 (tagFrom U i i)).

(** The captures with every offset moved back by [a]. *)
Definition shiftCaps (a : nat) (c : caps) : caps :=
  map (fun nv => (fst nv, (fst (snd nv) - a, snd (snd nv) - a)%nat)) c.

(** ** Spans and splicing *)

(** The span of an item: the first two entries of its position. *)
Definition spanStart (it : updatedItem) : Z := nth 0 (item_position it) 0.
Definition spanEnd (it : updatedItem) : Z := nth 1 (item_position it) 0.

(** The item has the two entries of a span, within the content. *)
Definition wellPlaced (content : gostring) (it : updatedItem) : Prop :=
  (2 <= List.length (item_position it))%nat /\
  0 <= spanStart it <= spanEnd it /\ spanEnd it <= len content.

(** The spans of two items do not overlap. *)
Definition disjoint (x y : updatedItem) : Prop :=
  spanEnd x <= spanStart y \/ spanEnd y <= spanStart x.

(** The half-open interval [[lo, hi)] of the content. *)
Definition between (content : gostring) (lo hi : Z) : gostring :=
  firstn (Z.to_nat (hi - lo)) (skipn (Z.to_nat lo) content).

(** The content from the offset [cursor] on, each item of the list
    written in place of its span: the text before the item, the
    rendering of the item, then the rest from the end of its span. *)
Fixpoint spliced (content : gostring) (items : list updatedItem) (cursor : Z) : gostring :=
  match items with
  | [] => skipn (Z.to_nat cursor) content
  | it :: items' =>
      between content cursor (spanStart it)
        ++ item_content it ++ spliced content items' (spanEnd it)
  end.

(** The item renders to the text of its own span. *)
Definition ownText (content : gostring) (it : updatedItem) : Prop :=
  item_content it = between content (spanStart it) (spanEnd it).

(** The key that orders items with disjoint spans. *)
Definition spanKey (it : updatedItem) : Z := spanStart it + spanEnd it.

(** The items that [WriteNote] makes of a tag, a file and an image. *)
Definition tagItem (tag : Tag.t) : updatedItem :=
  mkItem (Tag.String tag) (Tag.position tag).
Definition fileItem (file : File.t) : updatedItem :=
  mkItem (File.String file) (File.position file).
Definition imageItem (image : Image.t) : updatedItem :=
  mkItem (Image.String image) (Image.position image).

(** The items of a note: its tags, then its files, then its images,
    each one with its rendering and its position. *)
Definition noteItems (note : Note) : list updatedItem :=
  map tagItem (Tags note) ++ map fileItem (Files note)
    ++ map imageItem (Images note).


(** The content from the offset [cursor] up to the offset [stop],
    each item of the list written in place of its span. *)
Fixpoint splicedTo (content : gostring) (items : list updatedItem)
         (cursor stop : Z) : gostring :=
  match items with
  | [] => between content cursor stop
  | it :: items' =>
      between content cursor (spanStart it)
        ++ item_content it ++ splicedTo content items' (spanEnd it) stop
  end.

(** The positions are spans of the content, in ascending order, each
    one ending before the next one starts. *)
Definition spansInOrder (content : gostring) (positions : list (list Z)) : Prop :=
  exists ms : list (nat * nat),
    positions = map matchSlice ms /\
    StronglySorted (fun a b => (snd a <= fst b)%nat) ms /\
    Forall (fun m => (fst m <= snd m <= List.length content)%nat) ms.

(** The tag with another name. *)
Definition setName (name : gostring) (tag : Tag.t) : Tag.t :=
  Tag.mk name (Tag.position tag) (Tag.before tag) (Tag.after tag).

(** ** Parsing *)

(** The tag has a name: [LoadNote] keeps it. *)
Definition named (tag : Tag.t) : bool := 0 <? len (Tag.Name tag).

(** The test of [NewTag] on a boundary: nothing, or a space. *)
Definition boundaryOk (b : gostring) : bool :=
  (len b =? 0) || unicode.IsSpace (fst (utf8.DecodeRuneInString b)).

Section Parsing.

Variable U : RangeTables.

(** The tag, the file and the image made from a match of the note. *)
Definition tagOf (content : gostring) (m : nat * nat) : Tag.t :=
  NewTag U (sub content (fst m) (snd m)) (matchSlice m).
Definition fileOf (content : gostring) (m : nat * nat) : File.t :=
  NewFile U (sub content (fst m) (snd m)) (matchSlice m).
Definition imageOf (content : gostring) (m : nat * nat) : Image.t :=
  NewImage U (sub content (fst m) (snd m)) (matchSlice m).

(** The note read from [text], with one of its tags renamed. *)
Definition renamed (text : gostring) (tags1 : list Tag.t) (name : gostring)
           (tag : Tag.t) (tags2 : list Tag.t) : Note :=
  mkNote (tags1 ++ setName name tag :: tags2)
         (Files (LoadNote U text)) (Images (LoadNote U text)) text.

End Parsing.

(** ** The boundaries of a tag *)



(** In the text of a note: a newline is read just before the offset
    [m0]; a newline is read at the offset [m1]; a match of [reTag]
    that [FindAllStringIndex] returns ends at the offset [m0]. *)
Definition newlineBefore (content : gostring) (m0 : nat) : Prop :=
  exists o, step (inputAt content o) = Some (0x0A, inputAt content m0).
Definition newlineAt (content : gostring) (m1 : nat) : Prop :=
  exists j, step (inputAt content m1) = Some (0x0A, j).
Definition matchEndsAt (U : RangeTables) (content : gostring) (m0 : nat) : Prop :=
  exists a, In (a, m0) (FindAllStringIndex U reTag content).

(** ** The copy loop *)

(** The items can be copied in this order from the offset [current]:
    each one has its two offsets and starts in the content at or after
    the offset reached, which in the end is in the content too. These
    are the bounds that the slice expressions of [WriteNote] check. *)
Fixpoint chained (content : gostring) (items : list updatedItem) (current : Z) : Prop :=
  match items with
  | [] => 0 <= current <= len content
  | it :: items' =>
      (2 <= List.length (item_position it))%nat /\
      0 <= current <= spanStart it /\ spanStart it <= len content /\
      chained content items' (spanEnd it)
  end.

(** ** The bytes of an escaped path *)

(** The bytes that [escapePath] can write: the letters and the digits,
    the marks that a path segment keeps, the slash and the percent
    sign. *)
Definition pathAlphabet : gostring :=
  str "ABCDEFGHIJKLMNOPQRSTUVWXYZabcdefghijklmnopqrstuvwxyz0123456789-_.~$&+:=@/%".

Definition inAlphabet (b : byte) : bool := existsb (Byte.eqb b) pathAlphabet.

(** ** The tags of a note and the tag file *)

(** The options that [NewTagOptions] gives a tag of this name, the
    count apart: not ignored, the strategy [same-folder], the name
    as target directory and, as target tag name, the end of the name
    after its last slash. *)
Definition defaultOptions (name : gostring) (o : discover.TagOptions) : Prop :=
  discover.Ignore o = false /\
  discover.HandlingStrategy o = str "same-folder" /\
  discover.TargetDirectory o = name /\
  exists directory,
    name = directory ++ discover.TargetTagName o /\
    ~ In x2f (discover.TargetTagName o) /\
    (directory = [] \/ exists parent, directory = parent ++ [x2f]).

Section TagFile.

Variable norm_NFC_String : gostring -> gostring.
Variable strings_ToLower : gostring -> gostring.

(** The key of a tag in the map of the tag file: its name,
    normalized and in lower case. *)
Definition tagKey (tag : Tag.t) : gostring :=
  strings_ToLower (norm_NFC_String (Tag.Name tag)).

(** The number of tags with the key [k]. *)
Definition occurrences (k : gostring) (noteTags : list Tag.t) : nat :=
  List.length (filter (fun tag => eqb (tagKey tag) k) noteTags).

(** The tag as the tag file asks for it: with its target name, or
    as it is when the tag file ignores it or does not know it. *)
Definition renameTag (tags : discover.tagMap) (tag : Tag.t) : Tag.t :=
  match tags (tagKey tag) with
  | Some tagOption =>
      if discover.Ignore tagOption then tag
      else discover.withName tag (discover.TargetTagName tagOption)
  | None => tag
  end.

(** The target directory of the first tag that the tag file knows
    and does not ignore. *)
Fixpoint firstDirectory (tags : discover.tagMap) (noteTags : list Tag.t) : gostring :=
  match noteTags with
  | [] => []
  | tag :: noteTags' =>
      match tags (tagKey tag) with
      | Some tagOption =>
          if discover.Ignore tagOption then firstDirectory tags noteTags'
          else discover.TargetDirectory tagOption
      | None => firstDirectory tags noteTags'
      end
  end.

(** The entries of the map come from tags of the list [seen], with
    the options of a new tag. *)
Definition fromTags (seen : list Tag.t) (tags : discover.tagMap) : Prop :=
  forall k o,
    tags k = Some o ->
    exists tag,
      In tag seen /\ tagKey tag = k /\
      defaultOptions (norm_NFC_String (Tag.Name tag)) o.

End TagFile.

(** The three values of a handling strategy. *)
Definition validStrategy (s : gostring) : Prop :=
  s = [] \/ s = str "same-folder" \/ s = str "one-note-per-folder".

(** ** Tables for evaluation *)

(** Tables with no rune above Latin-1: on a text whose runes are all
    in Latin-1 the tables are not consulted. *)
Definition latin1Tables : RangeTables :=
  Build_RangeTables (fun _ => false) (fun _ => false).

End Spec.

(** * Notes and texts of the examples *)

Module Examples.

Import bearnotes Spec.


(** A text with a title, two tags and an image between them. *)
Definition textTagsAndImage : gostring :=
  str "# Title
#one ![d](a%20b/c.png) and #two".

(** The note of [TestLoadNote] and the note that the test expects
    back. *)
Definition testNote : gostring :=
  str "# Sample Markdown title (not a tag)

## Files

<a href='note/my%20file.pdf'>my file.pdf</a>
<a href='note/my%20other%20file.pdf'>my other file.pdf</a>

## Images

![an image](note/image%202.jpg)
![](note/no-alt.jpg)

## Tags

this is a paragraph with a #tag

And some tags in a list

- #foo
- #foo/bar@baz
- #and-a_very%special$one/avec/des/éèà

[it's a trap](https://www.perdu.com/#toto)

another trap: world #1

#end".

Definition testExpected : gostring :=
  str "# Sample Markdown title (not a tag)

## Files

[my file.pdf](note2/my%20file.pdf)
[my other file.pdf](note2/my%20other%20file.pdf)

## Images

![an image](note2/image%202.jpg)
![](note2/no-alt.jpg)

## Tags

this is a paragraph with a #tag

And some tags in a list

- 
- #foo/bar@baz
- #and-a_very%special$one/avec/des/éèà

[it's a trap](https://www.perdu.com/#toto)

another trap: world #1

#not-really".

(** The changes of the test: tag 1 emptied, tag 4 renamed, the files
    and the images moved to another directory. *)
Definition testChanges (note : Note) : Note :=
  mkNote
    (map (fun it : nat * Tag.t =>
            if (fst it =? 1)%nat then setName [] (snd it)
            else if (fst it =? 4)%nat then setName (str "not-really") (snd it)
            else snd it)
         (combine (seq 0 (List.length (Tags note))) (Tags note)))
    (map (fun it : string * File.t =>
            File.mk (str (fst it)) (File.Name (snd it)) (File.position (snd it)))
         (combine ["note2/my file.pdf"; "note2/my other file.pdf"]%string (Files note)))
    (map (fun it : string * Image.t =>
            Image.mk (str (fst it)) (Image.Description (snd it))
                     (Image.position (snd it)))
         (combine ["note2/image 2.jpg"; "note2/no-alt.jpg"]%string (Images note)))
    (content note).

(** A tag file: the notes with the tag [work] go to the directory
    [office] and the tag becomes [job]; the tag [draft] has no
    directive; the tag [old] is ignored. *)
Definition tagFile : discover.tagMap :=
  discover.assign
    (discover.assign
       (discover.assign discover.emptyMap (str "work")
          (discover.mkTagOptions 3 false (str "same-folder") (str "office")
                                 (str "job")))
       (str "draft") (discover.mkTagOptions 1 false [] [] (str "draft")))
    (str "old")
    (discover.mkTagOptions 2 true (str "one-note-per-folder") (str "archive")
                           (str "old")).

(** Tag names that are normalized and in lower case already. *)
Definition asIs (s : gostring) : gostring := s.

(** A note with the tags [work] and [draft], in this order. *)
Definition noteWorkDraft : Note :=
  LoadNote latin1Tables (str "#work on a #draft").

(** The map that the tags of this note give, from an empty map. *)
Definition discoveredTags : discover.tagMap :=
  discover.assign
    (discover.assign discover.emptyMap (str "work")
       (discover.mkTagOptions 1 false (str "same-folder") (str "work") (str "work")))
    (str "draft")
    (discover.mkTagOptions 1 false (str "same-folder") (str "draft") (str "draft")).

End Examples.

(** * Facts about the library functions *)

Module urlFacts.
Import url Spec.

Lemma escape_cons b t : escape (b :: t) = escapeByte b ++ escape t.
Proof. unfold escapeByte; simpl; destruct (shouldEscape (b2z b)); reflexivity. Qed.

Lemma escape_app a b : escape (a ++ b) = escape a ++ escape b.
Proof.
  induction a as [|c a IH]; [reflexivity|].
  rewrite <- app_comm_cons, !escape_cons, IH, app_assoc; reflexivity.
Qed.

(** The two digits written for an escaped byte decode to the byte. *)
Lemma escapeByte_escaped b :
  shouldEscape (b2z b) = true ->
  let h1 := nth (Z.to_nat (Z.shiftr (b2z b) 4)) upperhex x00 in
  let h2 := nth (Z.to_nat (Z.land (b2z b) 15)) upperhex x00 in
  ishex (b2z h1) && ishex (b2z h2) = true /\
  z2b (Z.lor (Z.shiftl (unhex (b2z h1)) 4) (unhex (b2z h2))) = b.
Proof. destruct b; vm_compute; intros H; try discriminate H; split; reflexivity. Qed.

Lemma escapeByte_kept b :
  shouldEscape (b2z b) = false -> Byte.eqb b x25 = false /\ Byte.eqb b x2f = false.
Proof. destruct b; vm_compute; intros H; try discriminate H; split; reflexivity. Qed.

Lemma shouldEscape_slash : shouldEscape (b2z x2f) = true.
Proof. reflexivity. Qed.

Lemma checkEscapes_escapeByte b t :
  checkEscapes (escapeByte b ++ t) = checkEscapes t.
Proof.
  unfold escapeByte.
  destruct (shouldEscape (b2z b)) eqn:E.
  - destruct (escapeByte_escaped b E) as [H _]. cbn zeta in H.
    cbn [app checkEscapes]. rewrite H. reflexivity.
  - destruct (escapeByte_kept b E) as [H _].
    cbn [app checkEscapes]. rewrite H. reflexivity.
Qed.

Lemma decodeEscapes_escapeByte b t :
  decodeEscapes (escapeByte b ++ t) = b :: decodeEscapes t.
Proof.
  unfold escapeByte.
  destruct (shouldEscape (b2z b)) eqn:E.
  - destruct (escapeByte_escaped b E) as [_ H]. cbn zeta in H.
    cbn [app decodeEscapes]. rewrite H. reflexivity.
  - destruct (escapeByte_kept b E) as [H _].
    cbn [app decodeEscapes]. rewrite H. reflexivity.
Qed.

End urlFacts.

Module pathFacts.
Import url urlFacts bearnotes Spec.

Lemma Split_nonempty s sep : strings.Split s sep <> [].
Proof.
  destruct s as [|c t]; simpl; [discriminate|].
  destruct (Byte.eqb c sep); [discriminate|].
  destruct (strings.Split t sep); discriminate.
Qed.

Lemma escapePath_loop_tail cs : forall k acc,
  (0 < k)%nat ->
  fold_left
    (fun escapedPath ic =>
       let '(i, pathComponent) := ic in
       let escapedPath :=
         if (0 <? i)%nat then escapedPath ++ str "/" else escapedPath in
       escapedPath ++ url.PathEscape pathComponent)
    (combine (seq k (List.length cs)) cs) acc
  = acc ++ flat_map (fun c' => str "/" ++ PathEscape c') cs.
Proof.
  induction cs as [|c cs IH]; intros k acc Hk; simpl.
  - rewrite app_nil_r; reflexivity.
  - rewrite IH by lia.
    destruct k; [lia|]. simpl. rewrite <- !app_assoc. reflexivity.
Qed.

Lemma escapePath_join p : escapePath p = joinEscaped (strings.Split p x2f).
Proof.
  unfold escapePath, joinEscaped.
  destruct (strings.Split p x2f) as [|c cs]; [reflexivity|].
  cbn [List.length seq combine fold_left].
  rewrite escapePath_loop_tail by lia. reflexivity.
Qed.

Lemma joinEscaped_Split p :
  joinEscaped (strings.Split p x2f) = flat_map escapePathByte p.
Proof.
  induction p as [|c t IH]; [reflexivity|].
  cbn [strings.Split flat_map]. unfold escapePathByte at 1.
  destruct (Byte.eqb c x2f) eqn:E.
  - rewrite <- IH. unfold joinEscaped at 1.
    destruct (strings.Split t x2f) as [|h r] eqn:S; [now apply Split_nonempty in S|].
    reflexivity.
  - rewrite <- IH.
    destruct (strings.Split t x2f) as [|h r] eqn:S; [now apply Split_nonempty in S|].
    unfold joinEscaped, PathEscape. rewrite escape_cons, <- app_assoc. reflexivity.
Qed.

Lemma escapePath_bytes p : escapePath p = flat_map escapePathByte p.
Proof. rewrite escapePath_join; apply joinEscaped_Split. Qed.

Lemma escapePath_app a b : escapePath (a ++ b) = escapePath a ++ escapePath b.
Proof. rewrite !escapePath_bytes; apply flat_map_app. Qed.

Lemma escapePathByte_check b t :
  checkEscapes (escapePathByte b ++ t) = checkEscapes t.
Proof.
  unfold escapePathByte. destruct (Byte.eqb b x2f) eqn:E.
  - reflexivity.
  - apply checkEscapes_escapeByte.
Qed.

Lemma escapePathByte_decode b t :
  decodeEscapes (escapePathByte b ++ t) = b :: decodeEscapes t.
Proof.
  unfold escapePathByte. destruct (Byte.eqb b x2f) eqn:E.
  - apply Byte.byte_dec_bl in E. subst b. reflexivity.
  - apply decodeEscapes_escapeByte.
Qed.

Lemma PathUnescape_escapePath p : PathUnescape (escapePath p) = (p, None).
Proof.
  rewrite escapePath_bytes. unfold PathUnescape.
  assert (C : checkEscapes (flat_map escapePathByte p) = None).
  { induction p as [|b t IH]; [reflexivity|].
    cbn [flat_map]. rewrite escapePathByte_check. exact IH. }
  rewrite C. f_equal.
  induction p as [|b t IH]; [reflexivity|].
  cbn [flat_map]. rewrite escapePathByte_decode. f_equal. apply IH.
  cbn [flat_map] in C. rewrite escapePathByte_check in C. exact C.
Qed.

End pathFacts.

Module utf8Facts.
Import utf8 Spec.

Lemma first_cases b :
  let x := first (b2z b) in
  x = as_ \/ x = xx \/ x = s1 \/ x = s2 \/ x = s3 \/ x = s4 \/ x = s5 \/ x = s6 \/ x = s7.
Proof. destruct b; vm_compute; auto 10. Qed.

Ltac first_case b :=
  let E := fresh "E" in
  destruct (first_cases b) as [E|[E|[E|[E|[E|[E|[E|[E|E]]]]]]]];
  cbv zeta in E; rewrite E;
  repeat match goal with
         | |- context [Z.to_nat (Z.land ?x 7)] =>
             let v := eval vm_compute in (Z.to_nat (Z.land x 7)) in
             change (Z.to_nat (Z.land x 7)) with v
         | |- context [as_ <=? ?x] =>
             let v := eval vm_compute in (as_ <=? x) in
             change (as_ <=? x) with v
         | |- context [acceptRanges ?x] =>
             let v := eval vm_compute in (acceptRanges x) in
             change (acceptRanges x) with v
         | |- context [Z.odd ?x] =>
             let v := eval vm_compute in (Z.odd x) in
             change (Z.odd x) with v
         end.

Ltac split_ifs :=
  repeat match goal with
         | |- context [if ?c then _ else _] => destruct c eqn:?
         end.

(** The width of a rune is at most the length of the string, and at
    least one when the string is not empty. *)
Lemma DecodeRune_width s :
  let w := snd (DecodeRuneInString s) in
  (w <= List.length s)%nat /\ (s <> [] -> 1 <= w)%nat /\ (w <= 4)%nat.
Proof.
  destruct s as [|b0 t]; [simpl; repeat split; try lia; congruence|].
  cbv zeta. unfold DecodeRuneInString. first_case b0;
    cbn -[List.length at_ Nat.ltb Z.ltb Z.lor Z.land Z.shiftl];
    split_ifs; cbn [snd];
    repeat match goal with
           | H : (_ <? _)%nat = false |- _ => apply Nat.ltb_ge in H
           end; cbn [List.length] in *; repeat split; intros; try lia; try discriminate.
Qed.

(** A rune is read from its own bytes: cutting the string anywhere
    after them does not change it. *)
Lemma DecodeRune_prefix n l :
  (snd (DecodeRuneInString l) <= n)%nat -> (1 <= n)%nat ->
  DecodeRuneInString (firstn n l) = DecodeRuneInString l.
Proof.
  destruct l as [|b0 [|b1 [|b2 [|b3 t]]]];
    destruct n as [|[|[|[|n]]]]; cbn [firstn]; try reflexivity; try lia;
    unfold DecodeRuneInString; first_case b0;
    unfold at_; cbn -[Z.ltb Z.lor Z.land Z.shiftl b2z];
    split_ifs; cbn [snd]; intros; try reflexivity; try lia; try discriminate.
Qed.

Lemma DecodeRune_ascii b t :
  b2z b < RuneSelf -> DecodeRuneInString (b :: t) = (b2z b, 1%nat).
Proof.
  intros H. unfold DecodeRuneInString.
  assert (E : first (b2z b) = as_).
  { unfold first. replace (b2z b <? 0x80) with true; [reflexivity|].
    symmetry; apply Z.ltb_lt; exact H. }
  rewrite E. reflexivity.
Qed.

Lemma lor_lower a b : 0 <= b -> a <= Z.lor a b.
Proof.
  intros Hb.
  assert (E : Z.lor a b = a + Z.ldiff b a).
  { rewrite Z.add_nocarry_lxor.
    - apply Z.bits_inj'. intros n Hn.
      rewrite Z.lor_spec, Z.lxor_spec, Z.ldiff_spec. btauto.
    - apply Z.bits_inj'. intros n Hn.
      rewrite Z.land_spec, Z.ldiff_spec, Z.bits_0. btauto. }
  rewrite E. assert (0 <= Z.ldiff b a) by (apply Z.ldiff_nonneg; auto). lia.
Qed.

Lemma lor_lower_r a b : 0 <= a -> b <= Z.lor a b.
Proof. intros. rewrite Z.lor_comm. apply lor_lower; auto. Qed.

Lemma b2z_range b : 0 <= b2z b < 256.
Proof. destruct b; vm_compute; split; congruence. Qed.

Lemma land_maskx_nonneg c : 0 <= Z.land c maskx.
Proof. apply Z.land_nonneg. right. unfold maskx. lia. Qed.

Lemma land_maskx_high c lo : lo <= c <= hicb -> 0x80 <= lo -> lo - 0x80 <= Z.land c maskx.
Proof.
  unfold hicb, maskx. intros H L.
  change 0x3F with (Z.ones 6). rewrite Z.land_ones by lia.
  change (2 ^ 6) with 64. pose proof (Z.mod_pos_bound c 64).
  pose proof (Z.div_mod c 64). nia.
Qed.

Lemma lead_bits b :
  let x := first (b2z b) in
  (x = s1 -> 2 <= Z.land (b2z b) mask2) /\
  (x = s3 \/ x = s4 -> 1 <= Z.land (b2z b) mask3) /\
  (x = s6 \/ x = s7 -> 1 <= Z.land (b2z b) mask4).
Proof.
  destruct b; vm_compute; repeat split; intros H; try discriminate;
    try (destruct H; discriminate).
Qed.

Lemma lor_ge_l x a b : 0 <= b -> x <= a -> x <= Z.lor a b.
Proof. intros Hb Ha. pose proof (lor_lower a b Hb). lia. Qed.

Lemma lor_ge_r x a b : 0 <= a -> x <= b -> x <= Z.lor a b.
Proof. intros Ha Hb. pose proof (lor_lower_r a b Ha). lia. Qed.

Lemma shiftl_ge x a n : 0 <= n -> x <= a * 2 ^ n -> x <= Z.shiftl a n.
Proof. intros Hn H. rewrite Z.shiftl_mul_pow2 by exact Hn. exact H. Qed.

Lemma shiftl_land_nonneg c m n : 0 <= m -> 0 <= Z.shiftl (Z.land c m) n.
Proof. intros. apply Z.shiftl_nonneg, Z.land_nonneg. auto. Qed.

Lemma second_byte_range c lo hi :
  (c <? lo) || (hi <? c) = false -> lo <= c <= hi.
Proof.
  intros H. apply orb_false_iff in H as (H1 & H2).
  apply Z.ltb_ge in H1, H2. lia.
Qed.

Ltac pow2 :=
  repeat match goal with
         | |- context [2 ^ ?n] =>
             let v := eval vm_compute in (2 ^ n) in change (2 ^ n) with v
         end.

Ltac nonneg_term :=
  solve [apply land_maskx_nonneg
        |apply shiftl_land_nonneg; vm_compute; congruence].

(** A rune below [RuneSelf] is read from one byte, which is the rune. *)
Lemma DecodeRune_below_RuneSelf b0 t :
  fst (DecodeRuneInString (b0 :: t)) < RuneSelf -> b2z b0 < RuneSelf.
Proof.
  pose proof (lead_bits b0) as (B1 & B3 & B4). cbv zeta in B1, B3, B4.
  unfold DecodeRuneInString.
  first_case b0; rewrite E in B1, B3, B4;
    cbn -[at_ Z.lor Z.land Z.shiftl Z.ltb maskx mask2 mask3 mask4 locb hicb
          List.length Nat.ltb b2z RuneSelf];
    split_ifs; cbn [fst]; try (intros H; vm_compute in H; discriminate H);
    try (intros H; exact H);
    intros H; exfalso; apply Z.lt_nge in H; apply H; clear H; unfold RuneSelf;
    try specialize (B1 eq_refl);
    try specialize (B3 (or_introl eq_refl)); try specialize (B3 (or_intror eq_refl));
    try specialize (B4 (or_introl eq_refl)); try specialize (B4 (or_intror eq_refl));
    repeat match goal with
           | H : (_ <? _) || (_ <? _) = false |- _ =>
               apply second_byte_range in H
           end.
  all: try (repeat (apply lor_ge_l; [nonneg_term|]); apply shiftl_ge; [lia|pow2; lia]).
  - apply lor_ge_l; [nonneg_term|]. apply lor_ge_r; [nonneg_term|].
    apply shiftl_ge; [lia|]. pow2.
    match goal with H : _ <= at_ _ 1 <= _ |- _ =>
                      pose proof (land_maskx_high _ _ H) end. lia.
  - apply lor_ge_l; [nonneg_term|]. apply lor_ge_l; [nonneg_term|].
    apply lor_ge_r; [nonneg_term|].
    apply shiftl_ge; [lia|]. pow2.
    match goal with H : _ <= at_ _ 1 <= _ |- _ =>
                      pose proof (land_maskx_high _ _ H) end. lia.
Qed.

Lemma DecodeRune_ascii_inv l r w :
  DecodeRuneInString l = (r, w) -> r < RuneSelf ->
  exists b t, l = b :: t /\ b2z b = r /\ w = 1%nat.
Proof.
  intros D R. destruct l as [|b t].
  - cbn in D. injection D as <- <-. vm_compute in R. discriminate R.
  - assert (A : b2z b < RuneSelf).
    { apply (DecodeRune_below_RuneSelf b t). rewrite D. exact R. }
    rewrite DecodeRune_ascii in D by exact A. injection D as <- <-.
    exists b, t. auto.
Qed.

(** The bytes of a rune after the first one are continuation bytes. *)
Lemma DecodeRune_continuation l k :
  (1 <= k < snd (DecodeRuneInString l))%nat -> locb <= at_ l k <= hicb.
Proof.
  destruct l as [|b0 t]; [cbn; lia|].
  unfold DecodeRuneInString. first_case b0;
    cbn -[at_ Z.lor Z.land Z.shiftl Z.ltb List.length Nat.ltb b2z RuneSelf];
    split_ifs; cbn [snd]; intros K; try lia;
    repeat match goal with
           | H : (_ <? _) || (_ <? _) = false |- _ =>
               apply second_byte_range in H
           end;
    unfold locb, hicb in *;
    destruct k as [|[|[|[|k]]]]; try lia.
Qed.

(** A rune read before a byte that starts a rune does not take that
    byte. *)
Lemma DecodeRune_before_start d a t :
  d <> [] -> startsRune a ->
  (snd (DecodeRuneInString (d ++ a :: t)) <= List.length d)%nat.
Proof.
  intros N A.
  destruct (le_lt_dec (snd (DecodeRuneInString (d ++ a :: t))) (List.length d))
    as [L|L]; [exact L|exfalso].
  assert (K : (1 <= List.length d)%nat) by (destruct d; [congruence|cbn; lia]).
  pose proof (DecodeRune_continuation (d ++ a :: t) (List.length d) (conj K L)) as C.
  unfold at_ in C. rewrite app_nth2, Nat.sub_diag in C by lia. cbn [nth] in C.
  unfold startsRune in A. lia.
Qed.

Lemma DecodeRune_before_ascii d a t :
  d <> [] -> b2z a < RuneSelf ->
  (snd (DecodeRuneInString (d ++ a :: t)) <= List.length d)%nat.
Proof. intros N A. apply DecodeRune_before_start; [exact N|left; exact A]. Qed.



End utf8Facts.

Module regexpFacts.
Import unicode regexp utf8Facts Spec.

(** *** Steps *)

Lemma step_Some i r j :
  step i = Some (r, j) ->
  exists w, (1 <= w <= List.length (irest i))%nat /\
            utf8.DecodeRuneInString (irest i) = (r, w) /\
            j = mkInput (ipos i + w) (skipn w (irest i)).
Proof.
  unfold step. pose proof (DecodeRune_width (irest i)) as W. cbv zeta in W.
  destruct (utf8.DecodeRuneInString (irest i)) as [r' w]. cbn [snd] in W.
  destruct w as [|w]; [discriminate|].
  intros H; injection H as <- <-. exists (S w). repeat split; lia.
Qed.

Lemma step_None i : step i = None <-> irest i = [].
Proof.
  unfold step. pose proof (DecodeRune_width (irest i)) as W. cbv zeta in W.
  destruct (utf8.DecodeRuneInString (irest i)) as [r' w] eqn:E. cbn [snd] in W.
  split.
  - destruct w; [|discriminate]. intros _.
    destruct (irest i); [reflexivity|]. destruct W as (_ & W & _).
    exfalso. assert (b :: g <> []) by discriminate. apply W in H. lia.
  - intros H. rewrite H in E. cbn in E. injection E as <- <-. reflexivity.
Qed.

Lemma advances_refl i : advances i i 0.
Proof. unfold advances; cbn; repeat split; lia. Qed.

Lemma advances_trans i j k n m :
  advances i j n -> advances j k m -> advances i k (n + m).
Proof.
  unfold advances. intros (P1 & R1 & L1) (P2 & R2 & L2).
  rewrite R1 in R2, L2. rewrite length_skipn in L2.
  rewrite skipn_skipn in R2. repeat split; try lia.
  rewrite R2. f_equal. lia.
Qed.

Lemma step_advances i r j :
  step i = Some (r, j) -> exists w, (1 <= w)%nat /\ advances i j w.
Proof.
  intros H. apply step_Some in H as (w & W & _ & ->).
  exists w. unfold advances; cbn. repeat split; lia.
Qed.

Section Semantics.

Variable U : RangeTables.

Local Abbreviation Path := (Path U).
Local Abbreviation complete := (complete U).
Local Abbreviation IsMatch := (IsMatch U).

Lemma Path_advances re i j : Path re i j -> exists n, advances i j n.
Proof.
  induction 1;
    try (exists 0%nat; apply advances_refl);
    repeat match goal with
           | H : step _ = Some _ |- _ =>
               apply step_advances in H as (? & _ & ?)
           | H : exists _, _ |- _ => destruct H
           end;
    eauto using advances_trans.
Qed.

(** *** Soundness of the matcher: a result comes from a path. *)

Lemma rune1_sound p k i c res :
  rune1 p k i c = Some res ->
  exists r j, step i = Some (r, j) /\ p r = true /\ k j c = Some res.
Proof.
  unfold rune1. destruct (step i) as [[r j]|]; [|discriminate].
  destruct (p r) eqn:E; [|discriminate]. eauto.
Qed.

Lemma literal_sound rs : forall k i c res,
  literal rs k i c = Some res ->
  exists j, Path (OpLiteral rs) i j /\ k j c = Some res.
Proof.
  induction rs as [|r rs IH]; intros k i c res H; cbn [literal] in H.
  - eauto using PathLitNil.
  - apply rune1_sound in H as (r' & j & S & E & H).
    apply Z.eqb_eq in E. subst r'.
    apply IH in H as (j' & P & H). eauto using PathLitCons.
Qed.

Lemma orElse_Some a b res :
  orElse a b = Some res -> a = Some res \/ (a = None /\ b = Some res).
Proof. destruct a; cbn; intros H; [left|right]; auto. Qed.

Lemma star_sound re (m : cont -> cont) :
  (forall k i c res, m k i c = Some res ->
                     exists j c', Path re i j /\ k j c' = Some res) ->
  forall fuel k i c res,
    star m fuel k i c = Some res ->
    exists j c', Path (OpStar re) i j /\ k j c' = Some res.
Proof.
  intros Hm. induction fuel as [|fuel IH]; intros k i c res H; cbn [star] in H.
  - eauto using PathStarNil.
  - apply orElse_Some in H as [H|[_ H]]; [|eauto using PathStarNil].
    apply Hm in H as (j & c' & P & H). cbv beta in H.
    destruct (ipos i <? ipos j)%nat eqn:L; [|discriminate H].
    apply Nat.ltb_lt in L.
    apply IH in H as (j' & c'' & P' & H). eauto using PathStarCons.
Qed.

Lemma run_sound re : forall k i c res,
  run U re k i c = Some res ->
  exists j c', Path re i j /\ k j c' = Some res.
Proof.
  induction re; intros k i c res H; cbn [run] in H.
  - eauto using PathEmpty.
  - destruct (ipos i =? 0)%nat eqn:E; [|discriminate H].
    apply Nat.eqb_eq in E. eauto using PathBegin.
  - destruct (irest i) eqn:E; [|discriminate H]. eauto using PathEnd.
  - apply rune1_sound in H as (r & j & S & E & H).
    apply negb_true_iff in E. eauto using PathAny.
  - apply literal_sound in H as (j & P & H). eauto.
  - apply rune1_sound in H as (r & j & S & E & H). eauto using PathClass.
  - apply IHre in H as (j & c' & P & H). eauto using PathCapture.
  - eapply star_sound in H; eauto.
  - apply IHre in H as (j & c' & P & H).
    eapply star_sound in H as (j' & c'' & P' & H); eauto using PathPlus.
  - apply orElse_Some in H as [H|[_ H]]; [|eauto using PathQuestNone].
    apply IHre in H as (j & c' & P & H). eauto using PathQuestSome.
  - apply IHre1 in H as (j & c' & P & H).
    apply IHre2 in H as (j' & c'' & P' & H). eauto using PathConcat.
  - apply orElse_Some in H as [H|[_ H]].
    + apply IHre1 in H as (j & c' & P & H). eauto using PathAltL.
    + apply IHre2 in H as (j & c' & P & H). eauto using PathAltR.
Qed.

(** *** Completeness of the matcher: where there is a path to an
    input from which the continuation cannot fail, the matcher
    returns a result. *)

Lemma orElse_right a b : b <> None -> orElse a b <> None.
Proof. destruct a; cbn; [discriminate|auto]. Qed.

Lemma orElse_left a b : a <> None -> orElse a b <> None.
Proof. destruct a; cbn; [discriminate|congruence]. Qed.

Lemma rune1_complete p k i c r j :
  step i = Some (r, j) -> p r = true -> rune1 p k i c = k j c.
Proof. intros S E. unfold rune1. rewrite S, E. reflexivity. Qed.

Lemma literal_complete rs : forall i j,
  Path (OpLiteral rs) i j -> forall k c, literal rs k i c = k j c.
Proof.
  induction rs as [|r rs IH]; intros i j P k c; inversion P; subst; cbn [literal].
  - reflexivity.
  - erewrite rune1_complete; eauto using Z.eqb_refl.
Qed.

Lemma star_complete re :
  complete re ->
  forall i j, Path (OpStar re) i j ->
  forall fuel k, (List.length (irest i) <= fuel)%nat ->
                 (forall c', k j c' <> None) ->
                 forall c, star (run U re) fuel k i c <> None.
Proof.
  intros Hre i j P. remember (OpStar re) as sr eqn:E.
  induction P; try discriminate E; injection E as ->; intros fuel k0 F K c.
  - destruct fuel; cbn [star]; [apply K|apply orElse_right, K].
  - pose proof (Path_advances _ _ _ P1) as (n & A).
    destruct A as (A1 & A2 & A3).
    destruct fuel as [|fuel]; [lia|]. cbn [star].
    apply orElse_left. eapply Hre; [exact P1|].
    intros c'. cbv beta.
    replace (ipos i <? ipos j)%nat with true by (symmetry; apply Nat.ltb_lt; lia).
    apply IHP2; auto. rewrite A2, length_skipn. lia.
Qed.

Lemma run_complete re : complete re.
Proof.
  unfold complete.
  induction re; intros i j P k K c;
    try (cbn [run]; erewrite literal_complete; eauto; fail);
    try (cbn [run]; eapply star_complete; eauto; fail);
    inversion P; subst; cbn [run].
  - apply K.
  - replace (ipos j =? 0)%nat with true by (symmetry; apply Nat.eqb_eq; auto). apply K.
  - match goal with H : irest j = [] |- _ => rewrite H end. apply K.
  - rewrite (rune1_complete _ k i c r j H); [apply K|].
    match goal with H : (_ =? _) = false |- _ => rewrite H end. reflexivity.
  - erewrite rune1_complete; eauto.
  - eapply IHre; eauto.
  - eapply IHre; eauto. intros c'. cbv beta.
    eapply star_complete; eauto.
  - apply orElse_left. eapply IHre; eauto.
  - apply orElse_right, K.
  - eapply IHre1; eauto.
  - apply orElse_left. eapply IHre1; eauto.
  - apply orElse_right. eapply IHre2; eauto.
Qed.

(** *** A path does not depend on the text around it *)

Lemma step_localize a b i r j :
  step i = Some (r, j) -> (a <= ipos i)%nat -> (ipos j <= b)%nat ->
  step (localize a b i) = Some (r, localize a b j).
Proof.
  intros S A B. apply step_Some in S as (w & W & D & ->). cbn [ipos irest] in *.
  unfold step, localize. cbn [ipos irest].
  rewrite DecodeRune_prefix by (try rewrite D; cbn [snd]; lia). rewrite D.
  destruct w as [|w]; [lia|].
  rewrite skipn_firstn_comm. do 2 f_equal. f_equal; [lia|f_equal; lia].
Qed.

Lemma Path_mono re i j : Path re i j -> (ipos i <= ipos j)%nat.
Proof. intros P. apply Path_advances in P as (n & A & _). lia. Qed.

Lemma Path_localize a b re i j :
  Path re i j -> (a <= ipos i)%nat -> (ipos j <= b)%nat ->
  Path re (localize a b i) (localize a b j).
Proof.
  induction 1; intros A B;
    repeat match goal with
           | H : Path _ _ _ |- _ => pose proof (Path_mono _ _ _ H); revert H
           end; intros;
    repeat match goal with
           | H : step _ = Some _ |- _ =>
               pose proof (step_advances _ _ _ H) as (? & _ & ? & _); revert H
           end; intros.
  - constructor.
  - constructor. cbn. lia.
  - constructor. cbn. rewrite H. apply firstn_nil.
  - eapply PathAny; [eapply step_localize; eauto; lia|assumption].
  - constructor.
  - eapply PathLitCons; [eapply step_localize; eauto; lia|apply IHPath; lia].
  - eapply PathClass; [eapply step_localize; eauto; lia|assumption].
  - constructor. apply IHPath; lia.
  - constructor.
  - eapply PathStarCons; [apply IHPath1; lia|cbn; lia|apply IHPath2; lia].
  - eapply PathPlus; [apply IHPath1; lia|apply IHPath2; lia].
  - apply PathQuestSome. apply IHPath; lia.
  - apply PathQuestNone.
  - eapply PathConcat; [apply IHPath1; lia|apply IHPath2; lia].
  - apply PathAltL. apply IHPath; lia.
  - apply PathAltR. apply IHPath; lia.
Qed.

(** *** Searches *)

Lemma advances_inputAt s p j n :
  (p <= List.length s)%nat -> advances (inputAt s p) j n ->
  j = inputAt s (p + n) /\ (p + n <= List.length s)%nat.
Proof.
  intros L (A1 & A2 & A3). cbn [inputAt ipos irest] in *.
  rewrite length_skipn in A3. split; [|lia].
  destruct j as [jp jr]. cbn [ipos irest] in *. subst jp jr.
  unfold inputAt. f_equal. rewrite skipn_skipn. f_equal. lia.
Qed.

Lemma matchAt_Some re i c :
  matchAt U re i = Some c ->
  exists j, Path re i j /\ getcap c 0 = Some (ipos i, ipos j).
Proof.
  unfold matchAt. intros H. apply run_sound in H as (j & c' & P & H).
  injection H as <-. exists j. split; [exact P|reflexivity].
Qed.

Lemma matchAt_complete re i j :
  Path re i j -> matchAt U re i <> None.
Proof. intros P. unfold matchAt. eapply run_complete; eauto. discriminate. Qed.

Lemma searchFrom_Some re : forall fuel i c,
  searchFrom U fuel re i = Some c ->
  exists n i0 j, advances i i0 n /\ Path re i0 j /\
                 getcap c 0 = Some (ipos i0, ipos j).
Proof.
  induction fuel as [|fuel IH]; intros i c H; cbn [searchFrom] in H.
  - destruct (matchAt U re i) eqn:M; [|discriminate H]. injection H as ->.
    apply matchAt_Some in M as (j & P & G).
    exists 0%nat, i, j. auto using advances_refl.
  - destruct (matchAt U re i) eqn:M.
    + injection H as ->. apply matchAt_Some in M as (j & P & G).
      exists 0%nat, i, j. auto using advances_refl.
    + destruct (step i) as [[r i']|] eqn:S; [|discriminate H].
      apply step_advances in S as (w & _ & A).
      apply IH in H as (n & i0 & j & A' & P & G).
      exists (w + n)%nat, i0, j. eauto using advances_trans.
Qed.

Lemma doExecute_Some re s pos c :
  doExecute U re s pos = Some c -> (pos <= List.length s)%nat ->
  exists m, getcap c 0 = Some m /\ (pos <= fst m)%nat /\ IsMatch re s m.
Proof.
  unfold doExecute. intros H L.
  apply searchFrom_Some in H as (n & i0 & j & A & P & G).
  apply (advances_inputAt s pos) in A as (-> & L0); [|exact L].
  pose proof (Path_advances _ _ _ P) as (n' & A').
  apply advances_inputAt in A' as (-> & L1); [|exact L0].
  exists ((pos + n)%nat, (pos + n + n')%nat). cbn [fst snd].
  split; [exact G|]. split; [lia|]. split; [cbn; lia|exact P].
Qed.

Lemma allMatches_spec re s : forall fuel pos n prev,
  let ms := allMatches U fuel re s pos n prev in
  Forall (fun m => (pos <= fst m)%nat /\ IsMatch re s m) ms /\
  StronglySorted (fun a b => (snd a <= fst b)%nat) ms.
Proof.
  induction fuel as [|fuel IH]; intros pos n prev; cbn [allMatches].
  - split; constructor.
  - destruct ((n =? 0)%nat || (List.length s <? pos)%nat) eqn:G;
      [split; constructor|].
    apply orb_false_iff in G as (_ & G). apply Nat.ltb_ge in G.
    destruct (doExecute U re s pos) as [c|] eqn:D; [|split; constructor].
    apply doExecute_Some in D as ([m0 m1] & C & P & M); [|exact G].
    rewrite C. cbn [fst snd] in P.
    pose proof M as ((M1 & M2) & _). cbn [fst snd] in M1, M2.
    assert (Step : forall pos' n' prev',
               (m1 <= pos')%nat ->
               let ms := (m0, m1) :: allMatches U fuel re s pos' n' prev' in
               Forall (fun m => (pos <= fst m)%nat /\ IsMatch re s m) ms /\
               StronglySorted (fun a b => (snd a <= fst b)%nat) ms).
    { intros pos' n' prev' L. cbv zeta.
      destruct (IH pos' n' prev') as (F & S).
      split.
      - constructor; [split; [exact P|exact M]|].
        eapply Forall_impl; [|exact F]. cbv beta. intros a (? & ?). split; [lia|auto].
      - constructor; [exact S|].
        eapply Forall_impl; [|exact F]. cbv beta. cbn [snd]. intros a (? & ?). lia. }
    destruct (m1 =? pos)%nat eqn:E.
    + apply Nat.eqb_eq in E.
      pose proof (DecodeRune_width (skipn pos s)) as W. cbv zeta in W.
      set (width := snd (utf8.DecodeRuneInString (skipn pos s))) in *.
      set (pos' := if (0 <? width)%nat then (pos + width)%nat
                   else S (List.length s)).
      assert (L : (m1 <= pos')%nat).
      { unfold pos'. destruct (0 <? width)%nat; lia. }
      destruct (negb (Z.of_nat m0 =? prev)).
      * apply Step; exact L.
      * destruct (IH pos' n (Z.of_nat m1)) as (F & S). split; [|exact S].
        eapply Forall_impl; [|exact F]. cbv beta. intros a (? & ?). split; [lia|auto].
    + apply Step. lia.
Qed.

(** The matches that [FindAllStringIndex] returns are matches, within
    the text, in ascending order and disjoint. *)
Lemma FindAllStringIndex_spec re s :
  Forall (IsMatch re s) (FindAllStringIndex U re s) /\
  StronglySorted (fun a b => (snd a <= fst b)%nat) (FindAllStringIndex U re s).
Proof.
  unfold FindAllStringIndex.
  destruct (allMatches_spec re s (List.length s + 2) 0 (List.length s + 1) (-1))
    as (F & S).
  split; [|exact S]. eapply Forall_impl; [|exact F]. cbv beta. tauto.
Qed.

(** The matches that [FindAllStringIndex] returns are those that
    [matchAt] finds at their first offset. *)
Lemma searchFrom_found re : forall fuel i c,
  searchFrom U fuel re i = Some c ->
  exists n i0, advances i i0 n /\ matchAt U re i0 = Some c.
Proof.
  induction fuel as [|fuel IH]; intros i c H; cbn [searchFrom] in H.
  - destruct (matchAt U re i) eqn:M; [|discriminate H]. injection H as ->.
    exists 0%nat, i. auto using advances_refl.
  - destruct (matchAt U re i) eqn:M.
    + injection H as ->. exists 0%nat, i. auto using advances_refl.
    + destruct (step i) as [[r i']|] eqn:S; [|discriminate H].
      apply step_advances in S as (w & _ & A).
      apply IH in H as (n & i0 & A' & M').
      exists (w + n)%nat, i0. eauto using advances_trans.
Qed.

Lemma doExecute_found re s pos c m :
  doExecute U re s pos = Some c -> (pos <= List.length s)%nat ->
  getcap c 0 = Some m -> Found U re s m.
Proof.
  unfold doExecute. intros H L G.
  apply searchFrom_found in H as (n & i0 & A & M).
  apply (advances_inputAt s pos) in A as (-> & L0); [|exact L].
  pose proof M as M'. apply matchAt_Some in M' as (j & _ & G').
  rewrite G in G'. injection G' as ->. cbn [inputAt ipos fst] in *.
  split; [cbn; lia|]. exists c. cbn [fst]. auto.
Qed.

Lemma allMatches_found re s : forall fuel pos n prev,
  Forall (Found U re s) (allMatches U fuel re s pos n prev).
Proof.
  induction fuel as [|fuel IH]; intros pos n prev; cbn [allMatches].
  - constructor.
  - destruct ((n =? 0)%nat || (List.length s <? pos)%nat) eqn:G; [constructor|].
    apply orb_false_iff in G as (_ & G). apply Nat.ltb_ge in G.
    destruct (doExecute U re s pos) as [c|] eqn:D; [|constructor].
    destruct (getcap c 0) as [[m0 m1]|] eqn:C; [|constructor].
    pose proof (doExecute_found _ _ _ _ _ D G C) as F.
    destruct (m1 =? pos)%nat.
    + destruct (negb (Z.of_nat m0 =? prev)); [constructor; auto|auto].
    + constructor; auto.
Qed.

Lemma FindAllStringIndex_found re s :
  Forall (Found U re s) (FindAllStringIndex U re s).
Proof. apply allMatches_found. Qed.

(** The text of a match, searched again on its own, matches from its
    first byte. *)
Lemma rematch re s m :
  IsMatch re s m ->
  exists c j, doExecute U re (sub s (fst m) (snd m)) 0 = Some c /\
              Path re (inputAt (sub s (fst m) (snd m)) 0) j /\
              getcap c 0 = Some (0%nat, ipos j).
Proof.
  destruct m as [m0 m1]. intros ((L0 & L1) & P). cbn [fst snd] in *.
  apply (Path_localize m0 m1) in P;
    [|unfold inputAt; cbn [ipos]; lia|unfold inputAt; cbn [ipos]; lia].
  unfold localize, inputAt in P. cbn [ipos irest] in P.
  rewrite Nat.sub_diag in P.
  unfold doExecute. change (skipn 0 (sub s m0 m1)) with (sub s m0 m1).
  unfold sub.
  destruct (matchAt U re (mkInput 0 (firstn (m1 - m0) (skipn m0 s)))) as [c|] eqn:M.
  - exists c. pose proof M as M'. apply matchAt_Some in M as (j & P' & G).
    exists j. split; [|split; [exact P'|exact G]].
    destruct (List.length (firstn (m1 - m0) (skipn m0 s))); cbn [searchFrom];
      rewrite M'; reflexivity.
  - exfalso. eapply matchAt_complete in P. apply P. exact M.
Qed.

End Semantics.
End regexpFacts.

Module sortFacts.
Import sort.

Section Lists.
Variable A : Type.

Lemma ForallOrdPairs_cons_iff (R : A -> A -> Prop) x l :
  ForallOrdPairs R (x :: l) <-> Forall (R x) l /\ ForallOrdPairs R l.
Proof.
  split.
  - intros H; inversion H; subst; auto.
  - intros (H1 & H2); constructor; auto.
Qed.

Lemma ForallOrdPairs_perm (R : A -> A -> Prop) :
  (forall x y, R x y -> R y x) ->
  forall l l', Permutation l l' -> ForallOrdPairs R l -> ForallOrdPairs R l'.
Proof.
  intros Sym l l' P. induction P; intros H.
  - exact H.
  - apply ForallOrdPairs_cons_iff in H as (H1 & H2).
    apply ForallOrdPairs_cons_iff. split; [|auto].
    eapply Permutation_Forall; eauto.
  - apply ForallOrdPairs_cons_iff in H as (H1 & H2).
    apply ForallOrdPairs_cons_iff in H2 as (H2 & H3).
    inversion H1; subst.
    apply ForallOrdPairs_cons_iff. split.
    + constructor; auto.
    + apply ForallOrdPairs_cons_iff. auto.
  - auto.
Qed.

Lemma StronglySorted_snoc (R : A -> A -> Prop) l a :
  StronglySorted R l -> Forall (fun b => R b a) l -> StronglySorted R (l ++ [a]).
Proof.
  induction l as [|x l IH]; intros S F; cbn.
  - repeat constructor.
  - inversion S; subst. inversion F; subst.
    constructor; [auto|]. apply Forall_app. split; [assumption|repeat constructor; assumption].
Qed.

Lemma StronglySorted_rev (R : A -> A -> Prop) l :
  StronglySorted (fun a b => R b a) l -> StronglySorted R (rev l).
Proof.
  induction 1; cbn; [constructor|].
  apply StronglySorted_snoc; [assumption|].
  apply Forall_rev. assumption.
Qed.

(** A list sorted for [R1] with [R2] on every two elements at
    distinct places is sorted for whatever follows from both. *)
Lemma StronglySorted_refine (R1 R2 R3 : A -> A -> Prop) (P : A -> Prop) l :
  (forall x y, P x -> P y -> R1 x y -> R2 x y -> R3 x y) ->
  Forall P l -> StronglySorted R1 l -> ForallOrdPairs R2 l ->
  StronglySorted R3 l.
Proof.
  intros H F S. induction S; intros O; [constructor|].
  inversion F; subst.
  apply ForallOrdPairs_cons_iff in O as (O1 & O2).
  constructor; [auto|].
  rewrite Forall_forall in *. intros y Hy. apply H; auto.
Qed.

Variable less : A -> A -> bool.
Variable key : A -> Z.

Lemma insertDown_perm x prefix :
  Permutation (x :: prefix) (insertDown A less x prefix).
Proof.
  induction prefix as [|y prefix IH]; cbn; [reflexivity|].
  destruct (less x y); [|reflexivity].
  rewrite perm_swap. apply perm_skip. exact IH.
Qed.

Lemma insertDown_sorted x prefix :
  Forall (agreesOn A less key x) prefix ->
  StronglySorted (fun a b => key b <= key a) prefix ->
  StronglySorted (fun a b => key b <= key a) (insertDown A less x prefix).
Proof.
  induction prefix as [|y prefix IH]; intros F S; cbn.
  - repeat constructor.
  - inversion F as [|? ? (E & _) F']; subst. inversion S as [|? ? S' G]; subst.
    rewrite E. destruct (key x <? key y) eqn:L.
    + apply Z.ltb_lt in L. constructor; [auto|].
      eapply Permutation_Forall; [apply insertDown_perm|].
      constructor; [lia|exact G].
    + apply Z.ltb_ge in L. constructor; [exact S|].
      constructor; [exact L|].
      eapply Forall_impl; [|exact G]. cbv beta. intros; lia.
Qed.

Lemma insertionSort_loop_perm l : forall prefix,
  Permutation (l ++ prefix)
              (fold_left (fun prefix x => insertDown A less x prefix) l prefix).
Proof.
  induction l as [|x l IH]; intros prefix; cbn; [reflexivity|].
  rewrite <- IH. rewrite <- insertDown_perm. apply Permutation_middle.
Qed.

Lemma agreesOn_sym x y : agreesOn A less key x y -> agreesOn A less key y x.
Proof. unfold agreesOn; tauto. Qed.

Lemma insertionSort_loop_sorted l : forall prefix,
  ForallOrdPairs (agreesOn A less key) l ->
  Forall (fun x => Forall (agreesOn A less key x) prefix) l ->
  StronglySorted (fun a b => key b <= key a) prefix ->
  StronglySorted (fun a b => key b <= key a)
                 (fold_left (fun prefix x => insertDown A less x prefix) l prefix).
Proof.
  induction l as [|x l IH]; intros prefix O F S; cbn; [exact S|].
  apply ForallOrdPairs_cons_iff in O as (O1 & O2).
  inversion F as [|? ? Fx Fl]; subst.
  apply IH; [exact O2| |apply insertDown_sorted; assumption].
  rewrite Forall_forall in *. intros z Hz.
  eapply Permutation_Forall; [apply insertDown_perm|].
  constructor; [apply agreesOn_sym, O1, Hz|apply Fl, Hz].
Qed.

End Lists.

(** [insertionSort] meets what is assumed of [sort.Slice]. *)
Lemma insertionSort_spec A : Slice_spec A (insertionSort A).
Proof.
  intros less l. unfold insertionSort. split.
  - rewrite <- Permutation_rev.
    rewrite <- insertionSort_loop_perm, app_nil_r. reflexivity.
  - intros key O. apply StronglySorted_rev.
    apply insertionSort_loop_sorted; [exact O| |constructor].
    apply Forall_forall. intros; constructor.
Qed.

End sortFacts.

Module serializerFacts.
Import bearnotes sort sortFacts Spec.

Lemma slice_between content lo hi :
  0 <= lo <= hi -> hi <= len content ->
  slice content lo hi = Some (between content lo hi).
Proof.
  intros H1 H2. unfold slice, between.
  replace (0 <=? lo) with true by (symmetry; apply Z.leb_le; lia).
  replace (lo <=? hi) with true by (symmetry; apply Z.leb_le; lia).
  replace (hi <=? len content) with true by (symmetry; apply Z.leb_le; lia).
  reflexivity.
Qed.

Lemma between_to_end content lo :
  between content lo (len content) = skipn (Z.to_nat lo) content.
Proof.
  unfold between, len. apply firstn_all2. rewrite length_skipn. lia.
Qed.

Lemma index_wellPlaced content it :
  wellPlaced content it ->
  index (item_position it) 0 = Some (spanStart it) /\
  index (item_position it) 1 = Some (spanEnd it).
Proof.
  unfold wellPlaced, index, spanStart, spanEnd. intros (L & _).
  destruct (item_position it) as [|a [|b p]]; cbn in L; try lia. auto.
Qed.

Lemma copyItems_spliced content : forall items current newContent,
  0 <= current <= len content ->
  Forall (wellPlaced content) items ->
  Forall (fun it => current <= spanStart it) items ->
  StronglySorted (fun x y => spanEnd x <= spanStart y) items ->
  copyItems content items current newContent
  = Some (newContent ++ spliced content items current).
Proof.
  induction items as [|it items IH]; intros current newContent C W F S;
    cbn [copyItems spliced].
  - rewrite slice_between, between_to_end; auto; lia.
  - inversion W as [|? ? Wit W']; subst. inversion F as [|? ? Fit F']; subst.
    inversion S as [|? ? S' G]; subst.
    destruct (index_wellPlaced _ _ Wit) as (E0 & E1). rewrite E0, E1.
    destruct Wit as (_ & Wit1 & Wit2).
    rewrite slice_between by lia.
    rewrite IH; auto; [|lia].
    rewrite <- !app_assoc. reflexivity.
Qed.

(** Items that render to the text of their own span leave the content
    as it is. *)
Lemma spliced_unchanged content : forall items current,
  0 <= current ->
  Forall (wellPlaced content) items ->
  Forall (fun it => current <= spanStart it) items ->
  StronglySorted (fun x y => spanEnd x <= spanStart y) items ->
  Forall (fun it => item_content it = between content (spanStart it) (spanEnd it)) items ->
  spliced content items current = skipn (Z.to_nat current) content.
Proof.
  induction items as [|it items IH]; intros current C W F S E; cbn [spliced].
  - reflexivity.
  - inversion W as [|? ? Wit W']; subst. inversion F as [|? ? Fit F']; subst.
    inversion S as [|? ? S' G]; subst. inversion E as [|? ? Eit E']; subst.
    destruct Wit as (_ & Wit1 & Wit2).
    rewrite IH; auto; [|lia]. rewrite Eit. unfold between.
    set (l := skipn (Z.to_nat current) content).
    replace (skipn (Z.to_nat (spanStart it)) content)
      with (skipn (Z.to_nat (spanStart it - current)) l)
      by (unfold l; rewrite skipn_skipn; f_equal; lia).
    replace (skipn (Z.to_nat (spanEnd it)) content)
      with (skipn (Z.to_nat (spanEnd it - spanStart it))
                  (skipn (Z.to_nat (spanStart it - current)) l))
      by (unfold l; rewrite !skipn_skipn; f_equal; lia).
    rewrite firstn_skipn. apply firstn_skipn.
Qed.

Lemma less_agrees content x y :
  wellPlaced content x -> wellPlaced content y -> disjoint x y ->
  agreesOn updatedItem less spanKey x y.
Proof.
  unfold wellPlaced, disjoint, agreesOn, less, spanKey.
  fold (spanStart x) (spanStart y) (spanEnd x) (spanEnd y).
  intros (_ & X & _) (_ & Y & _) D.
  split.
  - destruct (spanStart x <? spanEnd y) eqn:L1;
      destruct (spanStart x + spanEnd x <? spanStart y + spanEnd y) eqn:L2;
      try reflexivity;
      try apply Z.ltb_lt in L1; try apply Z.ltb_ge in L1;
      try apply Z.ltb_lt in L2; try apply Z.ltb_ge in L2; lia.
  - destruct (spanStart y <? spanEnd x) eqn:L1;
      destruct (spanStart y + spanEnd y <? spanStart x + spanEnd x) eqn:L2;
      try reflexivity;
      try apply Z.ltb_lt in L1; try apply Z.ltb_ge in L1;
      try apply Z.ltb_lt in L2; try apply Z.ltb_ge in L2; lia.
Qed.

Lemma disjoint_sym x y : disjoint x y -> disjoint y x.
Proof. unfold disjoint; tauto. Qed.

Section Sorted.

Variable sort_Slice :
  (updatedItem -> updatedItem -> bool) -> list updatedItem -> list updatedItem.
Hypothesis sort_Slice_spec : Slice_spec updatedItem sort_Slice.

(** Sorting items with disjoint spans puts them in the order of the
    text. *)
Lemma sort_Slice_in_order content items :
  Forall (wellPlaced content) items ->
  ForallOrdPairs disjoint items ->
  let sorted := sort_Slice less items in
  Permutation items sorted /\
  Forall (wellPlaced content) sorted /\
  StronglySorted (fun x y => spanEnd x <= spanStart y) sorted.
Proof.
  intros W D. cbv zeta.
  destruct (sort_Slice_spec less items) as (P & S).
  assert (W' : Forall (wellPlaced content) (sort_Slice less items))
    by (eapply Permutation_Forall; eauto).
  split; [exact P|]. split; [exact W'|].
  eapply (StronglySorted_refine _ _ disjoint _ (wellPlaced content));
    [|exact W'|apply (S spanKey)|].
  - unfold wellPlaced, disjoint, spanKey. cbv beta. intros; lia.
  - clear S P W'. induction items as [|x items IH]; [constructor|].
    inversion W; subst.
    apply ForallOrdPairs_cons_iff in D as (D1 & D2).
    constructor; [|auto].
    rewrite Forall_forall in *. intros y Hy.
    eapply less_agrees; eauto.
  - eapply ForallOrdPairs_perm; [apply disjoint_sym|exact P|exact D].
Qed.

End Sorted.
End serializerFacts.

(** * Facts about the package *)

Module packageFacts.

Import unicode regexp bearnotes Spec regexpFacts.

Lemma fold_append A B (f : A -> B) l : forall acc,
  fold_left (fun acc m => acc ++ [f m]) l acc = acc ++ map f l.
Proof.
  induction l as [|m l IH]; intros acc; cbn.
  - rewrite app_nil_r; reflexivity.
  - rewrite IH, <- app_assoc. reflexivity.
Qed.

Lemma fold_append_if A B (f : A -> B) (keep : B -> bool) l : forall acc,
  fold_left (fun acc m => if keep (f m) then acc ++ [f m] else acc) l acc
  = acc ++ filter keep (map f l).
Proof.
  induction l as [|m l IH]; intros acc; cbn.
  - rewrite app_nil_r; reflexivity.
  - rewrite IH. destruct (keep (f m)); [rewrite <- app_assoc|]; reflexivity.
Qed.

Lemma StronglySorted_filter A (R : A -> A -> Prop) (p : A -> bool) l :
  StronglySorted R l -> StronglySorted R (filter p l).
Proof.
  induction 1 as [|x l S IH F]; cbn; [constructor|].
  destruct (p x); [|exact IH]. constructor; [exact IH|].
  rewrite Forall_forall in *. intros y Hy. apply filter_In in Hy as (Hy & _). auto.
Qed.

Section Parsing.

Variable U : RangeTables.

Local Abbreviation tagOf := (tagOf U).
Local Abbreviation fileOf := (fileOf U).
Local Abbreviation imageOf := (imageOf U).

Lemma LoadNote_Tags content :
  Tags (LoadNote U content)
  = filter named (map (tagOf content) (FindAllStringIndex U reTag content)).
Proof.
  unfold LoadNote. cbn [Tags].
  exact (fold_append_if _ _ (tagOf content) named _ []).
Qed.

Lemma LoadNote_Files content :
  Files (LoadNote U content)
  = map (fileOf content) (FindAllStringIndex U reFile content).
Proof.
  unfold LoadNote. cbn [Files]. exact (fold_append _ _ (fileOf content) _ []).
Qed.

Lemma LoadNote_Images content :
  Images (LoadNote U content)
  = map (imageOf content) (FindAllStringIndex U reImage content).
Proof.
  unfold LoadNote. cbn [Images]. exact (fold_append _ _ (imageOf content) _ []).
Qed.

Lemma LoadNote_content content : bearnotes.content (LoadNote U content) = content.
Proof. reflexivity. Qed.

(** The second search, on the text of a match, finds a match. *)
Lemma FindStringSubmatch_match re s m :
  IsMatch U re s m ->
  FindStringSubmatch U re (sub s (fst m) (snd m)) <> None.
Proof.
  intros M. apply rematch in M as (c & j & D & _).
  unfold FindStringSubmatch. rewrite D. discriminate.
Qed.

Lemma tagOf_position content m :
  named (tagOf content m) = true -> Tag.position (tagOf content m) = matchSlice m.
Proof.
  unfold tagOf, NewTag, named.
  destruct (FindStringSubmatch U reTag _) as [parts|]; [|discriminate].
  cbv zeta. destruct (_ && _); [reflexivity|discriminate].
Qed.

Lemma fileOf_position content m :
  IsMatch U reFile content m -> File.position (fileOf content m) = matchSlice m.
Proof.
  intros M. apply FindStringSubmatch_match in M.
  unfold fileOf, NewFile.
  destruct (FindStringSubmatch U reFile _); [reflexivity|congruence].
Qed.

Lemma imageOf_position content m :
  IsMatch U reImage content m -> Image.position (imageOf content m) = matchSlice m.
Proof.
  intros M. apply FindStringSubmatch_match in M.
  unfold imageOf, NewImage.
  destruct (FindStringSubmatch U reImage _); [reflexivity|congruence].
Qed.

(** The positions of the tags are the matches of [reTag] that give a
    valid tag. *)
Lemma Tags_positions content :
  map Tag.position (Tags (LoadNote U content))
  = map matchSlice
        (filter (fun m => named (tagOf content m))
                (FindAllStringIndex U reTag content)).
Proof.
  rewrite LoadNote_Tags.
  induction (FindAllStringIndex U reTag content) as [|m ms IH]; [reflexivity|].
  cbn [map filter]. destruct (named (tagOf content m)) eqn:E; [|exact IH].
  cbn [map]. rewrite IH, tagOf_position by exact E. reflexivity.
Qed.

Lemma Files_positions content :
  map File.position (Files (LoadNote U content))
  = map matchSlice (FindAllStringIndex U reFile content).
Proof.
  rewrite LoadNote_Files, map_map.
  destruct (FindAllStringIndex_spec U reFile content) as (F & _).
  apply map_ext_in. intros m Hm. apply fileOf_position.
  rewrite Forall_forall in F. auto.
Qed.

Lemma Images_positions content :
  map Image.position (Images (LoadNote U content))
  = map matchSlice (FindAllStringIndex U reImage content).
Proof.
  rewrite LoadNote_Images, map_map.
  destruct (FindAllStringIndex_spec U reImage content) as (F & _).
  apply map_ext_in. intros m Hm. apply imageOf_position.
  rewrite Forall_forall in F. auto.
Qed.

Lemma matchSlice_spansInOrder content re ms :
  Forall (IsMatch U re content) ms ->
  StronglySorted (fun a b => (snd a <= fst b)%nat) ms ->
  spansInOrder content (map matchSlice ms).
Proof.
  intros F S. exists ms. split; [reflexivity|]. split; [exact S|].
  eapply Forall_impl; [|exact F]. intros m (B & _). exact B.
Qed.

Lemma Tags_spansInOrder content :
  spansInOrder content (map Tag.position (Tags (LoadNote U content))).
Proof.
  rewrite Tags_positions.
  destruct (FindAllStringIndex_spec U reTag content) as (F & S).
  apply (matchSlice_spansInOrder content reTag).
  - apply Forall_forall. intros m Hm. apply filter_In in Hm as (Hm & _).
    rewrite Forall_forall in F. auto.
  - apply StronglySorted_filter, S.
Qed.

Lemma Files_spansInOrder content :
  spansInOrder content (map File.position (Files (LoadNote U content))).
Proof.
  rewrite Files_positions.
  destruct (FindAllStringIndex_spec U reFile content) as (F & S).
  eapply matchSlice_spansInOrder; eauto.
Qed.

Lemma Images_spansInOrder content :
  spansInOrder content (map Image.position (Images (LoadNote U content))).
Proof.
  rewrite Images_positions.
  destruct (FindAllStringIndex_spec U reImage content) as (F & S).
  eapply matchSlice_spansInOrder; eauto.
Qed.

End Parsing.

(** *** The items of a note *)

Lemma collectItems_eq note :
  collectItems note
  = map tagItem (Tags note) ++ map fileItem (Files note) ++ map imageItem (Images note).
Proof.
  unfold collectItems.
  rewrite (fold_append _ _ tagItem), (fold_append _ _ fileItem),
    (fold_append _ _ imageItem).
  rewrite app_nil_l, app_assoc. reflexivity.
Qed.

Lemma spansInOrder_wellPlaced content (items : list updatedItem) :
  spansInOrder content (map item_position items) ->
  Forall (wellPlaced content) items.
Proof.
  intros (ms & E & _ & B). revert ms E B.
  induction items as [|it items IH]; intros ms E B; [constructor|].
  destruct ms as [|m ms]; [discriminate E|]. cbn [map] in E.
  injection E as E1 E2. inversion B as [|? ? Bm B']; subst.
  constructor; [|eapply IH; eauto].
  unfold wellPlaced, spanStart, spanEnd, len. rewrite E1. cbn. lia.
Qed.

Lemma LoadNote_wellPlaced U content :
  Forall (wellPlaced content) (collectItems (LoadNote U content)).
Proof.
  rewrite collectItems_eq. rewrite !Forall_app. repeat split;
    apply spansInOrder_wellPlaced; rewrite map_map; cbn [item_position tagItem fileItem imageItem].
  - apply Tags_spansInOrder.
  - apply Files_spansInOrder.
  - apply Images_spansInOrder.
Qed.

End packageFacts.

(** * The pattern of tags *)

Module tagFacts.

Import unicode regexp bearnotes Spec utf8Facts regexpFacts packageFacts.

Lemma orElse_Some_l (a b : option caps) : a <> None -> orElse a b = a.
Proof. destruct a; [reflexivity|congruence]. Qed.

Lemma step_progress i r j : step i = Some (r, j) -> (ipos i <? ipos j)%nat = true.
Proof.
  intros S. apply step_advances in S as (w & W & A & _). apply Nat.ltb_lt. lia.
Qed.

(** A greedy repetition of one-rune steps before a continuation that
    cannot fail takes the longest run. *)
Lemma star_total p (k : cont) :
  (forall i c, k i c <> None) ->
  forall fuel i c, star (rune1 p) fuel k i c = k (skipRunes p fuel i) c.
Proof.
  intros K. induction fuel as [|fuel IH]; intros i c; cbn [star skipRunes].
  - reflexivity.
  - unfold rune1 at 1. destruct (step i) as [[r j]|] eqn:S; [|reflexivity].
    destruct (p r); [|reflexivity].
    rewrite (step_progress _ _ _ S), IH. apply orElse_Some_l, K.
Qed.

(** *** Slices *)

Lemma firstn_plus (A : Type) (l : list A) : forall n m,
  firstn (n + m) l = firstn n l ++ firstn m (skipn n l).
Proof.
  induction l as [|x l IH]; intros n m.
  - rewrite !firstn_nil, skipn_nil, firstn_nil. reflexivity.
  - destruct n; cbn; [reflexivity|]. rewrite IH. reflexivity.
Qed.

Lemma sub_app s a b c :
  (a <= b <= c)%nat -> sub s a b ++ sub s b c = sub s a c.
Proof.
  intros H. unfold sub.
  replace (c - a)%nat with ((b - a) + (c - b))%nat by lia.
  rewrite firstn_plus, skipn_skipn. do 3 f_equal. lia.
Qed.

Lemma sub_full s : sub s 0 (List.length s) = s.
Proof. unfold sub. rewrite Nat.sub_0_r. apply firstn_all. Qed.

Lemma sub_one s p b t : skipn p s = b :: t -> sub s p (p + 1) = [b].
Proof.
  intros E. unfold sub. rewrite E.
  replace (p + 1 - p)%nat with 1%nat by lia. reflexivity.
Qed.

Lemma length_sub s a b :
  (a <= b <= List.length s)%nat -> List.length (sub s a b) = (b - a)%nat.
Proof. intros H. unfold sub. rewrite length_firstn, length_skipn. lia. Qed.

Lemma b2z_hash b : b2z b = 0x23 -> b = x23.
Proof. destruct b; intros H; vm_compute in H; try discriminate H; reflexivity. Qed.

Section Tags.

Variable U : RangeTables.

Lemma run_reTagRest start j :
  run U reTagRest (fun i' c' => Some ((0%nat, (ipos start, ipos i')) :: c'))
      j [(1%nat, (ipos start, ipos j))]
  = tagFrom U start j.
Proof.
  unfold tagFrom. cbn [reTagRest reTag run]. change (runes "#") with [0x23].
  unfold setcap.
  cbn [literal]. unfold rune1 at 1.
  destruct (step j) as [[r1 j1]|]; [|reflexivity].
  destruct (0x23 =? r1); [|reflexivity].
  unfold rune1 at 1.
  destruct (step j1) as [[r2 j2]|]; [|reflexivity].
  unfold nameFirst. destruct (classMatches U false [CPropL] r2); [|reflexivity].
  match goal with
  | |- star _ ?f ?k ?a ?b = _ =>
      transitivity (k (skipRunes (nameNext U) f a) b);
      [apply (star_total (nameNext U) k)|]
  end.
  - intros i c. unfold rune1. destruct (step i) as [[r i']|]; cbn [orElse].
    + destruct (negb (r =? 10)); cbn [orElse]; discriminate.
    + discriminate.
  - cbv beta zeta. unfold optAny, rune1.
    destruct (step (skipRunes (nameNext U) (List.length (irest j2)) j2))
      as [[r j4]|]; [|reflexivity].
    destruct (negb (r =? 10)); reflexivity.
Qed.

Lemma matchAt_reTag i : matchAt U reTag i = tagMatchAt U i.
Proof.
  unfold matchAt, tagMatchAt.
  change reTag with
    (OpConcat (OpCapture 1 (OpAlternate OpBeginText (OpQuest OpAnyCharNotNL)))
              reTagRest).
  cbn [run]. unfold rune1 at 1. unfold setcap, nocaps.
  rewrite !run_reTagRest.
  destruct (step i) as [[r j]|]; [|reflexivity].
  destruct (negb (r =? 10)); [|reflexivity].
  rewrite run_reTagRest. reflexivity.
Qed.

(** *** The same match in the text of the match *)

Lemma skipRunes_advances p : forall fuel i,
  exists n, advances i (skipRunes p fuel i) n.
Proof.
  induction fuel as [|fuel IH]; intros i; cbn [skipRunes].
  - exists 0%nat. apply advances_refl.
  - destruct (step i) as [[r j]|] eqn:S; [|exists 0%nat; apply advances_refl].
    destruct (p r); [|exists 0%nat; apply advances_refl].
    apply step_advances in S as (w & _ & A). destruct (IH j) as (n & A').
    exists (w + n)%nat. eapply advances_trans; eauto.
Qed.

Lemma optAny_advances i : exists n, advances i (optAny i) n.
Proof.
  unfold optAny. destruct (step i) as [[r j]|] eqn:S; [|exists 0%nat; apply advances_refl].
  destruct (negb (r =? 10)); [|exists 0%nat; apply advances_refl].
  apply step_advances in S as (w & _ & A). eauto.
Qed.

Lemma step_localize_end a b i :
  (b <= ipos i)%nat -> step (localize a b i) = None.
Proof.
  intros L. apply step_None. unfold localize. cbn [irest].
  replace (b - ipos i)%nat with 0%nat by lia. reflexivity.
Qed.

Lemma localize_length a b i :
  (List.length (irest (localize a b i)) <= List.length (irest i))%nat.
Proof. unfold localize. cbn [irest]. rewrite length_firstn. lia. Qed.

Lemma skipRunes_localize p a b : forall fuel fuel' i,
  (List.length (irest i) <= fuel)%nat ->
  (List.length (irest (localize a b i)) <= fuel')%nat ->
  (a <= ipos i)%nat ->
  let j := skipRunes p fuel i in
  (ipos j <= b)%nat ->
  ((ipos j = b)%nat \/ exists r j', step j = Some (r, j') /\ (ipos j' <= b)%nat) ->
  skipRunes p fuel' (localize a b i) = localize a b j.
Proof.
  induction fuel as [|fuel IH]; intros fuel' i F F' A; cbn [skipRunes]; cbv zeta.
  - intros _ _. destruct (irest i) eqn:R; [|cbn in F; lia].
    destruct fuel'; cbn [skipRunes]; [reflexivity|].
    replace (step (localize a b i)) with (@None (Z * input)); [reflexivity|].
    symmetry. apply step_None. unfold localize. cbn [irest]. rewrite R.
    apply firstn_nil.
  - destruct (step i) as [[r i1]|] eqn:S.
    + destruct (p r) eqn:P.
      * intros B Stop.
        pose proof (step_advances _ _ _ S) as (w & W & A1 & A2 & A3).
        destruct (skipRunes_advances p fuel i1) as (n & M & _).
        assert (S' : step (localize a b i) = Some (r, localize a b i1))
          by (apply step_localize; [exact S|lia|lia]).
        pose proof (step_advances _ _ _ S') as (w' & W' & _ & A2' & A3').
        destruct fuel' as [|fuel']; [lia|]. cbn [skipRunes]. rewrite S', P.
        apply IH; auto.
        -- rewrite A2, length_skipn. lia.
        -- rewrite A2', length_skipn. lia.
        -- lia.
      * intros B Stop.
        destruct fuel' as [|fuel']; cbn [skipRunes]; [reflexivity|].
        destruct Stop as [E|(r' & j' & S' & L)].
        -- rewrite step_localize_end by lia. reflexivity.
        -- rewrite S in S'. injection S' as <- <-.
           rewrite (step_localize a b i r i1) by (auto; lia). rewrite P. reflexivity.
    + intros B Stop. apply step_None in S.
      destruct fuel' as [|fuel']; cbn [skipRunes]; [reflexivity|].
      replace (step (localize a b i)) with (@None (Z * input)); [reflexivity|].
      symmetry. apply step_None. unfold localize. cbn [irest]. rewrite S.
      apply firstn_nil.
Qed.

Lemma optAny_localize a b i :
  (a <= ipos i)%nat -> ipos (optAny i) = b ->
  optAny (localize a b i) = localize a b (optAny i).
Proof.
  unfold optAny. intros A. destruct (step i) as [[r j]|] eqn:S.
  - destruct (negb (r =? 10)) eqn:N; intros B.
    + rewrite (step_localize a b i r j) by (auto; lia). rewrite N. reflexivity.
    + rewrite step_localize_end by lia. reflexivity.
  - intros B. rewrite step_localize_end by lia. reflexivity.
Qed.

Lemma tagFrom_localize start j c b :
  tagFrom U start j = Some c -> (ipos start <= ipos j)%nat ->
  getcap c 0 = Some (ipos start, b) ->
  tagFrom U (localize (ipos start) b start) (localize (ipos start) b j)
  = Some (shiftCaps (ipos start) c).
Proof.
  set (a := ipos start). unfold tagFrom. intros H A G.
  destruct (step j) as [[r1 j1]|] eqn:S1; [|discriminate H].
  destruct (0x23 =? r1) eqn:E1; [|discriminate H].
  destruct (step j1) as [[r2 j2]|] eqn:S2; [|discriminate H].
  destruct (nameFirst U r2) eqn:E2; [|discriminate H].
  cbv zeta in H. injection H as <-. cbn [getcap Nat.eqb] in G.
  injection G as <-.
  set (j3 := skipRunes (nameNext U) (List.length (irest j2)) j2) in *.
  set (j4 := optAny j3) in *.
  pose proof (step_advances _ _ _ S1) as (w1 & _ & M1 & _).
  pose proof (step_advances _ _ _ S2) as (w2 & _ & M2 & _).
  destruct (skipRunes_advances (nameNext U) (List.length (irest j2)) j2)
    as (n3 & M3 & _). fold j3 in M3.
  destruct (optAny_advances j3) as (n4 & M4 & _). fold j4 in M4.
  rewrite (step_localize a (ipos j4) j r1 j1) by (auto; lia). rewrite E1.
  rewrite (step_localize a (ipos j4) j1 r2 j2) by (auto; lia). rewrite E2.
  cbv zeta.
  rewrite (skipRunes_localize (nameNext U) a (ipos j4)
             (List.length (irest j2)) _ j2); auto; fold j3; try lia.
  - rewrite optAny_localize by (auto; lia). fold j4.
    unfold shiftCaps, localize. cbn [map fst snd ipos]. reflexivity.
  - unfold j4, optAny. destruct (step j3) as [[r j']|] eqn:S3; [|left; reflexivity].
    destruct (negb (r =? 10)); [|left; reflexivity].
    right. exists r, j'. split; [reflexivity|lia].
Qed.

Lemma tagFrom_start start j c :
  tagFrom U start j = Some c -> exists e, getcap c 0 = Some (ipos start, e).
Proof.
  unfold tagFrom. intros H.
  destruct (step j) as [[r1 j1]|]; [|discriminate H].
  destruct (0x23 =? r1); [|discriminate H].
  destruct (step j1) as [[r2 j2]|]; [|discriminate H].
  destruct (nameFirst U r2); [|discriminate H].
  cbv zeta in H. injection H as <-. cbn. eauto.
Qed.

Lemma nameFirst_hash : nameFirst U 0x23 = false.
Proof. reflexivity. Qed.

(** The match found in a note is found again, from the first byte,
    in the text of the match, with the same groups. *)
Lemma tagMatchAt_localize i c b :
  tagMatchAt U i = Some c -> getcap c 0 = Some (ipos i, b) ->
  tagMatchAt U (localize (ipos i) b i) = Some (shiftCaps (ipos i) c).
Proof.
  unfold tagMatchAt. intros H G.
  assert (P0 : (ipos (localize (ipos i) b i) =? 0)%nat = true).
  { unfold localize. cbn [ipos]. apply Nat.eqb_eq. lia. }
  rewrite P0.
  assert (Self : tagFrom U i i = Some c ->
                 tagFrom U (localize (ipos i) b i) (localize (ipos i) b i)
                 = Some (shiftCaps (ipos i) c)).
  { intros T. apply tagFrom_localize; auto. }
  apply orElse_Some in H as [H|(H1 & H)].
  - destruct (ipos i =? 0)%nat; [|discriminate H].
    rewrite (Self H). reflexivity.
  - apply orElse_Some in H as [H|(H2 & H)].
    + destruct (step i) as [[r j]|] eqn:S; [|discriminate H].
      destruct (negb (r =? 10)) eqn:N; [|discriminate H].
      pose proof (step_advances _ _ _ S) as (w & _ & M & _).
      pose proof H as T.
      unfold tagFrom in T.
      destruct (step j) as [[r1 j1]|] eqn:S1; [|discriminate T].
      destruct (0x23 =? r1) eqn:E1; [|discriminate T].
      apply Z.eqb_eq in E1. subst r1.
      destruct (step j1) as [[r2 j2]|] eqn:S2; [|discriminate T].
      destruct (nameFirst U r2) eqn:E2; [|discriminate T].
      cbv zeta in T. injection T as T. rewrite <- T in G.
      cbn [getcap Nat.eqb] in G. injection G as G.
      pose proof (step_advances _ _ _ S1) as (w1 & _ & M1 & _).
      pose proof (step_advances _ _ _ S2) as (w2 & _ & M2 & _).
      destruct (skipRunes_advances (nameNext U) (List.length (irest j2)) j2)
        as (n3 & M3 & _).
      destruct (optAny_advances
                  (skipRunes (nameNext U) (List.length (irest j2)) j2))
        as (n4 & M4 & _).
      assert (S' : step (localize (ipos i) b i) = Some (r, localize (ipos i) b j))
        by (apply step_localize; auto; lia).
      assert (S1' : step (localize (ipos i) b j) = Some (0x23, localize (ipos i) b j1))
        by (apply step_localize; auto; lia).
      assert (N0 : tagFrom U (localize (ipos i) b i) (localize (ipos i) b i) = None).
      { unfold tagFrom. rewrite S'.
        destruct (0x23 =? r) eqn:E; [|reflexivity].
        apply Z.eqb_eq in E. subst r. rewrite S1', nameFirst_hash. reflexivity. }
      rewrite N0. cbn [orElse]. rewrite S', N.
      rewrite (tagFrom_localize i j c b H); [reflexivity|lia|].
      rewrite <- T. cbn [getcap Nat.eqb]. rewrite G. reflexivity.
    + rewrite (Self H). reflexivity.
Qed.

(** *** The text of a tag *)

(** A match of [reTag] that covers the text [s] cuts it into the
    boundary before, the hashtag, the name and the boundary after. *)
Lemma tagFrom_text s p1 c :
  (p1 <= List.length s)%nat ->
  tagFrom U (inputAt s 0) (inputAt s p1) = Some c ->
  getcap c 0 = Some (0%nat, List.length s) ->
  exists p3,
    (p1 + 1 < p3 <= List.length s)%nat /\
    c = [(0%nat, (0%nat, List.length s)); (3%nat, (p3, List.length s));
         (2%nat, ((p1 + 1)%nat, p3)); (1%nat, (0%nat, p1))] /\
    sub s p1 (p1 + 1) = str "#" /\
    nameFirst U (fst (utf8.DecodeRuneInString (sub s (p1 + 1) p3))) = true.
Proof.
  intros L H G. unfold tagFrom in H.
  destruct (step (inputAt s p1)) as [[r1 j1]|] eqn:S1; [|discriminate H].
  destruct (0x23 =? r1) eqn:E1; [|discriminate H].
  apply Z.eqb_eq in E1. subst r1.
  destruct (step j1) as [[r2 j2]|] eqn:S2; [|discriminate H].
  destruct (nameFirst U r2) eqn:E2; [|discriminate H].
  cbv zeta in H. injection H as <-. cbn [getcap Nat.eqb] in G.
  injection G as G.
  set (j3 := skipRunes (nameNext U) (List.length (irest j2)) j2) in *.
  apply step_Some in S1 as (w1 & W1 & D1 & ->).
  cbn [inputAt irest ipos] in *.
  apply DecodeRune_ascii_inv in D1 as (b & t & Eb & Hb & ->);
    [|vm_compute; reflexivity].
  apply b2z_hash in Hb. subst b.
  pose proof (step_advances _ _ _ S2) as (w2 & W2 & M2 & _).
  destruct (skipRunes_advances (nameNext U) (List.length (irest j2)) j2)
    as (n3 & M3 & _). fold j3 in M3.
  destruct (optAny_advances j3) as (n4 & M4 & _).
  cbn [ipos] in *.
  exists (ipos j3). split; [lia|]. split; [|split].
  - rewrite G. reflexivity.
  - apply (sub_one s p1 x23 t Eb).
  - apply step_Some in S2 as (w2' & _ & D2 & E2'). cbn [irest] in D2.
    rewrite Eb in D2. cbn [skipn] in D2.
    subst j2. cbn [ipos] in *.
    assert (Et : skipn (p1 + 1) s = t).
    { replace (p1 + 1)%nat with (1 + p1)%nat by lia.
      rewrite <- skipn_skipn, Eb. reflexivity. }
    unfold sub. rewrite Et, DecodeRune_prefix; try rewrite D2; cbn [fst snd];
      [exact E2|lia|lia].
Qed.

Lemma getcap_shiftCaps a c n :
  getcap (shiftCaps a c) n
  = option_map (fun v => (fst v - a, snd v - a)%nat) (getcap c n).
Proof.
  induction c as [|[m v] c IH]; [reflexivity|].
  cbn [shiftCaps map getcap fst snd]. destruct (m =? n)%nat; [reflexivity|exact IH].
Qed.

Lemma tagMatchAt_cases i c :
  tagMatchAt U i = Some c ->
  tagFrom U i i = Some c \/
  exists r j, step i = Some (r, j) /\ tagFrom U i j = Some c.
Proof.
  unfold tagMatchAt. intros H.
  apply orElse_Some in H as [H|(_ & H)].
  - destruct (ipos i =? 0)%nat; [left; exact H|discriminate H].
  - apply orElse_Some in H as [H|(_ & H)]; [|left; exact H].
    destruct (step i) as [[r j]|]; [|discriminate H].
    destruct (negb (r =? 10)); [|discriminate H]. right. eauto.
Qed.

(** The second search of [NewTag], on the text of a match of the
    note: the match is the whole text, cut into the boundary before,
    the hashtag, the name and the boundary after. *)
Lemma FindStringSubmatch_tag content m :
  Found U reTag content m -> (fst m <= snd m <= List.length content)%nat ->
  let s := sub content (fst m) (snd m) in
  exists p1 p3,
    (p1 + 1 < p3 <= List.length s)%nat /\
    sub s p1 (p1 + 1) = str "#" /\
    nameFirst U (fst (utf8.DecodeRuneInString (sub s (p1 + 1) p3))) = true /\
    FindStringSubmatch U reTag s
    = Some [s; sub s 0 p1; sub s (p1 + 1) p3; sub s p3 (List.length s)].
Proof.
  destruct m as [m0 m1]. cbn [fst snd]. intros (_ & c & M & G) B. cbv zeta.
  set (s := sub content m0 m1).
  assert (Ls : List.length s = (m1 - m0)%nat) by (apply length_sub; exact B).
  rewrite matchAt_reTag in M. cbn [fst] in M.
  pose proof (tagMatchAt_localize (inputAt content m0) c m1 M G) as M'.
  assert (E : localize (ipos (inputAt content m0)) m1 (inputAt content m0)
              = inputAt s 0).
  { unfold localize, inputAt. cbn [ipos irest]. rewrite Nat.sub_diag. reflexivity. }
  rewrite E in M'. cbn [inputAt ipos] in M'.
  set (c' := shiftCaps m0 c) in *.
  assert (G' : getcap c' 0 = Some (0%nat, List.length s)).
  { unfold c'. rewrite getcap_shiftCaps, G. cbn [option_map fst snd].
    rewrite Nat.sub_diag, Ls. reflexivity. }
  assert (D : doExecute U reTag s 0 = Some c').
  { unfold doExecute. change (skipn 0 s) with s.
    change (mkInput 0 s) with (inputAt s 0).
    destruct (List.length s); cbn [searchFrom]; rewrite matchAt_reTag, M'; reflexivity. }
  assert (T : exists p1, (p1 <= List.length s)%nat /\
                         tagFrom U (inputAt s 0) (inputAt s p1) = Some c').
  { apply tagMatchAt_cases in M' as [T|(r & j & S & T)].
    - exists 0%nat. split; [lia|exact T].
    - apply step_advances in S as (w & _ & A).
      apply (advances_inputAt s 0) in A as (-> & L); [|lia].
      exists (0 + w)%nat. split; [exact L|exact T]. }
  destruct T as (p1 & L1 & T).
  destruct (tagFrom_text s p1 c' L1 T G') as (p3 & P & C & H & NF).
  exists p1, p3. split; [exact P|]. split; [exact H|]. split; [exact NF|].
  unfold FindStringSubmatch. rewrite D, C.
  change (S (NumSubexp reTag)) with 4%nat. cbn [seq map capText getcap Nat.eqb].
  rewrite sub_full. reflexivity.
Qed.

(** A tag that [LoadNote] keeps renders to the text of its match. *)
Lemma tagOf_String content m :
  Found U reTag content m -> (fst m <= snd m <= List.length content)%nat ->
  named (tagOf U content m) = true ->
  Tag.String (tagOf U content m) = sub content (fst m) (snd m).
Proof.
  intros F B. destruct (FindStringSubmatch_tag content m F B)
    as (p1 & p3 & P & H & _ & E).
  unfold tagOf, NewTag. rewrite E. cbn [nth]. cbv zeta.
  set (s := sub content (fst m) (snd m)) in *.
  destruct (_ && _); [|intros N; discriminate N].
  intros _. unfold Tag.String. cbn [Tag.Name Tag.before Tag.after].
  replace (len (sub s (p1 + 1) p3) =? 0) with false.
  - rewrite <- H. rewrite (sub_app s (p1 + 1) p3 (List.length s)) by lia.
    rewrite (sub_app s p1 (p1 + 1) (List.length s)) by lia.
    rewrite (sub_app s 0 p1 (List.length s)) by lia.
    apply sub_full.
  - symmetry. apply Z.eqb_neq. unfold len. rewrite length_sub by lia. lia.
Qed.


(** *** Reading a name *)

Lemma step_Encodes enc r q t :
  Encodes enc r ->
  step (mkInput q (enc ++ t)) = Some (r, mkInput (q + List.length enc) t).
Proof.
  intros (N & D). unfold step. cbn [irest ipos]. rewrite D.
  destruct enc as [|b enc]; [congruence|]. cbn [List.length].
  change (S (List.length enc)) with (List.length (b :: enc)).
  rewrite skipn_app, skipn_all, Nat.sub_diag. reflexivity.
Qed.

Lemma skipRunes_Runes p s :
  Runes p s ->
  forall q rest fuel,
    StopsAt p rest -> (List.length s <= fuel)%nat ->
    skipRunes p fuel (mkInput q (s ++ rest)) = mkInput (q + List.length s) rest.
Proof.
  induction 1 as [|enc r s E P R IH]; intros q rest fuel St F.
  - cbn [app List.length]. rewrite Nat.add_0_r.
    destruct fuel as [|fuel]; [reflexivity|]. cbn [skipRunes].
    destruct (step (mkInput q rest)) as [[r j]|] eqn:S; [|reflexivity].
    destruct St as [->|St]; [cbn in S; discriminate S|].
    apply step_Some in S as (w & _ & D & _). cbn [irest] in D.
    rewrite D in St. cbn [fst] in St. rewrite St. reflexivity.
  - pose proof E as (N & _). rewrite length_app in F.
    destruct fuel as [|fuel];
      [destruct enc; [congruence|cbn in F; lia]|].
    cbn [skipRunes]. rewrite <- app_assoc, (step_Encodes enc r q _ E), P.
    rewrite IH; auto.
    + rewrite length_app. f_equal. lia.
    + destruct enc; [congruence|cbn in F; lia].
Qed.

Lemma optAny_boundaryAfter q rest :
  optAny (mkInput q rest)
  = mkInput (q + List.length (boundaryAfter rest))
            (skipn (List.length (boundaryAfter rest)) rest).
Proof.
  unfold optAny, step, boundaryAfter. cbn [irest ipos].
  pose proof (DecodeRune_width rest) as (W & _). cbv zeta in W.
  destruct (utf8.DecodeRuneInString rest) as [r w]. cbn [snd] in W.
  destruct w as [|w].
  - destruct (negb (r =? 10)); cbn [firstn List.length skipn];
      rewrite Nat.add_0_r; reflexivity.
  - destruct (negb (r =? 10)).
    + rewrite length_firstn, Nat.min_l by exact W. reflexivity.
    + cbn [List.length skipn]. rewrite Nat.add_0_r. reflexivity.
Qed.

Lemma step_hash q t :
  step (mkInput q (str "#" ++ t)) = Some (0x23, mkInput (q + 1) t).
Proof. reflexivity. Qed.

(** The match of [reTag] on a hashtag and a name: the name is read
    whole, with the rune that follows it unless it is a newline. *)
Lemma tagFrom_name start q name rest :
  TagName U name -> StopsAt (nameNext U) rest ->
  tagFrom U start (mkInput q (str "#" ++ name ++ rest))
  = Some [(0%nat, (ipos start,
                   q + 1 + List.length name + List.length (boundaryAfter rest))%nat);
          (3%nat, ((q + 1 + List.length name)%nat,
                   (q + 1 + List.length name + List.length (boundaryAfter rest))%nat));
          (2%nat, ((q + 1)%nat, (q + 1 + List.length name)%nat));
          (1%nat, (ipos start, q))].
Proof.
  intros (enc & r & s & -> & E & L & R) St. unfold tagFrom.
  rewrite step_hash. cbn [Z.eqb Pos.eqb].
  rewrite <- app_assoc, (step_Encodes enc r (q + 1) _ E), L. cbv zeta.
  cbn [irest ipos].
  rewrite (skipRunes_Runes (nameNext U) s R) by (auto; rewrite length_app; lia).
  rewrite optAny_boundaryAfter. cbn [ipos]. rewrite length_app.
  rewrite !Nat.add_assoc. reflexivity.
Qed.

(** *** Searching a text that starts with a tag *)

Lemma sub_middle (a b c : gostring) :
  sub (a ++ b ++ c) (List.length a) (List.length a + List.length b) = b.
Proof.
  unfold sub. rewrite skipn_app, skipn_all, Nat.sub_diag. cbn [skipn app].
  replace (List.length a + List.length b - List.length a)%nat
    with (List.length b) by lia.
  rewrite firstn_app, firstn_all, Nat.sub_diag. cbn [firstn]. apply app_nil_r.
Qed.

Lemma searchFrom_here re fuel i c :
  matchAt U re i = Some c -> searchFrom U fuel re i = Some c.
Proof. intros M. destruct fuel; cbn [searchFrom]; rewrite M; reflexivity. Qed.

Lemma searchFrom_skip re fuel i r j :
  matchAt U re i = None -> step i = Some (r, j) ->
  searchFrom U (S fuel) re i = searchFrom U fuel re j.
Proof. intros M S. cbn [searchFrom]. rewrite M, S. reflexivity. Qed.

Lemma searchFrom_end re fuel i :
  matchAt U re i = None -> step i = None -> searchFrom U fuel re i = None.
Proof. intros M S. destruct fuel; cbn [searchFrom]; rewrite M, ?S; reflexivity. Qed.

Lemma matchAt_reTag_end q : matchAt U reTag (mkInput q []) = None.
Proof.
  rewrite matchAt_reTag. unfold tagMatchAt, tagFrom. cbn [ipos].
  destruct (q =? 0)%nat; reflexivity.
Qed.

Lemma allMatches_found_one re s fuel pos n prev c m0 m1 :
  doExecute U re s pos = Some c -> getcap c 0 = Some (m0, m1) ->
  (pos <= List.length s)%nat -> (0 < n)%nat -> (pos < m1)%nat ->
  allMatches U (S fuel) re s pos n prev
  = (m0, m1) :: allMatches U fuel re s m1 (n - 1) (Z.of_nat m1).
Proof.
  intros D G L N M. cbn [allMatches].
  replace (n =? 0)%nat with false by (symmetry; apply Nat.eqb_neq; lia).
  replace (List.length s <? pos)%nat with false by (symmetry; apply Nat.ltb_ge; lia).
  cbn [orb]. rewrite D, G.
  replace (m1 =? pos)%nat with false by (symmetry; apply Nat.eqb_neq; lia).
  reflexivity.
Qed.

Lemma allMatches_found_none re s fuel pos n prev :
  doExecute U re s pos = None -> allMatches U fuel re s pos n prev = [].
Proof.
  intros D. destruct fuel; cbn [allMatches]; [reflexivity|].
  destruct (_ || _); [reflexivity|]. rewrite D. reflexivity.
Qed.

(** The match of [reTag] at an input that starts with a hashtag and
    a name, when nothing is taken before the hashtag. *)
Lemma tagMatchAt_name q name rest :
  TagName U name -> StopsAt (nameNext U) rest ->
  tagMatchAt U (mkInput q (str "#" ++ name ++ rest))
  = tagFrom U (mkInput q (str "#" ++ name ++ rest))
            (mkInput q (str "#" ++ name ++ rest)).
Proof.
  intros T St. unfold tagMatchAt. cbn [ipos].
  rewrite (tagFrom_name _ q name rest T St).
  destruct (q =? 0)%nat; [reflexivity|]. cbn [orElse].
  rewrite step_hash. cbn [negb Z.eqb orElse].
  destruct T as (enc & r & s & -> & E & L & R).
  unfold tagFrom at 1. rewrite <- app_assoc, (step_Encodes enc r (q + 1) _ E).
  destruct (0x23 =? r) eqn:H; [|reflexivity].
  apply Z.eqb_eq in H. subst r. rewrite nameFirst_hash in L. discriminate L.
Qed.

(** [NewTag] on a hashtag, a name and a boundary after. *)
Lemma NewTag_name name after position :
  TagName U name -> StopsAt (nameNext U) after -> boundaryAfter after = after ->
  NewTag U (str "#" ++ name ++ after) position
  = if boundaryOk after then Tag.mk name position [] after else Tag.zero.
Proof.
  intros T St B. unfold NewTag, FindStringSubmatch, doExecute.
  change (skipn 0 (str "#" ++ name ++ after)) with (str "#" ++ name ++ after).
  rewrite (searchFrom_here reTag _ _ _
             (eq_trans (matchAt_reTag _)
                       (eq_trans (tagMatchAt_name 0 name after T St)
                                 (tagFrom_name _ 0 name after T St)))).
  change (S (NumSubexp reTag)) with 4%nat. rewrite B.
  cbn [seq map capText getcap Nat.eqb nth ipos Nat.add].
  change (sub (str "#" ++ name ++ after) 0 0) with (@nil byte).
  replace (sub (str "#" ++ name ++ after) 1 (S (List.length name))) with name
    by (symmetry; apply (sub_middle (str "#") name after)).
  replace (sub (str "#" ++ name ++ after) (S (List.length name))
               (S (List.length name + List.length after))) with after.
  - cbv zeta. unfold boundaryOk. cbn [len List.length Z.of_nat Z.eqb orb andb].
    reflexivity.
  - symmetry. rewrite app_assoc.
    replace (S (List.length name)) with (List.length (str "#" ++ name))
      by (rewrite length_app; reflexivity).
    replace (S (List.length name + List.length after))
      with (List.length (str "#" ++ name) + List.length after)%nat
      by (rewrite length_app; reflexivity).
    rewrite <- (app_nil_r after) at 1. apply sub_middle.
Qed.

Lemma TagName_length name : TagName U name -> (0 < List.length name)%nat.
Proof.
  intros (enc & r & s & -> & (N & _) & _). rewrite length_app.
  destruct enc; [congruence|cbn; lia].
Qed.

Lemma StopsAt_nil p : StopsAt p [].
Proof. left. reflexivity. Qed.

Lemma doExecute_reTag_end s :
  doExecute U reTag s (List.length s) = None.
Proof.
  unfold doExecute. rewrite skipn_all.
  apply searchFrom_end; [apply matchAt_reTag_end|reflexivity].
Qed.

Lemma doExecute_reTag_name pre name rest :
  TagName U name -> StopsAt (nameNext U) rest ->
  doExecute U reTag (pre ++ str "#" ++ name ++ rest) (List.length pre)
  = tagFrom U (mkInput (List.length pre) (str "#" ++ name ++ rest))
            (mkInput (List.length pre) (str "#" ++ name ++ rest)).
Proof.
  intros T St. unfold doExecute.
  rewrite skipn_app, skipn_all, Nat.sub_diag. cbn [skipn app].
  rewrite <- (tagMatchAt_name _ name rest T St), <- matchAt_reTag.
  destruct (matchAt U reTag _) eqn:M.
  - apply searchFrom_here. exact M.
  - rewrite matchAt_reTag, (tagMatchAt_name _ name rest T St),
      (tagFrom_name _ _ name rest T St) in M. discriminate M.
Qed.


(** *** Two tags and a space between them *)

Section TwoTags.

Variables n1 n2 w : gostring.
Variable wr : Z.
Hypothesis name1 : TagName U n1.
Hypothesis name2 : TagName U n2.
Hypothesis space : Encodes w wr.
Hypothesis space_IsSpace : IsSpace wr = true.
Hypothesis space_not_name : nameNext U wr = false.

Local Abbreviation after1 := (afterSpace w wr).
Local Abbreviation text := (twoTags n1 w n2).
Local Abbreviation end1 := (1 + List.length n1 + List.length (afterSpace w wr))%nat.
Local Abbreviation start2 := (1 + List.length n1 + List.length w)%nat.

Lemma space_decode t : utf8.DecodeRuneInString (w ++ t) = (wr, List.length w).
Proof. apply space. Qed.

Lemma space_length : (0 < List.length w)%nat.
Proof. destruct space as (N & _). destruct w; [congruence|cbn; lia]. Qed.

Lemma boundaryAfter_space t : boundaryAfter (w ++ t) = after1.
Proof.
  unfold boundaryAfter, afterSpace. rewrite space_decode.
  destruct (negb (wr =? 10)); [|reflexivity].
  rewrite firstn_app, firstn_all, Nat.sub_diag. cbn [firstn]. apply app_nil_r.
Qed.

Lemma StopsAt_space t : StopsAt (nameNext U) (w ++ t).
Proof. right. rewrite space_decode. exact space_not_name. Qed.

Lemma StopsAt_after1 : StopsAt (nameNext U) after1.
Proof.
  unfold afterSpace. destruct (negb (wr =? 10)); [|left; reflexivity].
  rewrite <- (app_nil_r w). apply StopsAt_space.
Qed.

Lemma boundaryAfter_after1 : boundaryAfter after1 = after1.
Proof.
  unfold afterSpace. destruct (negb (wr =? 10)) eqn:N; [|reflexivity].
  rewrite <- (app_nil_r w) at 1. rewrite boundaryAfter_space.
  unfold afterSpace. rewrite N. reflexivity.
Qed.

Lemma boundaryOk_after1 : boundaryOk after1 = true.
Proof.
  unfold afterSpace, boundaryOk. destruct (negb (wr =? 10)); [|reflexivity].
  rewrite <- (app_nil_r w) at 2. rewrite space_decode. cbn [fst].
  rewrite space_IsSpace. apply orb_true_r.
Qed.

Lemma text_length :
  List.length text = (start2 + 1 + List.length n2)%nat.
Proof.
  unfold twoTags. rewrite !length_app.
  change (List.length (str "#")) with 1%nat. lia.
Qed.

Lemma first_match :
  exists c, doExecute U reTag text 0 = Some c /\
            getcap c 0 = Some (0%nat, end1).
Proof.
  pose proof (doExecute_reTag_name [] n1 (w ++ str "#" ++ n2) name1
                                   (StopsAt_space _)) as D.
  rewrite (tagFrom_name _ 0 n1 _ name1 (StopsAt_space _)) in D.
  cbn [app List.length] in D. eexists. split; [exact D|].
  cbn [getcap Nat.eqb ipos]. rewrite boundaryAfter_space. reflexivity.
Qed.

Lemma second_tag_at q :
  exists c, matchAt U reTag (mkInput q (str "#" ++ n2)) = Some c /\
            getcap c 0 = Some (q, (q + 1 + List.length n2)%nat).
Proof.
  rewrite matchAt_reTag.
  pose proof (tagMatchAt_name q n2 [] name2 (StopsAt_nil _)) as M.
  rewrite (tagFrom_name _ q n2 [] name2 (StopsAt_nil _)) in M.
  rewrite app_nil_r in M. eexists. split; [exact M|].
  cbn [getcap Nat.eqb ipos boundaryAfter].
  change (List.length (boundaryAfter [])) with 0%nat.
  rewrite Nat.add_0_r. reflexivity.
Qed.

Lemma skipn_text_start2 : skipn start2 text = str "#" ++ n2.
Proof.
  replace text with ((str "#" ++ n1 ++ w) ++ str "#" ++ n2)
    by (unfold twoTags; rewrite <- !app_assoc; reflexivity).
  replace (1 + List.length n1 + List.length w)%nat
    with (List.length (str "#" ++ n1 ++ w))
    by (rewrite !length_app; reflexivity).
  rewrite skipn_app, skipn_all, Nat.sub_diag. reflexivity.
Qed.

Lemma second_match :
  exists c, doExecute U reTag text end1 = Some c /\
            getcap c 0 = Some (start2, List.length text).
Proof.
  destruct (second_tag_at start2) as (c & M & G).
  exists c. rewrite text_length. split; [|exact G].
  unfold doExecute, afterSpace.
  destruct (negb (wr =? 10)) eqn:N.
  - rewrite skipn_text_start2. apply searchFrom_here, M.
  - cbn [List.length]. rewrite Nat.add_0_r.
    assert (E : skipn (1 + List.length n1) text = w ++ str "#" ++ n2).
    { replace text with ((str "#" ++ n1) ++ w ++ str "#" ++ n2)
        by (unfold twoTags; rewrite <- !app_assoc; reflexivity).
      replace (1 + List.length n1)%nat with (List.length (str "#" ++ n1))
        by (rewrite length_app; reflexivity).
      rewrite skipn_app, skipn_all, Nat.sub_diag. reflexivity. }
    rewrite E.
    assert (S1 : step (mkInput (1 + List.length n1) (w ++ str "#" ++ n2))
                 = Some (wr, mkInput start2 (str "#" ++ n2)))
      by (apply step_Encodes, space).
    assert (M0 : matchAt U reTag (mkInput (1 + List.length n1) (w ++ str "#" ++ n2))
                 = None).
    { rewrite matchAt_reTag. unfold tagMatchAt, tagFrom. rewrite S1, N.
      cbn [ipos Nat.add Nat.eqb orElse].
      apply negb_false_iff, Z.eqb_eq in N. subst wr. reflexivity. }
    pose proof text_length as L. destruct (List.length text); [lia|].
    rewrite (searchFrom_skip _ _ _ _ _ M0 S1). apply searchFrom_here, M.
Qed.

Lemma FindAllStringIndex_two_tags :
  FindAllStringIndex U reTag text = [(0%nat, end1); (start2, List.length text)].
Proof.
  destruct first_match as (c1 & D1 & G1).
  destruct second_match as (c2 & D2 & G2).
  pose proof text_length as L. pose proof space_length as Lw.
  assert (E1 : (end1 <= start2)%nat).
  { unfold afterSpace. destruct (negb (wr =? 10)); cbn [List.length]; lia. }
  unfold FindAllStringIndex.
  replace (List.length text + 2)%nat with (S (S (List.length text))) by lia.
  rewrite (allMatches_found_one _ _ _ _ _ _ _ _ _ D1 G1)
    by lia.
  rewrite (allMatches_found_one _ _ _ _ _ _ _ _ _ D2 G2)
    by lia.
  rewrite allMatches_found_none by apply doExecute_reTag_end. reflexivity.
Qed.

Lemma sub_text_first : sub text 0 end1 = str "#" ++ n1 ++ after1.
Proof.
  unfold afterSpace. destruct (negb (wr =? 10)).
  - replace text with ([] ++ (str "#" ++ n1 ++ w) ++ str "#" ++ n2)
      by (unfold twoTags; cbn [app]; rewrite <- !app_assoc; reflexivity).
    replace (1 + List.length n1 + List.length w)%nat
      with (List.length (@nil byte) + List.length (str "#" ++ n1 ++ w))%nat
      by (rewrite !length_app; reflexivity).
    apply (sub_middle [] (str "#" ++ n1 ++ w) (str "#" ++ n2)).
  - cbn [List.length]. rewrite Nat.add_0_r, app_nil_r.
    replace text with ([] ++ (str "#" ++ n1) ++ w ++ str "#" ++ n2)
      by (unfold twoTags; cbn [app]; rewrite <- !app_assoc; reflexivity).
    replace (1 + List.length n1)%nat
      with (List.length (@nil byte) + List.length (str "#" ++ n1))%nat
      by (rewrite !length_app; reflexivity).
    apply (sub_middle [] (str "#" ++ n1) (w ++ str "#" ++ n2)).
Qed.

Lemma sub_text_second : sub text start2 (List.length text) = str "#" ++ n2.
Proof.
  unfold sub. rewrite skipn_text_start2. apply firstn_all2.
  rewrite text_length, length_app.
  change (List.length (str "#")) with 1%nat. lia.
Qed.

(** Both tags are found: the first with the space as its boundary
    after (or nothing, when the space is a newline), the second
    with no boundary. *)
Lemma LoadNote_two_tags :
  Tags (LoadNote U text)
  = [Tag.mk n1 [0; Z.of_nat end1] [] after1;
     Tag.mk n2 [Z.of_nat start2; len text] [] []].
Proof.
  rewrite LoadNote_Tags, FindAllStringIndex_two_tags.
  cbn [map]. unfold tagOf. cbn [fst snd].
  rewrite sub_text_first, sub_text_second.
  rewrite (NewTag_name n1 after1 _ name1 StopsAt_after1 boundaryAfter_after1).
  rewrite boundaryOk_after1.
  pose proof (NewTag_name n2 [] (matchSlice (start2, List.length text)) name2
                          (StopsAt_nil _) eq_refl) as NT.
  rewrite app_nil_r in NT. rewrite NT.
  cbn [boundaryOk len List.length Z.of_nat Z.eqb orb filter].
  unfold named. cbn [Tag.Name].
  pose proof (TagName_length n1 name1). pose proof (TagName_length n2 name2).
  replace (0 <? len n1) with true by (symmetry; apply Z.ltb_lt; unfold len; lia).
  replace (0 <? len n2) with true by (symmetry; apply Z.ltb_lt; unfold len; lia).
  reflexivity.
Qed.

End TwoTags.

End Tags.

End tagFacts.

(** * The pattern of images *)

Module imageFacts.

Import unicode regexp bearnotes Spec utf8 utf8Facts regexpFacts tagFacts.

Ltac eq_caps :=
  repeat match goal with
         | |- Some _ = Some _ => f_equal
         | |- _ :: _ = _ :: _ => f_equal
         | |- (_, _) = (_, _) => f_equal
         end;
  cbn; lia.

Section Images.

Variable U : RangeTables.

Lemma classMatches_not x r : classMatches U true [CChar x] r = negb (r =? x).
Proof. unfold classMatches. cbn. rewrite orb_false_r. reflexivity. Qed.

(** The rune read at the head of bytes that are followed by an ASCII
    byte lies within them, and is not the ASCII rune [x] when none of
    the bytes is. *)
Lemma step_before_ascii x d a t q :
  d <> [] -> Forall (fun b => b2z b <> x) d -> x < RuneSelf ->
  b2z a < RuneSelf ->
  exists r w,
    (1 <= w <= List.length d)%nat /\
    step (mkInput q (d ++ a :: t)) = Some (r, mkInput (q + w) (skipn w d ++ a :: t)) /\
    r <> x.
Proof.
  intros N F X A.
  destruct (step (mkInput q (d ++ a :: t))) as [[r j]|] eqn:S.
  - apply step_Some in S as (w & W & D & ->). cbn [irest ipos] in *.
    pose proof (DecodeRune_before_ascii d a t N A) as B. rewrite D in B.
    cbn [snd] in B.
    exists r, w. split; [lia|]. split.
    + rewrite skipn_app. replace (w - List.length d)%nat with 0%nat by lia.
      reflexivity.
    + intros ->. apply DecodeRune_ascii_inv in D as (b & t' & E & R & _); [|exact X].
      destruct d as [|b' d']; [congruence|]. injection E as <- _.
      inversion F; subst. congruence.
  - apply step_None in S. cbn [irest] in S. destruct d; discriminate S.
Qed.

Lemma Forall_skipn_bytes (P : byte -> Prop) n (l : gostring) :
  Forall P l -> Forall P (skipn n l).
Proof.
  intros F. rewrite <- (firstn_skipn n l) in F.
  apply Forall_app in F. apply F.
Qed.

(** A greedy repetition of any rune but [x] reads through bytes none
    of which is [x], up to an ASCII byte, whenever what follows
    matches from there. *)
Lemma star_class_run x (k : cont) a t res :
  x < RuneSelf -> b2z a < RuneSelf ->
  forall n d q c fuel,
    (List.length d <= n)%nat -> (List.length d <= fuel)%nat ->
    Forall (fun b => b2z b <> x) d ->
    (forall fuel',
        star (rune1 (classMatches U true [CChar x])) fuel' k
             (mkInput (q + List.length d) (a :: t)) c = Some res) ->
    star (rune1 (classMatches U true [CChar x])) fuel k
         (mkInput q (d ++ a :: t)) c = Some res.
Proof.
  intros X A. induction n as [|n IH]; intros d q c fuel Ln Lf F K.
  - destruct d; [|cbn in Ln; lia]. cbn [List.length app] in *.
    rewrite Nat.add_0_r in K. apply K.
  - destruct d as [|b d'].
    { cbn [List.length app] in *. rewrite Nat.add_0_r in K. apply K. }
    destruct fuel as [|fuel]; [cbn in Lf; lia|].
    destruct (step_before_ascii x (b :: d') a t q) as (r & w & W & S & R); auto;
      [discriminate|].
    cbn [star]. unfold rune1 at 1. rewrite S, classMatches_not.
    replace (r =? x) with false by (symmetry; apply Z.eqb_neq; exact R).
    cbn [negb ipos].
    replace (q <? q + w)%nat with true by (symmetry; apply Nat.ltb_lt; lia).
    assert (L : (List.length (skipn w (b :: d')) = List.length (b :: d') - w)%nat)
      by apply length_skipn.
    rewrite IH; [reflexivity| | | |].
    + rewrite L. cbn [List.length] in *. lia.
    + rewrite L. cbn [List.length] in *. lia.
    + apply Forall_skipn_bytes, F.
    + intros fuel'. rewrite L.
      replace (q + w + (List.length (b :: d') - w))%nat
        with (q + List.length (b :: d'))%nat by lia.
      apply K.
Qed.

(** The same for one repetition at least. *)
Lemma plus_class_run x (k : cont) a t res d q c :
  x < RuneSelf -> b2z a < RuneSelf -> d <> [] ->
  Forall (fun b => b2z b <> x) d ->
  (forall fuel',
      star (rune1 (classMatches U true [CChar x])) fuel' k
           (mkInput (q + List.length d) (a :: t)) c = Some res) ->
  run U (OpPlus (OpCharClass true [CChar x])) k (mkInput q (d ++ a :: t)) c
  = Some res.
Proof.
  intros X A N F K.
  destruct (step_before_ascii x d a t q) as (r & w & W & S & R); auto.
  cbn [run]. unfold rune1 at 1. rewrite S, classMatches_not.
  replace (r =? x) with false by (symmetry; apply Z.eqb_neq; exact R).
  cbn [negb irest].
  assert (L : (List.length (skipn w d) = List.length d - w)%nat)
    by apply length_skipn.
  apply (star_class_run x k a t res X A (List.length (skipn w d))).
  - lia.
  - rewrite length_app. lia.
  - apply Forall_skipn_bytes, F.
  - intros fuel'. rewrite L.
    replace (q + w + (List.length d - w))%nat with (q + List.length d)%nat by lia.
    apply K.
Qed.

(** A repetition stops at a rune that is not in the class. *)
Lemma star_stop p (k : cont) fuel i c r j :
  step i = Some (r, j) -> p r = false -> star (rune1 p) fuel k i c = k i c.
Proof.
  intros S P. destruct fuel; cbn [star]; [reflexivity|].
  unfold rune1. rewrite S, P. reflexivity.
Qed.

Lemma star_end p (k : cont) fuel q c :
  k (mkInput q []) c = None -> star (rune1 p) fuel k (mkInput q []) c = None.
Proof.
  intros K. destruct fuel; cbn [star]; [exact K|].
  unfold rune1. cbn. exact K.
Qed.

(** A literal of ASCII runes reads its bytes. *)
Lemma literal_bytes bs (k : cont) q t c :
  Forall (fun b => b2z b < RuneSelf) bs ->
  literal (map b2z bs) k (mkInput q (bs ++ t)) c
  = k (mkInput (q + List.length bs) t) c.
Proof.
  intros F. revert q. induction F as [|b bs B F IH]; intros q.
  - cbn. rewrite Nat.add_0_r. reflexivity.
  - cbn [map literal app List.length]. unfold rune1, step. cbn [irest ipos].
    rewrite DecodeRune_ascii by exact B. rewrite Z.eqb_refl. cbn [skipn].
    rewrite IH. do 2 f_equal. lia.
Qed.

(** The match of [reImage] on an image written in its own syntax:
    group 1 is the text between the brackets when it holds no closing
    bracket, group 2 the text between the parentheses when it is not
    empty and holds no opening parenthesis. *)
Lemma matchAt_reImage d e :
  Forall (fun b => b2z b <> 0x5D) d -> e <> [] ->
  Forall (fun b => b2z b <> 0x28) e ->
  matchAt U reImage (mkInput 0 (str "![" ++ d ++ str "](" ++ e ++ str ")"))
  = Some [(0, (0, 5 + List.length d + List.length e));
          (2, (4 + List.length d, 4 + List.length d + List.length e));
          (1, (2, 2 + List.length d))]%nat.
Proof.
  intros D N E. unfold matchAt, reImage.
  change (runes "![") with (map b2z (str "![")).
  change (runes "](") with (map b2z (str "](")).
  change (runes ")") with (map b2z (str ")")).
  change (rune "]") with 0x5D. change (rune "(") with 0x28.
  cbn [run]. rewrite literal_bytes by (repeat constructor).
  cbn [irest ipos].
  change (str "](" ++ e ++ str ")") with (x5d :: x28 :: e ++ [x29]).
  apply (star_class_run 0x5D _ x5d (x28 :: e ++ [x29]) _ eq_refl eq_refl
                        (List.length d)).
  - lia.
  - rewrite length_app. lia.
  - exact D.
  - intros fuel'.
    erewrite star_stop; [|reflexivity|reflexivity].
    change (x5d :: x28 :: e ++ [x29]) with (str "](" ++ e ++ [x29]).
    rewrite literal_bytes by (repeat constructor).
    apply plus_class_run; [reflexivity|reflexivity|exact N|exact E|].
    intros fuel''. destruct fuel'' as [|fuel''].
    + cbn [star]. change [x29] with (str ")" ++ []).
      rewrite literal_bytes by (repeat constructor).
      unfold setcap, nocaps. cbn [ipos List.length str].
      eq_caps.
    + cbn [star]. unfold rune1 at 1.
      change (step (mkInput ?q [x29])) with (Some (0x29, mkInput (q + 1) [])).
      cbv beta iota. rewrite classMatches_not.
      change (negb (0x29 =? 0x28)) with true. cbn [ipos].
      match goal with
      | |- context [(?a <? ?a + 1)%nat] =>
          replace (a <? a + 1)%nat with true by (symmetry; apply Nat.ltb_lt; lia)
      end.
      rewrite star_end by reflexivity. cbn [orElse].
      change [x29] with (str ")" ++ []).
      rewrite literal_bytes by (repeat constructor).
      unfold setcap, nocaps. cbn [ipos List.length str].
      eq_caps.
Qed.

Lemma FindStringSubmatch_image d e :
  Forall (fun b => b2z b <> 0x5D) d -> e <> [] ->
  Forall (fun b => b2z b <> 0x28) e ->
  let s := str "![" ++ d ++ str "](" ++ e ++ str ")" in
  FindStringSubmatch U reImage s = Some [s; d; e].
Proof.
  intros D N E s. unfold FindStringSubmatch, doExecute. cbn [skipn].
  rewrite (searchFrom_here U reImage _ _ _ (matchAt_reImage d e D N E)).
  change (NumSubexp reImage) with 2%nat. cbn [seq map].
  unfold capText. cbn [getcap Nat.eqb].
  f_equal. f_equal; [|f_equal; [|f_equal]].
  - replace (5 + List.length d + List.length e)%nat with (List.length s).
    + apply sub_full.
    + unfold s. rewrite !length_app. cbn. lia.
  - apply (sub_middle (str "![") d).
  - unfold s.
    replace (str "![" ++ d ++ str "](" ++ e ++ str ")")
      with ((str "![" ++ d ++ str "](") ++ e ++ str ")")
      by (rewrite <- !app_assoc; reflexivity).
    replace (4 + List.length d)%nat with (List.length (str "![" ++ d ++ str "]("))
      by (rewrite !length_app; cbn; lia).
    apply sub_middle.
Qed.

(** The escaped form of a path holds no opening parenthesis, and is
    empty only for the empty path. *)
Lemma escapePath_no_paren p : Forall (fun b => b2z b <> 0x28) (escapePath p).
Proof.
  rewrite pathFacts.escapePath_bytes. induction p as [|b t IH]; [constructor|].
  cbn [flat_map]. apply Forall_app. split; [|exact IH].
  destruct b; vm_compute; repeat constructor; discriminate.
Qed.

Lemma escapePath_nonempty p : p <> [] -> escapePath p <> [].
Proof.
  rewrite pathFacts.escapePath_bytes. destruct p as [|b t]; [congruence|].
  intros _. cbn [flat_map]. destruct b; discriminate.
Qed.

(** [NewImage] reads back what [Image.String] wrote. *)
Lemma NewImage_String image position :
  Forall (fun b => b2z b <> 0x5D) (Image.Description image) ->
  Image.Location image <> [] ->
  NewImage U (Image.String image) position
  = Image.mk (Image.Location image) (Image.Description image) position.
Proof.
  intros D N. unfold NewImage, Image.String.
  rewrite FindStringSubmatch_image;
    auto using escapePath_no_paren, escapePath_nonempty.
  cbn [nth]. rewrite pathFacts.PathUnescape_escapePath. reflexivity.
Qed.

(** ** An image with an empty path *)

Lemma star_class_at_end x i j :
  irest i = [] -> Path U (OpStar (OpCharClass true [CChar x])) i j -> j = i.
Proof.
  intros E P. inversion P; subst; [reflexivity|].
  match goal with H : Path _ (OpCharClass _ _) _ _ |- _ => inversion H; subst end.
  apply step_None in E. congruence.
Qed.

(** The only closing bracket of the text is the one that ends the
    description. *)
Lemma bracket_offset d p b t :
  Forall (fun b => b2z b <> 0x5D) d ->
  skipn p (str "![" ++ d ++ str "]()") = b :: t -> b2z b = 0x5D ->
  p = (2 + List.length d)%nat.
Proof.
  intros D H B.
  change (str "![" ++ d ++ str "]()") with (x21 :: x5b :: d ++ [x5d; x28; x29]) in H.
  destruct p as [|[|k]]; cbn [skipn] in H.
  - injection H as <- _. discriminate B.
  - injection H as <- _. discriminate B.
  - rewrite skipn_app in H.
    destruct (le_lt_dec (List.length d) k) as [K|K].
    + rewrite skipn_all2 in H by exact K. cbn [app] in H.
      destruct (k - List.length d)%nat as [|[|[|n]]] eqn:N; cbn [skipn] in H.
      * lia.
      * injection H as <- _. discriminate B.
      * injection H as <- _. discriminate B.
      * rewrite skipn_nil in H. discriminate H.
    + pose proof (Forall_skipn_bytes _ k d D) as F.
      pose proof (length_skipn k d) as L.
      destruct (skipn k d) as [|b' t']; [cbn in L; lia|].
      injection H as <- _. inversion F; subst. congruence.
Qed.

(** [reImage] has no match in an image written with an empty path:
    the pattern wants one character at least between the
    parentheses. *)
Lemma reImage_empty_path d a j :
  Forall (fun b => b2z b <> 0x5D) d ->
  (a <= List.length (str "![" ++ d ++ str "]()"))%nat ->
  ~ Path U reImage (inputAt (str "![" ++ d ++ str "]()") a) j.
Proof.
  intros D L P. unfold reImage in P.
  change (runes "![") with [0x21; 0x5B] in P.
  change (runes "](") with [0x5D; 0x28] in P.
  change (runes ")") with [0x29] in P.
  repeat match goal with
         | H : Path _ (OpConcat _ _) _ _ |- _ => inversion H; subst; clear H
         end.
  (* the offset of the closing bracket *)
  match goal with
  | H : Path _ (OpLiteral [0x21; 0x5B]) _ _ |- _ =>
      apply Path_advances in H as (n1 & A1)
  end.
  apply advances_inputAt in A1 as (-> & L1); [|exact L].
  match goal with
  | H : Path _ (OpCapture 1 _) _ _ |- _ => apply Path_advances in H as (n2 & A2)
  end.
  apply advances_inputAt in A2 as (-> & L2); [|exact L1].
  match goal with
  | H : Path _ (OpLiteral [0x5D; 0x28]) _ _ |- _ => inversion H; subst; clear H
  end.
  match goal with H : step _ = Some (0x5D, _) |- _ => rename H into S1 end.
  pose proof S1 as S1'.
  apply step_Some in S1' as (w & _ & Dc & _). cbn [inputAt irest] in Dc.
  apply DecodeRune_ascii_inv in Dc as (b & t & E & B & _); [|reflexivity].
  pose proof (bracket_offset d _ b t D E B) as O.
  unfold inputAt in S1. rewrite O in S1.
  replace (skipn (2 + List.length d) (str "![" ++ d ++ str "]()"))
    with (str "]()") in S1.
  2:{ change (str "![" ++ d ++ str "]()") with (x21 :: x5b :: d ++ str "]()").
      cbn [Nat.add skipn]. rewrite skipn_app, skipn_all, Nat.sub_diag.
      reflexivity. }
  change (step (mkInput (2 + List.length d) (str "]()")))
    with (Some (0x5D, mkInput (2 + List.length d + 1) (str "()"))) in S1.
  injection S1 as <-.
  match goal with
  | H : Path _ (OpLiteral [0x28]) _ _ |- _ => inversion H; subst; clear H
  end.
  match goal with H : step _ = Some (0x28, _) |- _ => rename H into S2 end.
  change (step (mkInput (2 + List.length d + 1) (str "()")))
    with (Some (0x28, mkInput (2 + List.length d + 1 + 1) (str ")"))) in S2.
  injection S2 as <-.
  match goal with
  | H : Path _ (OpLiteral []) _ _ |- _ => inversion H; subst; clear H
  end.
  (* one character at least, which is the closing parenthesis *)
  match goal with
  | H : Path _ (OpCapture 2 _) _ _ |- _ => inversion H; subst; clear H
  end.
  match goal with
  | H : Path _ (OpPlus _) _ _ |- _ => inversion H; subst; clear H
  end.
  match goal with
  | H : Path _ (OpCharClass _ _) _ _ |- _ => inversion H; subst; clear H
  end.
  match goal with
  | H : step (mkInput ?q _) = Some (?r, ?j0) |- _ =>
      change (Some (0x29, mkInput (q + 1) []) = Some (r, j0)) in H;
      injection H as <- <-
  end.
  match goal with
  | H : Path _ (OpStar _) _ _ |- _ =>
      apply star_class_at_end in H; [|reflexivity]; subst
  end.
  match goal with
  | H : Path _ (OpLiteral [0x29]) _ _ |- _ => inversion H; subst; clear H
  end.
  match goal with H : step _ = Some (0x29, _) |- _ => discriminate H end.
Qed.

Lemma NewImage_String_empty image position :
  Forall (fun b => b2z b <> 0x5D) (Image.Description image) ->
  Image.Location image = [] ->
  NewImage U (Image.String image) position = Image.zero.
Proof.
  intros D E. unfold NewImage, Image.String. rewrite E.
  change (str "](" ++ escapePath [] ++ str ")") with (str "]()").
  unfold FindStringSubmatch.
  destruct (doExecute U reImage _ 0) as [c|] eqn:X; [exfalso|reflexivity].
  apply doExecute_Some in X as (m & _ & _ & (R & P)); [|lia].
  apply reImage_empty_path in P; [exact P|exact D|lia].
Qed.

(** Whatever the path, the location read back is the location
    written. *)
Lemma NewImage_String_Location image position :
  Forall (fun b => b2z b <> 0x5D) (Image.Description image) ->
  Image.Location (NewImage U (Image.String image) position)
  = Image.Location image.
Proof.
  intros D. destruct (Image.Location image) as [|b t] eqn:E.
  - rewrite NewImage_String_empty by assumption. reflexivity.
  - rewrite NewImage_String; [exact E|exact D|]. rewrite E. discriminate.
Qed.

End Images.

End imageFacts.

(** * A tag in its context *)

Module contextFacts.

Import unicode regexp bearnotes Spec utf8Facts regexpFacts packageFacts tagFacts.

Section Context.

Variable U : RangeTables.



(** The text that [reTag] takes after a name. *)
Lemma boundaryAfter_nil : boundaryAfter [] = [].
Proof. reflexivity. Qed.




(** ** A space and a tag *)

Section Space.

Variables w name : gostring.
Variable wr : Z.
Hypothesis tag_name : TagName U name.
Hypothesis space_rune : Encodes w wr.
Hypothesis space_is_space : IsSpace wr = true.
Hypothesis space_no_name : nameNext U wr = false.






(** ** The search in a text *)

Variables pre' post : gostring.
Hypothesis post_stops : StopsAt (nameNext U) post.

Local Abbreviation text := (pre' ++ w ++ str "#" ++ name ++ post).
Local Abbreviation gap := (List.length pre').
Local Abbreviation hash := (List.length pre' + List.length w)%nat.
Local Abbreviation stop :=
  (List.length pre' + List.length w + 1 + List.length name
   + List.length (boundaryAfter post))%nat.














Lemma context_length :
  List.length text
  = (hash + 1 + List.length name + List.length post)%nat.
Proof. rewrite !length_app. change (List.length (str "#")) with 1%nat. lia. Qed.



(** The tags of the two matches. *)
Hypothesis post_ok : boundaryOk (boundaryAfter post) = true.

Lemma stop_in_text : (stop <= List.length text)%nat.
Proof.
  rewrite context_length.
  assert (List.length (boundaryAfter post) <= List.length post)%nat; [|lia].
  unfold boundaryAfter. destruct (utf8.DecodeRuneInString post) as [r n].
  destruct (negb (r =? 10)); [rewrite length_firstn|cbn]; lia.
Qed.





End Space.

(** ** A tag at the start of a text *)


(** ** A tag between boundaries *)




End Context.

End contextFacts.

(** * The boundaries of a tag in the note *)

Module boundaryFacts.

Import unicode regexp bearnotes Spec utf8Facts regexpFacts packageFacts tagFacts.

Section Boundaries.

Variable U : RangeTables.

(** The search returns the match at its first input, or the match at
    the input after a rune read at an input with no match. *)
Lemma searchFrom_trace re : forall fuel i c,
  searchFrom U fuel re i = Some c ->
  matchAt U re i = Some c \/
  exists n i' r i0, advances i i' n /\ matchAt U re i' = None /\
                    step i' = Some (r, i0) /\ matchAt U re i0 = Some c.
Proof.
  induction fuel as [|fuel IH]; intros i c H; cbn [searchFrom] in H.
  - destruct (matchAt U re i); [left; exact H|discriminate H].
  - destruct (matchAt U re i) eqn:M; [left; exact H|].
    destruct (step i) as [[r i1]|] eqn:S; [|discriminate H].
    right. apply IH in H as [H|(n & i' & r' & i0 & A & M' & S' & H)].
    + exists 0%nat, i, r, i1. auto using advances_refl.
    + pose proof (step_advances _ _ _ S) as (w & _ & A1).
      exists (w + n)%nat, i', r', i0.
      split; [eapply advances_trans; eauto|auto].
Qed.

(** The groups of a match of [reTag] in a text. *)
Lemma tagFrom_shape s start p c :
  (p <= List.length s)%nat -> tagFrom U start (inputAt s p) = Some c ->
  exists e1 e3 e4,
    c = [(0%nat, (ipos start, e4)); (3%nat, (e3, e4));
         (2%nat, (e1, e3)); (1%nat, (ipos start, p))] /\
    (p < e1 < e3)%nat /\ (e3 <= e4 <= List.length s)%nat /\
    optAny (inputAt s e3) = inputAt s e4.
Proof.
  intros L H. unfold tagFrom in H.
  destruct (step (inputAt s p)) as [[r1 j1]|] eqn:S1; [|discriminate H].
  destruct (0x23 =? r1); [|discriminate H].
  destruct (step j1) as [[r2 j2]|] eqn:S2; [|discriminate H].
  destruct (nameFirst U r2); [|discriminate H].
  cbv zeta in H. injection H as <-.
  apply step_advances in S1 as (w1 & W1 & A1).
  apply advances_inputAt in A1 as (-> & L1); [|exact L].
  apply step_advances in S2 as (w2 & W2 & A2).
  apply advances_inputAt in A2 as (-> & L2); [|exact L1].
  destruct (skipRunes_advances (nameNext U)
              (List.length (irest (inputAt s (p + w1 + w2))))
              (inputAt s (p + w1 + w2))) as (n3 & A3).
  apply advances_inputAt in A3 as (E3 & L3); [|exact L2].
  rewrite E3.
  destruct (optAny_advances (inputAt s (p + w1 + w2 + n3))) as (n4 & A4).
  apply advances_inputAt in A4 as (E4 & L4); [|exact L3].
  rewrite E4.
  exists (p + w1)%nat, (p + w1 + w2 + n3)%nat, (p + w1 + w2 + n3 + n4)%nat.
  cbn [inputAt ipos]. split; [reflexivity|]. split; [lia|]. split; [lia|exact E4].
Qed.

Lemma tagMatch_shape s m0 c :
  (m0 <= List.length s)%nat -> matchAt U reTag (inputAt s m0) = Some c ->
  exists e0 e1 e3 e4,
    c = [(0%nat, (m0, e4)); (3%nat, (e3, e4)); (2%nat, (e1, e3)); (1%nat, (m0, e0))] /\
    (m0 <= e0 < e1)%nat /\ (e1 < e3)%nat /\ (e3 <= e4 <= List.length s)%nat /\
    tagFrom U (inputAt s m0) (inputAt s e0) = Some c /\
    optAny (inputAt s e3) = inputAt s e4.
Proof.
  intros L M. rewrite matchAt_reTag in M.
  apply tagMatchAt_cases in M as [T|(r & j & S & T)].
  - destruct (tagFrom_shape s _ m0 c L T) as (e1 & e3 & e4 & C & B1 & B2 & O).
    exists m0, e1, e3, e4. cbn [inputAt ipos] in C.
    split; [exact C|]. repeat split; auto; lia.
  - apply step_advances in S as (w & W & A).
    apply advances_inputAt in A as (-> & L1); [|exact L].
    destruct (tagFrom_shape s _ (m0 + w) c L1 T) as (e1 & e3 & e4 & C & B1 & B2 & O).
    exists (m0 + w)%nat, e1, e3, e4. cbn [inputAt ipos] in C.
    split; [exact C|]. repeat split; auto; lia.
Qed.

(** ** The fields of a tag, in the text of the note *)

Lemma sub_sub s a b x y :
  (x <= y)%nat -> (a + y <= b)%nat ->
  sub (sub s a b) x y = sub s (a + x) (a + y).
Proof.
  intros X Y. unfold sub.
  rewrite skipn_firstn_comm, firstn_firstn, skipn_skipn.
  rewrite Nat.min_l by lia. f_equal; [lia|f_equal; lia].
Qed.

Lemma FindStringSubmatch_caps content m0 m1 c :
  (m0 <= m1 <= List.length content)%nat ->
  matchAt U reTag (inputAt content m0) = Some c ->
  getcap c 0 = Some (m0, m1) ->
  FindStringSubmatch U reTag (sub content m0 m1)
  = Some (map (capText (sub content m0 m1) (shiftCaps m0 c)) (seq 0 4)).
Proof.
  intros B M G. rewrite matchAt_reTag in M.
  pose proof (tagMatchAt_localize U (inputAt content m0) c m1 M G) as M'.
  assert (E : localize (ipos (inputAt content m0)) m1 (inputAt content m0)
              = inputAt (sub content m0 m1) 0).
  { unfold localize, inputAt. cbn [ipos irest]. rewrite Nat.sub_diag. reflexivity. }
  rewrite E in M'. cbn [inputAt ipos] in M'.
  unfold FindStringSubmatch, doExecute.
  change (skipn 0 (sub content m0 m1)) with (sub content m0 m1).
  rewrite (searchFrom_here U reTag _ _ _
             (eq_trans (matchAt_reTag U _) M')).
  reflexivity.
Qed.

Lemma tagOf_groups content m0 m1 c e0 e1 e3 :
  (m0 <= e0)%nat -> (e0 < e1)%nat -> (e1 <= e3)%nat -> (e3 <= m1)%nat ->
  (m1 <= List.length content)%nat ->
  matchAt U reTag (inputAt content m0) = Some c ->
  c = [(0%nat, (m0, m1)); (3%nat, (e3, m1)); (2%nat, (e1, e3)); (1%nat, (m0, e0))] ->
  named (tagOf U content (m0, m1)) = true ->
  Tag.before (tagOf U content (m0, m1)) = sub content m0 e0 /\
  Tag.Name (tagOf U content (m0, m1)) = sub content e1 e3 /\
  Tag.after (tagOf U content (m0, m1)) = sub content e3 m1.
Proof.
  intros B0 B1 B2 B3 B4 M C. unfold tagOf, NewTag, named. cbn [fst snd].
  rewrite (FindStringSubmatch_caps content m0 m1 c); [|lia|exact M|subst c; reflexivity].
  subst c. cbn [seq map shiftCaps capText getcap Nat.eqb fst snd nth]. cbv zeta.
  rewrite !sub_sub by lia.
  replace (m0 + (m0 - m0))%nat with m0 by lia.
  replace (m0 + (e0 - m0))%nat with e0 by lia.
  replace (m0 + (e1 - m0))%nat with e1 by lia.
  replace (m0 + (e3 - m0))%nat with e3 by lia.
  replace (m0 + (m1 - m0))%nat with m1 by lia.
  destruct (_ && _); [intros _; auto|intros N; discriminate N].
Qed.

(** ** The searches of [FindAllStringIndex] *)

(** Every match of [reTag] that the loop returns was searched from
    the first offset of the loop or from the end of a match returned
    before. *)
Lemma allMatches_starts s : forall fuel pos n prev,
  Forall (fun m =>
            exists pos' c,
              (pos' = pos \/
               exists a, In (a, pos') (allMatches U fuel reTag s pos n prev)) /\
              (pos' <= List.length s)%nat /\
              doExecute U reTag s pos' = Some c /\ getcap c 0 = Some m)
         (allMatches U fuel reTag s pos n prev).
Proof.
  induction fuel as [|fuel IH]; intros pos n prev; cbn [allMatches].
  - constructor.
  - destruct ((n =? 0)%nat || (List.length s <? pos)%nat) eqn:G; [constructor|].
    apply orb_false_iff in G as (_ & G). apply Nat.ltb_ge in G.
    destruct (doExecute U reTag s pos) as [c|] eqn:D; [|constructor].
    destruct (getcap c 0) as [[m0 m1]|] eqn:C; [|constructor].
    pose proof (doExecute_found U _ _ _ _ _ D G C) as (L0 & c' & M & G').
    pose proof (doExecute_Some U _ _ _ _ D G) as (m' & C' & P & (R & _)).
    rewrite C in C'. injection C' as <-. cbn [fst snd] in *.
    destruct (tagMatch_shape s m0 c' L0 M) as (e0 & e1 & e3 & e4 & Ec & B1 & B2 & B3 & _).
    rewrite Ec in G'. cbn [getcap Nat.eqb] in G'. injection G' as <-.
    replace (e4 =? pos)%nat with false by (symmetry; apply Nat.eqb_neq; lia).
    constructor.
    + exists pos, c. split; [left; reflexivity|]. auto.
    + eapply Forall_impl; [|apply IH]. cbv beta.
      intros m (pos' & c0 & [->|(a & I)] & H).
      * exists e4, c0. split; [right; exists m0; left; reflexivity|exact H].
      * exists pos', c0. split; [right; exists a; right; exact I|exact H].
Qed.

Lemma tagFrom_any_start start start' j c :
  tagFrom U start j = Some c -> tagFrom U start' j <> None.
Proof.
  unfold tagFrom. destruct (step j) as [[r1 j1]|]; [|discriminate].
  destruct (0x23 =? r1); [|discriminate].
  destruct (step j1) as [[r2 j2]|]; [|discriminate].
  destruct (nameFirst U r2); discriminate.
Qed.

(** A match of [reTag] with nothing before the hashtag, found by a
    search from [pos]: it starts at [pos], or after a newline. *)
Lemma empty_before s pos c m0 e1 e3 e4 :
  (pos <= List.length s)%nat ->
  doExecute U reTag s pos = Some c ->
  c = [(0%nat, (m0, e4)); (3%nat, (e3, e4)); (2%nat, (e1, e3)); (1%nat, (m0, m0))] ->
  m0 = pos \/
  exists o, step (inputAt s o) = Some (0x0A, inputAt s m0).
Proof.
  intros L D C. unfold doExecute in D.
  change (mkInput pos (skipn pos s)) with (inputAt s pos) in D.
  apply searchFrom_trace in D as [M|(n & i' & r & i0 & A & M' & S & M)].
  - left. apply matchAt_Some in M as (j & _ & G). rewrite C in G.
    cbn [getcap Nat.eqb inputAt ipos] in G. injection G as -> _. reflexivity.
  - right. apply advances_inputAt in A as (-> & L'); [|exact L].
    pose proof (step_advances _ _ _ S) as (w & _ & A').
    apply advances_inputAt in A' as (-> & L''); [|exact L'].
    pose proof M as M0. apply matchAt_Some in M0 as (j & _ & G). rewrite C in G.
    cbn [getcap Nat.eqb inputAt ipos] in G. injection G as E0 _.
    exists (pos + n)%nat. rewrite <- E0 in *.
    destruct (r =? 10) eqn:R; [apply Z.eqb_eq in R; subst r; exact S|exfalso].
    destruct (tagMatch_shape s _ c L'' M) as (e0' & e1' & e3' & e4' & Ec & _ & _ & _ & T & _).
    rewrite C in Ec. injection Ec as _ _ _ <-.
    rewrite matchAt_reTag in M'. unfold tagMatchAt in M'.
    rewrite S, R in M'. cbn [negb] in M'.
    destruct (tagFrom U (inputAt s (pos + n)) (inputAt s m0)) as [x|] eqn:X.
    + destruct (if (ipos (inputAt s (pos + n)) =? 0)%nat then _ else _);
        discriminate M'.
    + apply (tagFrom_any_start _ (inputAt s (pos + n))) in T. congruence.
Qed.

(** A match of [reTag] with nothing after the name ends at the end
    of the text or before a newline. *)
Lemma empty_after s e3 :
  optAny (inputAt s e3) = inputAt s e3 -> (e3 <= List.length s)%nat ->
  e3 = List.length s \/
  exists j, step (inputAt s e3) = Some (0x0A, j).
Proof.
  unfold optAny. intros H L.
  destruct (step (inputAt s e3)) as [[r j]|] eqn:S.
  - right. destruct (r =? 10) eqn:R.
    + apply Z.eqb_eq in R. subst r. eauto.
    + cbn [negb] in H. apply step_progress in S. rewrite H in S.
      apply Nat.ltb_lt in S. lia.
  - left. apply step_None in S. cbn [inputAt irest] in S.
    apply (f_equal (@List.length byte)) in S. rewrite length_skipn in S.
    cbn in S. lia.
Qed.

(** ** The tags of a note *)

Lemma Tags_boundaries content :
  Forall (fun tag =>
            exists m0 m1,
              Tag.position tag = matchSlice (m0, m1) /\
              (Tag.before tag = [] ->
               m0 = 0%nat \/
               (exists a, In (a, m0) (FindAllStringIndex U reTag content)) \/
               exists o, step (inputAt content o) = Some (0x0A, inputAt content m0)) /\
              (Tag.after tag = [] ->
               m1 = List.length content \/
               exists j, step (inputAt content m1) = Some (0x0A, j)))
         (Tags (LoadNote U content)).
Proof.
  rewrite LoadNote_Tags. apply Forall_forall. intros tag I.
  apply filter_In in I as (I & N). apply in_map_iff in I as ([m0 m1] & <- & I).
  pose proof (allMatches_starts content (List.length content + 2) 0
                                (List.length content + 1) (-1)) as St.
  fold (FindAllStringIndex U reTag content) in St.
  apply (proj1 (Forall_forall _ _) St) in I as (pos & c & O & L & D & G).
  pose proof D as D'. unfold doExecute in D'.
  apply searchFrom_found in D' as (n & i0 & A & M).
  apply (advances_inputAt content pos) in A as (-> & L0); [|exact L].
  pose proof M as M'. apply matchAt_Some in M' as (j & _ & G').
  rewrite G in G'. cbn [inputAt ipos] in G'. injection G' as E0 _.
  rewrite <- E0 in *. clear E0.
  destruct (tagMatch_shape content m0 c L0 M)
    as (e0 & e1 & e3 & e4 & Ec & B1 & B2 & B3 & T & Oa).
  assert (E4 : e4 = m1).
  { rewrite Ec in G. cbn [getcap Nat.eqb] in G. injection G as <-. reflexivity. }
  subst e4.
  destruct (tagOf_groups content m0 m1 c e0 e1 e3) as (Fb & _ & Fa);
    try lia; auto.
  exists m0, m1. split; [apply tagOf_position; exact N|]. split.
  - rewrite Fb. intros Eb. apply (f_equal (@List.length byte)) in Eb.
    rewrite length_sub in Eb by lia. cbn [List.length] in Eb.
    assert (e0 = m0) by lia. subst e0.
    destruct (empty_before content pos c m0 e1 e3 m1 L D Ec) as [->|Nl].
    + destruct O as [->|O]; [left; reflexivity|right; left; exact O].
    + right. right. exact Nl.
  - rewrite Fa. intros Ea. apply (f_equal (@List.length byte)) in Ea.
    rewrite length_sub in Ea by lia. cbn [List.length] in Ea.
    assert (e3 = m1) by lia. subst e3.
    apply empty_after; [exact Oa|lia].
Qed.

End Boundaries.

End boundaryFacts.

(** * Texts without the first character of a pattern, and the spans of
      the items *)

Module plainFacts.

Import unicode regexp bearnotes Spec utf8Facts regexpFacts packageFacts tagFacts.

Lemma In_skipn_bytes (b : byte) n (l : gostring) : In b (skipn n l) -> In b l.
Proof.
  intros H. rewrite <- (firstn_skipn n l). apply in_or_app. right. exact H.
Qed.

(** An ASCII rune read in a text is a byte of the text. *)
Lemma step_ascii_In s p r j :
  step (inputAt s p) = Some (r, j) -> r < utf8.RuneSelf ->
  exists b, b2z b = r /\ In b s.
Proof.
  intros S R. apply step_Some in S as (w & _ & D & _). cbn [inputAt irest] in D.
  apply DecodeRune_ascii_inv in D as (b & t & E & B & _); [|exact R].
  exists b. split; [exact B|]. apply (In_skipn_bytes b p). rewrite E. left. reflexivity.
Qed.

Section Plain.

Variable U : RangeTables.

(** A match of a pattern that starts with a literal ASCII rune
    starts with that byte. *)
Lemma Path_literal_first a rs re s p j :
  Path U (OpConcat (OpLiteral (a :: rs)) re) (inputAt s p) j ->
  a < utf8.RuneSelf -> exists b, b2z b = a /\ In b s.
Proof.
  intros P A. inversion P as [| | | | | | | | | | | | |? ? ? j1 ? P1 _| |]; subst.
  inversion P1 as [| | | | |? ? ? j2 ? S _| | | | | | | | | |]; subst.
  eapply step_ascii_In; eauto.
Qed.

Lemma no_match_without re s :
  (forall m, IsMatch U re s m -> False) -> FindAllStringIndex U re s = [].
Proof.
  intros H. destruct (FindAllStringIndex_spec U re s) as (F & _).
  destruct (FindAllStringIndex U re s) as [|m ms]; [reflexivity|].
  inversion F; subst. exfalso. eauto.
Qed.

Lemma reTag_needs_hash s : ~ In x23 s -> FindAllStringIndex U reTag s = [].
Proof.
  intros N. pose proof (FindAllStringIndex_found U reTag s) as F.
  destruct (FindAllStringIndex U reTag s) as [|[m0 m1] ms]; [reflexivity|].
  exfalso. inversion F as [|? ? (L & c & M & _) _]; subst. cbn [fst] in *.
  rewrite matchAt_reTag in M.
  assert (T : exists start p, (p <= List.length s)%nat /\
                              tagFrom U start (inputAt s p) = Some c).
  { apply tagMatchAt_cases in M as [T|(r & j & S & T)].
    - exists (inputAt s m0), m0. auto.
    - apply step_advances in S as (w & _ & A).
      apply advances_inputAt in A as (-> & L'); [|exact L].
      exists (inputAt s m0), (m0 + w)%nat. auto. }
  destruct T as (start & p & _ & T). unfold tagFrom in T.
  destruct (step (inputAt s p)) as [[r1 j1]|] eqn:S1; [|discriminate T].
  destruct (0x23 =? r1) eqn:E; [|discriminate T].
  apply Z.eqb_eq in E. subst r1.
  apply step_ascii_In in S1 as (b & B & I); [|reflexivity].
  apply b2z_hash in B. subst b. exact (N I).
Qed.

Lemma reFile_needs_angle s : ~ In x3c s -> FindAllStringIndex U reFile s = [].
Proof.
  intros N. apply no_match_without. intros m (_ & P).
  unfold reFile in P. change (runes "<a") with [0x3C; 0x61] in P.
  apply Path_literal_first in P as (b & B & I); [|reflexivity].
  assert (b = x3c) by (destruct b; vm_compute in B; try discriminate B; reflexivity).
  subst b. exact (N I).
Qed.

Lemma reImage_needs_bang s : ~ In x21 s -> FindAllStringIndex U reImage s = [].
Proof.
  intros N. apply no_match_without. intros m (_ & P).
  unfold reImage in P. change (runes "![") with [0x21; 0x5B] in P.
  apply Path_literal_first in P as (b & B & I); [|reflexivity].
  assert (b = x21) by (destruct b; vm_compute in B; try discriminate B; reflexivity).
  subst b. exact (N I).
Qed.

(** A match of a pattern that starts with a literal rune is not
    empty. *)
Lemma Path_literal_progress a rs re i j :
  Path U (OpConcat (OpLiteral (a :: rs)) re) i j -> (ipos i < ipos j)%nat.
Proof.
  intros P. inversion P as [| | | | | | | | | | | | |? ? ? j1 ? P1 P2| |]; subst.
  inversion P1 as [| | | | |? ? ? j2 ? S P3| | | | | | | | | |]; subst.
  apply step_progress, Nat.ltb_lt in S.
  apply Path_advances in P3 as (n3 & A3 & _).
  apply Path_advances in P2 as (n2 & A2 & _). lia.
Qed.

(** The decoded form of a path holds no opening angle bracket. *)
Lemma escapePath_no_angle p : ~ In x3c (escapePath p).
Proof.
  rewrite pathFacts.escapePath_bytes. induction p as [|b t IH]; [intros []|].
  cbn [flat_map]. intros I. apply in_app_or in I as [I|I]; [|exact (IH I)].
  revert I. destruct b; vm_compute; intuition discriminate.
Qed.

(** [NewFile] does not read the Markdown link that [File.String]
    writes, unless the name itself holds an opening angle bracket. *)
Lemma NewFile_String_zero file position :
  ~ In x3c (File.Name file) ->
  NewFile U (File.String file) position = File.zero.
Proof.
  intros N. unfold NewFile, FindStringSubmatch.
  destruct (doExecute U reFile (File.String file) 0) as [c|] eqn:X;
    [exfalso|reflexivity].
  apply doExecute_Some in X as (m & _ & _ & (_ & P)); [|lia].
  unfold reFile in P. change (runes "<a") with [0x3C; 0x61] in P.
  apply Path_literal_first in P as (b & B & I); [|reflexivity].
  assert (b = x3c) by (destruct b; vm_compute in B; try discriminate B; reflexivity).
  subst b. unfold File.String in I.
  repeat (apply in_app_or in I as [I|I]).
  - cbn in I. intuition discriminate.
  - exact (N I).
  - cbn in I. intuition discriminate.
  - exact (escapePath_no_angle _ I).
  - cbn in I. intuition discriminate.
Qed.

End Plain.

End plainFacts.

(** ** The spans of the items of a note *)

Module spanFacts.

Import unicode regexp bearnotes Spec utf8Facts regexpFacts packageFacts tagFacts.
Import plainFacts.

(** Two lists in strict order with the same elements are equal. *)
Lemma sorted_unique (A : Type) (R : A -> A -> Prop) :
  (forall x y, R x y -> R y x -> False) ->
  forall l l', StronglySorted R l -> StronglySorted R l' -> Permutation l l' -> l = l'.
Proof.
  intros Asym. induction l as [|x l IH]; intros l' S S' P.
  - apply Permutation_nil in P. auto.
  - destruct l' as [|x' l']; [apply Permutation_sym, Permutation_nil in P; discriminate P|].
    inversion S as [|? ? Sl Fx]; subst. inversion S' as [|? ? Sl' Fx']; subst.
    assert (E : x = x').
    { assert (I : In x (x' :: l')) by (eapply Permutation_in; [exact P|left; reflexivity]).
      assert (I' : In x' (x :: l))
        by (eapply Permutation_in; [apply Permutation_sym, P|left; reflexivity]).
      destruct I as [I|I]; [auto|]. destruct I' as [I'|I']; [auto|].
      exfalso. rewrite Forall_forall in Fx, Fx'. eapply Asym; eauto. }
    subst x'. f_equal. apply IH; auto. eapply Permutation_cons_inv, P.
Qed.

Lemma strictly_sorted (items : list updatedItem) :
  Forall (fun it => spanStart it < spanEnd it) items ->
  StronglySorted (fun x y => spanEnd x <= spanStart y) items ->
  StronglySorted (fun x y => spanStart x < spanStart y) items.
Proof.
  induction items as [|x items IH]; intros F S; [constructor|].
  inversion F; subst. inversion S as [|? ? S' G]; subst.
  constructor; [auto|]. eapply Forall_impl; [|exact G]. cbn. intros y Hy. lia.
Qed.

(** The span of a tag is not empty. *)
Lemma Tags_spans U content :
  Forall (fun tag => spanStart (tagItem tag) < spanEnd (tagItem tag))
         (Tags (LoadNote U content)).
Proof.
  rewrite LoadNote_Tags. apply Forall_forall. intros tag I.
  apply filter_In in I as (I & N). apply in_map_iff in I as ([m0 m1] & <- & I).
  pose proof (FindAllStringIndex_found U reTag content) as F.
  apply (proj1 (Forall_forall _ _) F) in I as (L & c & M & G).
  cbn [fst] in L, M.
  destruct (boundaryFacts.tagMatch_shape U content m0 c L M)
    as (e0 & e1 & e3 & e4 & Ec & B1 & B2 & B3 & _).
  rewrite Ec in G. cbn [getcap Nat.eqb] in G. injection G as <-.
  unfold spanStart, spanEnd, tagItem. cbn [item_position].
  rewrite tagOf_position by exact N. cbn [matchSlice nth fst snd]. lia.
Qed.

(** The span of a file attachment and of an image is not empty. *)
Lemma Files_spans U content :
  Forall (fun file => spanStart (fileItem file) < spanEnd (fileItem file))
         (Files (LoadNote U content)).
Proof.
  rewrite LoadNote_Files. apply Forall_forall. intros file I.
  apply in_map_iff in I as ([m0 m1] & <- & I).
  destruct (FindAllStringIndex_spec U reFile content) as (F & _).
  apply (proj1 (Forall_forall _ _) F) in I as M.
  unfold spanStart, spanEnd, fileItem. cbn [item_position].
  rewrite (fileOf_position U content _ M). destruct M as (_ & P).
  unfold reFile in P. apply Path_literal_progress in P.
  cbn [matchSlice nth fst snd inputAt ipos] in *. lia.
Qed.

Lemma Images_spans U content :
  Forall (fun image => spanStart (imageItem image) < spanEnd (imageItem image))
         (Images (LoadNote U content)).
Proof.
  rewrite LoadNote_Images. apply Forall_forall. intros image I.
  apply in_map_iff in I as ([m0 m1] & <- & I).
  destruct (FindAllStringIndex_spec U reImage content) as (F & _).
  apply (proj1 (Forall_forall _ _) F) in I as M.
  unfold spanStart, spanEnd, imageItem. cbn [item_position].
  rewrite (imageOf_position U content _ M). destruct M as (_ & P).
  unfold reImage in P. apply Path_literal_progress in P.
  cbn [matchSlice nth fst snd inputAt ipos] in *. lia.
Qed.

(** No item of a note read from a text has an empty span. *)
Lemma LoadNote_spans U content :
  Forall (fun it => spanStart it < spanEnd it) (noteItems (LoadNote U content)).
Proof.
  unfold noteItems. rewrite !Forall_app. repeat split; apply Forall_map.
  - apply Tags_spans.
  - apply Files_spans.
  - apply Images_spans.
Qed.

Lemma collectItems_noteItems note : collectItems note = noteItems note.
Proof. apply collectItems_eq. Qed.

(** The content spliced with a list of items, cut at one of them. *)
Lemma spliced_app content x l2 : forall l1 cursor,
  spliced content (l1 ++ x :: l2) cursor
  = splicedTo content l1 cursor (spanStart x)
      ++ item_content x ++ spliced content l2 (spanEnd x).
Proof.
  induction l1 as [|y l1 IH]; intros cursor; cbn [app spliced splicedTo].
  - reflexivity.
  - rewrite IH, <- !app_assoc. reflexivity.
Qed.

(** An order on the spans holds of a list with the same positions. *)
Lemma StronglySorted_positions l : forall l',
  map item_position l = map item_position l' ->
  StronglySorted (fun x y => spanEnd x <= spanStart y) l ->
  StronglySorted (fun x y => spanEnd x <= spanStart y) l'.
Proof.
  induction l as [|x l IH]; intros [|x' l'] E S; try discriminate E; [constructor|].
  cbn [map] in E. injection E as E1 E2. inversion S as [|? ? S' F]; subst.
  constructor; [auto|]. clear IH S S'. revert l' E2.
  induction F as [|y l Hy F IH]; intros [|y' l'] E2; try discriminate E2;
    [constructor|].
  cbn [map] in E2. injection E2 as E3 E4. constructor; [|auto].
  unfold spanStart, spanEnd in *. rewrite <- E1, <- E3. exact Hy.
Qed.

End spanFacts.

(** * The properties of the package *)

Import unicode regexp bearnotes Spec Examples.
Import urlFacts pathFacts regexpFacts sortFacts serializerFacts packageFacts tagFacts.
Import plainFacts spanFacts.

(** ** Serialization *)

Section WriteNoteFacts.

Variable sort_Slice :
  (updatedItem -> updatedItem -> bool) -> list updatedItem -> list updatedItem.
Hypothesis sort_Slice_spec : sort.Slice_spec updatedItem sort_Slice.

(** When the spans of the items are within the content and do not
    overlap, [WriteNote] writes the content with every item in place
    of its span, in the order of the text. *)
Lemma WriteNote_spliced note :
  Forall (wellPlaced (content note)) (collectItems note) ->
  ForallOrdPairs disjoint (collectItems note) ->
  exists sorted,
    Permutation (collectItems note) sorted /\
    StronglySorted (fun x y => spanEnd x <= spanStart y) sorted /\
    Forall (wellPlaced (content note)) sorted /\
    WriteNote sort_Slice note = Some (spliced (content note) sorted 0).
Proof.
  intros W D.
  destruct (sort_Slice_in_order sort_Slice sort_Slice_spec _ _ W D) as (P & W' & S).
  exists (sort_Slice less (collectItems note)).
  split; [exact P|]. split; [exact S|]. split; [exact W'|].
  unfold WriteNote.
  rewrite (copyItems_spliced (content note)); auto.
  - unfold len. lia.
  - eapply Forall_impl; [|exact W']. intros it (_ & B & _). lia.
Qed.

End WriteNoteFacts.




(** ** Paths *)

Lemma slashes_app a b : slashes (a ++ b) = (slashes a + slashes b)%nat.
Proof. unfold slashes. rewrite filter_app, length_app. reflexivity. Qed.

Lemma slashes_escapePathByte b : slashes (escapePathByte b) = slashes [b].
Proof. destruct b; reflexivity. Qed.

(** C9. [escapePath] escapes each component between slashes on its own
    and joins the results with literal slashes: it is the join of the
    escaped components of [strings.Split], it distributes over a slash,
    and it writes exactly as many slashes as the path holds. The path
    with nested parentheses of the tests keeps its slash and has its
    parentheses encoded. *)
Theorem escapePath_keeps_slashes :
  (forall p, escapePath p = joinEscaped (strings.Split p x2f)) /\
  (forall a b, escapePath (a ++ str "/" ++ b) = escapePath a ++ str "/" ++ escapePath b) /\
  (forall p, slashes (escapePath p) = slashes p) /\
  escapePath (str "note_with_nested(parenthesis)/test.jpg")
  = str "note_with_nested%28parenthesis%29/test.jpg".
Proof.
  split; [exact escapePath_join|]. split; [|split; [|reflexivity]].
  - intros a b. rewrite !escapePath_app. reflexivity.
  - intros p. rewrite escapePath_bytes.
    induction p as [|b p IH]; [reflexivity|].
    cbn [flat_map]. rewrite slashes_app, IH, slashes_escapePathByte.
    change (b :: p) with ([b] ++ p). rewrite slashes_app. reflexivity.
Qed.

(** ** Tags *)


(** ** Files and images *)

(** C5 as stated fails: on a path that does not decode, the location is
    empty, not the text captured. *)
Lemma decode_failure_counterexample :
  let content := str "<a href='x%zz'>n</a>" in
  option_map (fun parts => nth 1 parts [])
             (FindStringSubmatch latin1Tables reFile content) = Some (str "x%zz") /\
  NewFile latin1Tables content [0; 20] = File.mk [] (str "n") [0; 20].
Proof. split; vm_compute; reflexivity. Qed.

Lemma PathUnescape_cases s :
  url.PathUnescape s = ([], snd (url.PathUnescape s)) \/
  url.PathUnescape s = (fst (url.PathUnescape s), None).
Proof.
  unfold url.PathUnescape. destruct (url.checkEscapes s); [left|right]; reflexivity.
Qed.

(** C5, amended. The location of a file or of an image is the decoded
    path when the path captured decodes, and the empty string otherwise
    ([PathUnescape] returns the empty string with its error, and the
    error is dropped); never the text captured. Parsing goes on: every
    match of the two patterns gives an item with the position of the
    match. *)
Theorem decode_failure_gives_empty_location U :
  (forall content position,
      let file := NewFile U content position in
      File.Location file = [] \/
      exists parts, FindStringSubmatch U reFile content = Some parts /\
                    url.PathUnescape (nth 1 parts []) = (File.Location file, None)) /\
  (forall content position,
      let image := NewImage U content position in
      Image.Location image = [] \/
      exists parts, FindStringSubmatch U reImage content = Some parts /\
                    url.PathUnescape (nth 2 parts []) = (Image.Location image, None)) /\
  (forall content,
      map File.position (Files (LoadNote U content))
      = map matchSlice (FindAllStringIndex U reFile content) /\
      map Image.position (Images (LoadNote U content))
      = map matchSlice (FindAllStringIndex U reImage content)) /\
  Files (LoadNote U (str "<a href='x%zz'>n</a>")) = [File.mk [] (str "n") [0; 20]] /\
  Images (LoadNote U (str "![d](x%zz)")) = [Image.mk [] (str "d") [0; 10]].
Proof.
  split; [|split; [|split; [|split; vm_compute; reflexivity]]].
  - intros content position. cbv zeta. unfold NewFile.
    destruct (FindStringSubmatch U reFile content) as [parts|]; [|left; reflexivity].
    cbn [File.Location].
    destruct (PathUnescape_cases (nth 1 parts [])) as [E|E].
    + left. rewrite E. reflexivity.
    + right. exists parts. split; [reflexivity|exact E].
  - intros content position. cbv zeta. unfold NewImage.
    destruct (FindStringSubmatch U reImage content) as [parts|]; [|left; reflexivity].
    cbn [Image.Location].
    destruct (PathUnescape_cases (nth 2 parts [])) as [E|E].
    + left. rewrite E. reflexivity.
    + right. exists parts. split; [reflexivity|exact E].
  - intros content. split; [apply Files_positions|apply Images_positions].
Qed.

(** C4 as stated fails: a tag inside the description of an image
    overlaps the image. *)
Lemma spans_overlap_counterexample :
  let note := LoadNote latin1Tables (str "![a #foo b](x)") in
  map Tag.position (Tags note) = [[3; 9]] /\
  map Image.position (Images note) = [[0; 14]].
Proof. split; vm_compute; reflexivity. Qed.

(** C4, amended. Within each of the three collections the spans of the
    items are spans of the text, in ascending order, each one ending
    before the next one starts. *)
Theorem spans_in_order_per_collection U content :
  spansInOrder content (map Tag.position (Tags (LoadNote U content))) /\
  spansInOrder content (map File.position (Files (LoadNote U content))) /\
  spansInOrder content (map Image.position (Images (LoadNote U content))).
Proof.
  split; [apply Tags_spansInOrder|].
  split; [apply Files_spansInOrder|apply Images_spansInOrder].
Qed.

(** C10 as stated fails in its second part: the rendering of a file is
    a Markdown link, which [NewFile] does not read; and an image whose
    description holds a closing bracket is not read back. *)
Lemma reparse_counterexample :
  let file := File.mk (str "a") (str "b") [0; 1] in
  let image := Image.mk (str "x") (str "]") [0; 1] in
  (File.String file = str "[b](a)" /\
   NewFile latin1Tables (File.String file) [0; 6] = File.zero) /\
  (Image.String image = str "![]](x)" /\
   NewImage latin1Tables (Image.String image) [0; 7] = Image.zero).
Proof. repeat split; vm_compute; reflexivity. Qed.

(** ** The round trip *)

Lemma Permutation_spliced_unchanged content sorted :
  Forall (wellPlaced content) sorted ->
  StronglySorted (fun x y => spanEnd x <= spanStart y) sorted ->
  Forall (ownText content) sorted ->
  spliced content sorted 0 = content.
Proof.
  intros W S E. rewrite spliced_unchanged; auto; [lia|].
  eapply Forall_impl; [|exact W]. intros it (_ & B & _). lia.
Qed.

(** C1 as stated fails: a file attachment is written back as a Markdown
    link, and an image with a path that is not in escaped form is
    written back escaped. *)
Lemma roundtrip_counterexample :
  WriteNote (sort.insertionSort updatedItem)
            (LoadNote latin1Tables (str "<a href='x'>n</a>"))
  = Some (str "[n](x)") /\
  WriteNote (sort.insertionSort updatedItem)
            (LoadNote latin1Tables (str "![d](a b)"))
  = Some (str "![d](a%20b)").
Proof. split; vm_compute; reflexivity. Qed.

Lemma between_sub content m0 m1 :
  between content (Z.of_nat m0) (Z.of_nat m1) = sub content m0 m1.
Proof.
  unfold between, sub. rewrite Nat2Z.id. f_equal. lia.
Qed.

(** Every tag that [LoadNote] keeps renders to the text of its span. *)
Lemma Tags_ownText U content :
  Forall (ownText content) (map tagItem (Tags (LoadNote U content))).
Proof.
  rewrite LoadNote_Tags.
  destruct (FindAllStringIndex_spec U reTag content) as (B & _).
  pose proof (FindAllStringIndex_found U reTag content) as F.
  induction (FindAllStringIndex U reTag content) as [|m ms IH]; [constructor|].
  inversion B as [|? ? (Bm & _) B']; subst. inversion F as [|? ? Fm F']; subst.
  cbn [map filter]. destruct (named (tagOf U content m)) eqn:N; [|auto].
  cbn [map]. constructor; [|auto].
  unfold ownText, tagItem, spanStart, spanEnd. cbn [item_content item_position].
  rewrite tagOf_position by exact N. cbn [matchSlice nth].
  rewrite between_sub. apply tagOf_String; assumption.
Qed.

Lemma spansInOrder_disjoint content (items : list updatedItem) :
  spansInOrder content (map item_position items) ->
  ForallOrdPairs disjoint items.
Proof.
  intros (ms & E & S & _). revert ms E S.
  induction items as [|it items IH]; intros ms E S; [constructor|].
  destruct ms as [|m ms]; [discriminate E|]. cbn [map] in E.
  injection E as E1 E2. inversion S as [|? ? S' G]; subst.
  constructor; [|eapply IH; eauto].
  clear IH S S'. revert ms E2 G.
  induction items as [|it' items IH]; intros ms E2 G; [constructor|].
  destruct ms as [|m' ms]; [discriminate E2|]. cbn [map] in E2.
  injection E2 as E3 E4. inversion G; subst.
  constructor; [|eapply IH; eauto].
  left. unfold spanStart, spanEnd. rewrite E1, E3. cbn. lia.
Qed.

Lemma between_app content a b c :
  0 <= a <= b -> b <= c ->
  between content a b ++ between content b c = between content a c.
Proof.
  intros H1 H2. unfold between.
  replace (Z.to_nat (c - a)) with (Z.to_nat (b - a) + Z.to_nat (c - b))%nat by lia.
  rewrite firstn_plus, skipn_skipn. do 3 f_equal. lia.
Qed.

(** When every item but one renders to the text of its span, the
    content is changed in the span of that one only. *)
Lemma spliced_one_changed content x l2 : forall l1 current,
  0 <= current ->
  Forall (wellPlaced content) (l1 ++ x :: l2) ->
  Forall (fun it => current <= spanStart it) (l1 ++ x :: l2) ->
  StronglySorted (fun x y => spanEnd x <= spanStart y) (l1 ++ x :: l2) ->
  Forall (ownText content) l1 -> Forall (ownText content) l2 ->
  spliced content (l1 ++ x :: l2) current
  = between content current (spanStart x) ++ item_content x
      ++ skipn (Z.to_nat (spanEnd x)) content.
Proof.
  induction l1 as [|y l1 IH]; intros current C W F S O1 O2.
  - cbn [app spliced] in *. inversion W as [|? ? (_ & Wx & _) W']; subst.
    inversion F; subst. inversion S as [|? ? S' G]; subst.
    rewrite spliced_unchanged; auto. lia.
  - cbn [app spliced] in *. inversion W as [|? ? (_ & Wy & _) W']; subst.
    inversion F as [|? ? Fy F']; subst. inversion S as [|? ? S' G]; subst.
    inversion O1 as [|? ? Oy O1']; subst.
    rewrite IH; auto; [|lia].
    rewrite Oy, !app_assoc. do 2 f_equal.
    assert (Gx : spanEnd y <= spanStart x).
    { rewrite Forall_forall in G. apply G. apply in_or_app. right. left. reflexivity. }
    rewrite between_app by lia. apply between_app; lia.
Qed.

Lemma Forall_wellPlaced_positions content l l' :
  map item_position l = map item_position l' ->
  Forall (wellPlaced content) l -> Forall (wellPlaced content) l'.
Proof.
  revert l'. induction l as [|x l IH]; intros [|x' l'] E W;
    try discriminate E; [constructor|].
  cbn [map] in E. injection E as E1 E2. inversion W; subst.
  constructor; [|auto].
  unfold wellPlaced, spanStart, spanEnd in *. rewrite <- E1. assumption.
Qed.

Lemma Forall_disjoint_positions x x' l l' :
  item_position x = item_position x' ->
  map item_position l = map item_position l' ->
  Forall (disjoint x) l -> Forall (disjoint x') l'.
Proof.
  intros Ex. revert l'. induction l as [|y l IH]; intros [|y' l'] E D;
    try discriminate E; [constructor|].
  cbn [map] in E. injection E as E1 E2. inversion D; subst.
  constructor; [|auto].
  unfold disjoint, spanStart, spanEnd in *. rewrite <- Ex, <- E1. assumption.
Qed.

Lemma ForallOrdPairs_disjoint_positions l l' :
  map item_position l = map item_position l' ->
  ForallOrdPairs disjoint l -> ForallOrdPairs disjoint l'.
Proof.
  revert l'. induction l as [|x l IH]; intros [|x' l'] E D;
    try discriminate E; [constructor|].
  cbn [map] in E. injection E as E1 E2.
  apply ForallOrdPairs_cons_iff in D as (D1 & D2).
  constructor; [|auto]. eapply Forall_disjoint_positions; eauto.
Qed.

Section RoundTrip.

Variable sort_Slice :
  (updatedItem -> updatedItem -> bool) -> list updatedItem -> list updatedItem.
Hypothesis sort_Slice_spec : sort.Slice_spec updatedItem sort_Slice.

Variable U : RangeTables.

Lemma roundtrip_items text :
  ForallOrdPairs disjoint (collectItems (LoadNote U text)) ->
  Forall (ownText text) (collectItems (LoadNote U text)) ->
  WriteNote sort_Slice (LoadNote U text) = Some text.
Proof.
  intros D O.
  destruct (WriteNote_spliced sort_Slice sort_Slice_spec (LoadNote U text))
    as (sorted & P & S & W & E); [apply LoadNote_wellPlaced|exact D|].
  rewrite E. f_equal. cbn [content] in *.
  apply Permutation_spliced_unchanged; auto.
  eapply Permutation_Forall; eauto.
Qed.

(** A text in which only tags are found is written back as it is. *)
Lemma roundtrip_tags_only text :
  Files (LoadNote U text) = [] -> Images (LoadNote U text) = [] ->
  WriteNote sort_Slice (LoadNote U text) = Some text.
Proof.
  intros F I. apply roundtrip_items; rewrite collectItems_eq, F, I;
    cbn [map]; rewrite !app_nil_r.
  - apply (spansInOrder_disjoint text). rewrite map_map.
    apply Tags_spansInOrder.
  - apply Tags_ownText.
Qed.

End RoundTrip.

Lemma ForallOrdPairs_app_cross (A : Type) (R : A -> A -> Prop) l1 l2 :
  ForallOrdPairs R l1 -> ForallOrdPairs R l2 ->
  (forall x y, In x l1 -> In y l2 -> R x y) ->
  ForallOrdPairs R (l1 ++ l2).
Proof.
  intros H1 H2 C. induction l1 as [|x l1 IH]; [exact H2|].
  apply ForallOrdPairs_cons_iff in H1 as (F & H1). cbn [app].
  constructor.
  - apply Forall_app. split; [exact F|].
    apply Forall_forall. intros y Y. apply C; [left; reflexivity|exact Y].
  - apply IH; [exact H1|]. intros x' y X Y. apply C; [right; exact X|exact Y].
Qed.

(** C1, amended. Parsing a text and serializing the note at once gives
    the text back when no file attachment is found in it, every image
    found renders to the text of its own span and no tag found overlaps
    an image found; in particular when only tags are found, and for the
    empty text. Every tag renders to the text of its span, and the tags
    do not overlap one another, nor do the images. *)
Theorem roundtrip
        (sort_Slice : (updatedItem -> updatedItem -> bool) ->
                      list updatedItem -> list updatedItem)
        (U : RangeTables) :
  sort.Slice_spec updatedItem sort_Slice ->
  (forall text,
      Files (LoadNote U text) = [] ->
      Forall (ownText text) (map imageItem (Images (LoadNote U text))) ->
      (forall tag image,
          In tag (Tags (LoadNote U text)) -> In image (Images (LoadNote U text)) ->
          disjoint (tagItem tag) (imageItem image)) ->
      WriteNote sort_Slice (LoadNote U text) = Some text) /\
  (forall text,
      Files (LoadNote U text) = [] -> Images (LoadNote U text) = [] ->
      WriteNote sort_Slice (LoadNote U text) = Some text) /\
  WriteNote sort_Slice (LoadNote U []) = Some [].
Proof.
  intros C. split; [|split].
  - intros text F I D. apply roundtrip_items; [exact C| |].
    + rewrite collectItems_eq, F. cbn [map app].
      apply ForallOrdPairs_app_cross.
      * apply (spansInOrder_disjoint text). rewrite map_map. apply Tags_spansInOrder.
      * apply (spansInOrder_disjoint text). rewrite map_map. apply Images_spansInOrder.
      * intros x y X Y. apply in_map_iff in X as (tag & <- & X).
        apply in_map_iff in Y as (image & <- & Y). apply D; assumption.
    + rewrite collectItems_eq, F. cbn [map app].
      apply Forall_app. split; [apply Tags_ownText|exact I].
  - intros text. apply roundtrip_tags_only, C.
  - apply roundtrip_tags_only; [exact C|reflexivity|reflexivity].
Qed.

Lemma roundtrip_witness :
  WriteNote (sort.insertionSort updatedItem) (LoadNote latin1Tables textTagsAndImage)
  = Some textTagsAndImage.
Proof.
  apply (proj1 (roundtrip (sort.insertionSort updatedItem) latin1Tables
                          (insertionSort_spec updatedItem))
               textTagsAndImage).
  - vm_compute. reflexivity.
  - let l := eval vm_compute in (map imageItem (Images (LoadNote latin1Tables textTagsAndImage))) in
    change (map imageItem (Images (LoadNote latin1Tables textTagsAndImage))) with l.
    repeat constructor.
  - let t := eval vm_compute in (Tags (LoadNote latin1Tables textTagsAndImage)) in
    change (Tags (LoadNote latin1Tables textTagsAndImage)) with t.
    let i := eval vm_compute in (Images (LoadNote latin1Tables textTagsAndImage)) in
    change (Images (LoadNote latin1Tables textTagsAndImage)) with i.
    intros tag image T I. cbn [In] in T, I.
    destruct I as [<-|[]]. destruct T as [<-|[<-|[]]];
      unfold disjoint, spanStart, spanEnd; cbn; lia.
Defined.

(** ** Removing a tag *)

Section Removal.

Variable sort_Slice :
  (updatedItem -> updatedItem -> bool) -> list updatedItem -> list updatedItem.
Hypothesis sort_Slice_spec : sort.Slice_spec updatedItem sort_Slice.

Variable U : RangeTables.

Local Abbreviation renamed := (renamed U).

Lemma renamed_positions text tags1 name tag tags2 :
  Tags (LoadNote U text) = tags1 ++ tag :: tags2 ->
  map item_position (collectItems (LoadNote U text))
  = map item_position (collectItems (renamed text tags1 name tag tags2)).
Proof.
  intros E. rewrite !collectItems_eq, E. unfold renamed. cbn [Tags Files Images].
  repeat rewrite map_app. cbn [map]. repeat rewrite map_app. reflexivity.
Qed.

Lemma renamed_spliced text tags1 name tag tags2 :
  Files (LoadNote U text) = [] ->
  Forall (ownText text) (map imageItem (Images (LoadNote U text))) ->
  ForallOrdPairs disjoint (collectItems (LoadNote U text)) ->
  Tags (LoadNote U text) = tags1 ++ tag :: tags2 ->
  WriteNote sort_Slice (renamed text tags1 name tag tags2)
  = Some (between text 0 (spanStart (tagItem tag))
            ++ Tag.String (setName name tag)
            ++ skipn (Z.to_nat (spanEnd (tagItem tag))) text).
Proof.
  intros F I D E.
  pose proof (renamed_positions text tags1 name tag tags2 E) as P.
  set (note' := renamed text tags1 name tag tags2) in *.
  assert (W' : Forall (wellPlaced text) (collectItems note'))
    by (eapply Forall_wellPlaced_positions; [exact P|apply LoadNote_wellPlaced]).
  assert (D' : ForallOrdPairs disjoint (collectItems note'))
    by (eapply ForallOrdPairs_disjoint_positions; eauto).
  destruct (WriteNote_spliced sort_Slice sort_Slice_spec note' W' D')
    as (sorted & Perm & S & W & R).
  rewrite R. f_equal. cbn [content note' renamed] in *.
  pose proof (Tags_ownText U text) as OT. rewrite E, map_app in OT.
  apply Forall_app in OT as (OT1 & OT2). cbn [map] in OT2.
  inversion OT2 as [|? ? _ OT2']; subst.
  assert (Items : collectItems note'
                  = map tagItem tags1
                      ++ tagItem (setName name tag)
                      :: (map tagItem tags2
                            ++ map imageItem (Images (LoadNote U text)))).
  { rewrite collectItems_eq. unfold note', renamed. cbn [Tags Files Images].
    rewrite F, map_app. cbn [map]. rewrite <- app_assoc. reflexivity. }
  rewrite Items in Perm.
  assert (In (tagItem (setName name tag)) sorted) as Hin.
  { eapply Permutation_in; [exact Perm|]. apply in_or_app. right. left. reflexivity. }
  apply in_split in Hin as (l1 & l2 & ->).
  apply Permutation_app_inv in Perm.
  assert (O : Forall (ownText text) (l1 ++ l2)).
  { eapply Permutation_Forall; [exact Perm|]. rewrite !Forall_app. auto. }
  apply Forall_app in O as (O1 & O2).
  rewrite spliced_one_changed;
    [reflexivity|lia|exact W| |exact S|exact O1|exact O2].
  eapply Forall_impl; [|exact W]. intros it (_ & B & _). lia.
Qed.

(** The note with one of its tags renamed is written as the note
    is, the rendering of that tag apart: the other items are written
    in the same places and the content between them is the same. *)
Lemma renamed_in_place text tags1 name tag tags2 :
  ForallOrdPairs disjoint (noteItems (LoadNote U text)) ->
  Tags (LoadNote U text) = tags1 ++ tag :: tags2 ->
  exists l1 l2,
    Permutation (l1 ++ l2)
                (map tagItem (tags1 ++ tags2)
                   ++ map fileItem (Files (LoadNote U text))
                   ++ map imageItem (Images (LoadNote U text))) /\
    StronglySorted (fun x y => spanEnd x <= spanStart y)
                   (l1 ++ tagItem tag :: l2) /\
    WriteNote sort_Slice (LoadNote U text)
    = Some (splicedTo text l1 0 (spanStart (tagItem tag))
              ++ Tag.String tag
              ++ spliced text l2 (spanEnd (tagItem tag))) /\
    WriteNote sort_Slice (renamed text tags1 name tag tags2)
    = Some (splicedTo text l1 0 (spanStart (tagItem tag))
              ++ Tag.String (setName name tag)
              ++ spliced text l2 (spanEnd (tagItem tag))).
Proof.
  intros D E.
  pose proof (renamed_positions text tags1 name tag tags2 E) as P.
  set (note := LoadNote U text) in *.
  set (note' := renamed text tags1 name tag tags2) in *.
  set (B := map tagItem tags2 ++ map fileItem (Files note)
              ++ map imageItem (Images note)).
  assert (I : collectItems note = map tagItem tags1 ++ tagItem tag :: B).
  { rewrite collectItems_eq, E, map_app. cbn [map]. unfold B.
    rewrite <- app_assoc. reflexivity. }
  assert (I' : collectItems note'
               = map tagItem tags1 ++ tagItem (setName name tag) :: B).
  { rewrite collectItems_eq. unfold note', renamed. cbn [Tags Files Images].
    rewrite map_app. cbn [map]. unfold B. rewrite <- app_assoc. reflexivity. }
  rewrite <- collectItems_noteItems in D.
  assert (W : Forall (wellPlaced text) (collectItems note))
    by apply LoadNote_wellPlaced.
  assert (W' : Forall (wellPlaced text) (collectItems note'))
    by (eapply Forall_wellPlaced_positions; [exact P|exact W]).
  assert (D' : ForallOrdPairs disjoint (collectItems note'))
    by (eapply ForallOrdPairs_disjoint_positions; eauto).
  destruct (WriteNote_spliced sort_Slice sort_Slice_spec note W D)
    as (sorted & Perm & S & _ & R).
  destruct (WriteNote_spliced sort_Slice sort_Slice_spec note' W' D')
    as (sorted' & Perm' & S' & _ & R').
  cbn [content note note' renamed LoadNote] in R, R'.
  replace (content (LoadNote U text)) with text in R
    by (symmetry; apply LoadNote_content).
  rewrite I in Perm. rewrite I' in Perm'.
  assert (In (tagItem (setName name tag)) sorted') as Hin.
  { eapply Permutation_in; [exact Perm'|]. apply in_or_app. right. left. reflexivity. }
  apply in_split in Hin as (l1 & l2 & ->).
  apply Permutation_app_inv in Perm'.
  exists l1, l2.
  assert (Q : map item_position (l1 ++ tagItem (setName name tag) :: l2)
              = map item_position (l1 ++ tagItem tag :: l2)).
  { rewrite !map_app. reflexivity. }
  assert (So : StronglySorted (fun x y => spanEnd x <= spanStart y)
                              (l1 ++ tagItem tag :: l2))
    by (eapply StronglySorted_positions; [exact Q|exact S']).
  assert (Eq : sorted = l1 ++ tagItem tag :: l2).
  { pose proof (LoadNote_spans U text) as Ne.
    rewrite <- collectItems_noteItems in Ne. fold note in Ne. rewrite I in Ne.
    assert (Pm : Permutation sorted (l1 ++ tagItem tag :: l2)).
    { eapply Permutation_trans; [apply Permutation_sym, Perm|].
      apply Permutation_elt. exact Perm'. }
    apply (sorted_unique _ (fun x y => spanStart x < spanStart y)).
    - intros; lia.
    - apply strictly_sorted; [|exact S]. eapply Permutation_Forall; eauto.
    - apply strictly_sorted; [|exact So].
      eapply Permutation_Forall; [|exact Ne].
      apply Permutation_elt. exact Perm'.
    - exact Pm. }
  split.
  { apply Permutation_sym. unfold B in Perm'.
    rewrite map_app, <- app_assoc. exact Perm'. }
  split; [exact So|]. split.
  - rewrite R, Eq, spliced_app. reflexivity.
  - rewrite R', spliced_app. reflexivity.
Qed.

End Removal.

(** C8 as stated fails in its second part for a tag that lies in the
    description of an image: the spans overlap and [WriteNote] panics,
    with the name of the tag emptied or not. *)
Lemma Tag_String_cases_counterexample :
  let text := str "![a #foo b](x)" in
  let tag := Tag.mk (str "foo") [3; 9] (str " ") (str " ") in
  Tags (LoadNote latin1Tables text) = [tag] /\
  WriteNote (sort.insertionSort updatedItem) (renamed latin1Tables text [] [] tag [])
  = None.
Proof. split; vm_compute; reflexivity. Qed.

(** C8, amended. The rendering of a tag with an empty name is its two
    boundaries; the rendering of a tag with a name is the boundary
    before, the hashtag, the name and the boundary after. In a note read
    from a text, whatever its file attachments and its images, when no
    two items overlap, emptying the name of a tag and writing the note
    gives what writing the note gives with, in place of the boundary
    before, the hashtag, the name and the boundary after of that tag,
    the two boundaries only: the other items are written in the same
    places and the text between the items is the same. When the other
    items leave the text as it is, the result is the text with the span
    of the tag replaced by its two boundaries. *)
Theorem Tag_String_cases :
  (forall position before after,
      Tag.String (Tag.mk [] position before after) = before ++ after) /\
  (forall c name position before after,
      Tag.String (Tag.mk (c :: name) position before after)
      = before ++ str "#" ++ (c :: name) ++ after) /\
  (forall sort_Slice U text tags1 tag tags2,
      sort.Slice_spec updatedItem sort_Slice ->
      ForallOrdPairs disjoint (noteItems (LoadNote U text)) ->
      Tags (LoadNote U text) = tags1 ++ tag :: tags2 ->
      between text (spanStart (tagItem tag)) (spanEnd (tagItem tag))
      = Tag.before tag ++ str "#" ++ Tag.Name tag ++ Tag.after tag /\
      exists earlier later,
        Permutation (earlier ++ later)
                    (map tagItem (tags1 ++ tags2)
                       ++ map fileItem (Files (LoadNote U text))
                       ++ map imageItem (Images (LoadNote U text))) /\
        StronglySorted (fun x y => spanEnd x <= spanStart y)
                       (earlier ++ tagItem tag :: later) /\
        WriteNote sort_Slice (LoadNote U text)
        = Some (splicedTo text earlier 0 (spanStart (tagItem tag))
                  ++ (Tag.before tag ++ str "#" ++ Tag.Name tag ++ Tag.after tag)
                  ++ spliced text later (spanEnd (tagItem tag))) /\
        WriteNote sort_Slice (renamed U text tags1 [] tag tags2)
        = Some (splicedTo text earlier 0 (spanStart (tagItem tag))
                  ++ (Tag.before tag ++ Tag.after tag)
                  ++ spliced text later (spanEnd (tagItem tag)))) /\
  (forall sort_Slice U text tags1 tag tags2,
      sort.Slice_spec updatedItem sort_Slice ->
      Files (LoadNote U text) = [] ->
      Forall (ownText text) (map imageItem (Images (LoadNote U text))) ->
      ForallOrdPairs disjoint (noteItems (LoadNote U text)) ->
      Tags (LoadNote U text) = tags1 ++ tag :: tags2 ->
      WriteNote sort_Slice (renamed U text tags1 [] tag tags2)
      = Some (between text 0 (spanStart (tagItem tag))
                ++ (Tag.before tag ++ Tag.after tag)
                ++ skipn (Z.to_nat (spanEnd (tagItem tag))) text)).
Proof.
  assert (Own : forall U text tags1 tag tags2,
             Tags (LoadNote U text) = tags1 ++ tag :: tags2 ->
             Tag.String tag
             = Tag.before tag ++ str "#" ++ Tag.Name tag ++ Tag.after tag /\
             between text (spanStart (tagItem tag)) (spanEnd (tagItem tag))
             = Tag.String tag).
  { intros U text tags1 tag tags2 E.
    pose proof (Tags_ownText U text) as OT. rewrite E, map_app in OT.
    apply Forall_app in OT as (_ & OT). inversion OT as [|? ? O _]; subst.
    unfold ownText in O. rewrite <- O. cbn [tagItem item_content].
    split; [|reflexivity].
    assert (N : named tag = true).
    { assert (In tag (Tags (LoadNote U text)))
        by (rewrite E; apply in_or_app; right; left; reflexivity).
      rewrite LoadNote_Tags in H. apply filter_In in H as (_ & H). exact H. }
    unfold named in N. unfold Tag.String.
    replace (len (Tag.Name tag) =? 0) with false; [reflexivity|].
    symmetry. apply Z.eqb_neq. apply Z.ltb_lt in N. lia. }
  split; [reflexivity|]. split; [|split].
  - intros c name position before after. unfold Tag.String, len. cbn [Tag.Name List.length].
    replace (Z.of_nat (S (List.length name)) =? 0) with false
      by (symmetry; apply Z.eqb_neq; lia).
    reflexivity.
  - intros sort_Slice U text tags1 tag tags2 C D E.
    destruct (Own U text tags1 tag tags2 E) as (R & Sp).
    split; [rewrite Sp; exact R|].
    destruct (renamed_in_place sort_Slice C U text tags1 [] tag tags2 D E)
      as (l1 & l2 & Pm & So & W & W').
    exists l1, l2. split; [exact Pm|]. split; [exact So|].
    rewrite <- R. split; [exact W|exact W'].
  - intros sort_Slice U text tags1 tag tags2 C F I D E.
    rewrite <- collectItems_noteItems in D.
    rewrite (renamed_spliced sort_Slice C U text tags1 [] tag tags2 F I D E).
    reflexivity.
Qed.

(** A text with a file attachment and three tags, the second of which
    is emptied. *)
Lemma Tag_String_cases_witness :
  let text := str "<a href='x'>n</a> #foo and #bar
- #baz" in
  let foo := Tag.mk (str "foo") [17; 23] (str " ") (str " ") in
  let bar := Tag.mk (str "bar") [26; 31] (str " ") [] in
  let baz := Tag.mk (str "baz") [33; 38] (str " ") [] in
  exists earlier later,
    Permutation (earlier ++ later)
                (map tagItem ([foo] ++ [baz])
                   ++ map fileItem (Files (LoadNote latin1Tables text))
                   ++ map imageItem (Images (LoadNote latin1Tables text))) /\
    StronglySorted (fun x y => spanEnd x <= spanStart y)
                   (earlier ++ tagItem bar :: later) /\
    WriteNote (sort.insertionSort updatedItem) (LoadNote latin1Tables text)
    = Some (splicedTo text earlier 0 (spanStart (tagItem bar))
              ++ (Tag.before bar ++ str "#" ++ Tag.Name bar ++ Tag.after bar)
              ++ spliced text later (spanEnd (tagItem bar))) /\
    WriteNote (sort.insertionSort updatedItem)
              (renamed latin1Tables text [foo] [] bar [baz])
    = Some (splicedTo text earlier 0 (spanStart (tagItem bar))
              ++ (Tag.before bar ++ Tag.after bar)
              ++ spliced text later (spanEnd (tagItem bar))).
Proof.
  cbv zeta.
  apply (proj1 (proj2 (proj2 Tag_String_cases))
               (sort.insertionSort updatedItem) latin1Tables
               (str "<a href='x'>n</a> #foo and #bar
- #baz")
               [Tag.mk (str "foo") [17; 23] (str " ") (str " ")]
               (Tag.mk (str "bar") [26; 31] (str " ") [])
               [Tag.mk (str "baz") [33; 38] (str " ") []]).
  - apply insertionSort_spec.
  - match goal with
    | |- ForallOrdPairs disjoint ?x =>
        let l := eval vm_compute in x in change x with l
    end.
    repeat constructor; unfold disjoint, spanStart, spanEnd; cbn; lia.
  - vm_compute. reflexivity.
Defined.

(** ** The boundaries of a tag *)

(** A tag that [LoadNote] keeps: its span is the text of its boundaries,
    the hashtag and its name, and each boundary is empty or a space. *)
Lemma tagOf_fields U content m :
  Found U reTag content m -> (fst m <= snd m <= List.length content)%nat ->
  named (tagOf U content m) = true ->
  let tag := tagOf U content m in
  Tag.position tag = matchSlice m /\
  sub content (fst m) (snd m)
  = Tag.before tag ++ str "#" ++ Tag.Name tag ++ Tag.after tag /\
  boundaryOk (Tag.before tag) && boundaryOk (Tag.after tag) = true.
Proof.
  intros F B N. cbv zeta. split; [apply tagOf_position; exact N|]. split.
  - rewrite <- (tagOf_String U content m F B N). unfold Tag.String.
    unfold named in N. replace (len (Tag.Name (tagOf U content m)) =? 0) with false;
      [reflexivity|].
    symmetry. apply Z.eqb_neq. apply Z.ltb_lt in N. lia.
  - revert N. unfold tagOf, NewTag, named.
    destruct (FindStringSubmatch U reTag _) as [parts|]; [|intros N; discriminate N].
    cbv zeta. fold (boundaryOk (nth 1 parts [])) (boundaryOk (nth 3 parts [])).
    destruct (boundaryOk (nth 1 parts []) && boundaryOk (nth 3 parts [])) eqn:E;
      [intros _; exact E|intros N; discriminate N].
Qed.

(** C3: the rule that a tag stands between spaces or nothing, which
    the comments of [init] and of [NewTag] state and the claim repeats,
    does not hold of [LoadNote]. After a match of the pattern that
    [NewTag] rejects, a hashtag glued to the last character of that
    match starts a tag, whatever that character: the search goes on
    after the character, where the boundary before the hashtag is
    empty. *)
Lemma tag_validity_counterexample :
  let content := str "#a!#b" in
  let list := str "#tag1,#tag2" in
  (Tags (LoadNote latin1Tables content) = [Tag.mk (str "b") [3; 5] [] []] /\
   between content 2 3 = str "!" /\
   IsSpace (rune "!") = false) /\
  (Tags (LoadNote latin1Tables list) = [Tag.mk (str "tag2") [6; 11] [] []] /\
   between list 5 6 = str "," /\
   IsSpace (rune ",") = false).
Proof. repeat split; vm_compute; reflexivity. Qed.

(** The tags that [LoadNote] keeps (C3). The three inputs of the
    claim: [#test/123] gives one
    tag named [test/123]; [a#b] and [ #trap#] give none. A tag made by
    [NewTag] has a name only when each of its two boundaries is absent
    or a Unicode space; for every tag of a note, the text of its span is
    its boundaries around the hashtag and the name. Where the boundary
    after is absent, the name ends the text or a newline follows it;
    where the boundary before is absent, the hashtag starts the text,
    follows a newline, or follows the end of a match of the pattern. *)
Theorem tag_validity U :
  Tags (LoadNote U (str "#test/123")) = [Tag.mk (str "test/123") [0; 9] [] []] /\
  Tags (LoadNote U (str "a#b")) = [] /\
  Tags (LoadNote U (str " #trap#")) = [] /\
  (forall content position,
      let tag := NewTag U content position in
      Tag.Name tag = [] \/
      boundaryOk (Tag.before tag) && boundaryOk (Tag.after tag) = true) /\
  (forall content,
      Forall (fun tag =>
                between content (spanStart (tagItem tag)) (spanEnd (tagItem tag))
                = Tag.before tag ++ str "#" ++ Tag.Name tag ++ Tag.after tag /\
                boundaryOk (Tag.before tag) && boundaryOk (Tag.after tag) = true)
             (Tags (LoadNote U content))) /\
  (forall content,
      Forall (fun tag =>
                exists m0 m1,
                  Tag.position tag = matchSlice (m0, m1) /\
                  (Tag.before tag = [] ->
                   m0 = 0%nat \/ matchEndsAt U content m0 \/ newlineBefore content m0) /\
                  (Tag.after tag = [] ->
                   m1 = List.length content \/ newlineAt content m1))
             (Tags (LoadNote U content))).
Proof.
  split; [vm_compute; reflexivity|]. split; [vm_compute; reflexivity|].
  split; [vm_compute; reflexivity|]. split; [|split].
  - intros content position. cbv zeta. unfold NewTag.
    destruct (FindStringSubmatch U reTag content) as [parts|]; [|left; reflexivity].
    cbv zeta. fold (boundaryOk (nth 1 parts [])) (boundaryOk (nth 3 parts [])).
    destruct (boundaryOk (nth 1 parts []) && boundaryOk (nth 3 parts [])) eqn:E.
    + right. exact E.
    + left. reflexivity.
  - intros content. rewrite LoadNote_Tags.
    destruct (FindAllStringIndex_spec U reTag content) as (B & _).
    pose proof (FindAllStringIndex_found U reTag content) as F.
    induction (FindAllStringIndex U reTag content) as [|m ms IH]; [constructor|].
    inversion B as [|? ? (Bm & _) B']; subst. inversion F as [|? ? Fm F']; subst.
    cbn [map filter]. destruct (named (tagOf U content m)) eqn:N; [|auto].
    constructor; [|auto].
    destruct (tagOf_fields U content m Fm Bm N) as (P & T & K).
    split; [|exact K].
    unfold spanStart, spanEnd, tagItem. cbn [item_position]. rewrite P.
    cbn [matchSlice nth]. rewrite between_sub. exact T.
  - exact (boundaryFacts.Tags_boundaries U).
Qed.

Lemma tag_validity_witness :
  exists m0 m1,
    [3; 5] = matchSlice (m0, m1) /\
    (m0 = 0%nat \/ matchEndsAt latin1Tables (str "#a!#b") m0 \/
     newlineBefore (str "#a!#b") m0) /\
    (m1 = List.length (str "#a!#b") \/ newlineAt (str "#a!#b") m1).
Proof.
  pose proof (proj2 (proj2 (proj2 (proj2 (proj2 (tag_validity latin1Tables)))))
                    (str "#a!#b")) as H.
  change (Tags (LoadNote latin1Tables (str "#a!#b")))
    with [Tag.mk (str "b") [3; 5] [] []] in H.
  apply Forall_inv in H. destruct H as (m0 & m1 & P & Hb & Ha).
  exists m0, m1. split; [exact P|].
  split; [apply Hb; reflexivity|apply Ha; reflexivity].
Defined.

(** ** Escaping and decoding *)

(** C10, amended. Decoding the result of [escapePath] gives the path
    back, with no error: the path that [File.String] and [Image.String]
    write between the parentheses decodes to the location. Reading the
    rendering of an image with [NewImage] gives its location back when
    the description holds no closing bracket, and the whole image when
    moreover the location is not empty. Reading the rendering of a file
    with [NewFile] gives the zero [File] when the name holds no opening
    angle bracket; a name that holds an anchor is read as that anchor. *)
Theorem PathUnescape_escapePath_roundtrip U :
  (forall p, url.PathUnescape (escapePath p) = (p, None)) /\
  (forall file,
      exists path,
        File.String file = str "[" ++ File.Name file ++ str "](" ++ path ++ str ")" /\
        url.PathUnescape path = (File.Location file, None)) /\
  (forall image,
      exists path,
        Image.String image
        = str "![" ++ Image.Description image ++ str "](" ++ path ++ str ")" /\
        url.PathUnescape path = (Image.Location image, None)) /\
  (forall image position,
      Forall (fun b => b2z b <> 0x5D) (Image.Description image) ->
      Image.Location (NewImage U (Image.String image) position)
      = Image.Location image /\
      (Image.Location image <> [] ->
       NewImage U (Image.String image) position
       = Image.mk (Image.Location image) (Image.Description image) position)) /\
  (forall file position,
      ~ In x3c (File.Name file) ->
      NewFile U (File.String file) position = File.zero) /\
  (let file := File.mk (str "y") (str "<a href='x'>n</a>") [] in
   File.String file = str "[<a href='x'>n</a>](y)" /\
   NewFile latin1Tables (File.String file) [0; 22]
   = File.mk (str "x") (str "n") [0; 22]).
Proof.
  split; [exact PathUnescape_escapePath|]. split; [|split; [|split; [|split]]].
  - intros file. exists (escapePath (File.Location file)).
    split; [reflexivity|apply PathUnescape_escapePath].
  - intros image. exists (escapePath (Image.Location image)).
    split; [reflexivity|apply PathUnescape_escapePath].
  - intros image position D. split.
    + apply imageFacts.NewImage_String_Location, D.
    + intros N. apply imageFacts.NewImage_String; assumption.
  - intros file position N. apply NewFile_String_zero, N.
  - split; vm_compute; reflexivity.
Qed.

Lemma PathUnescape_escapePath_roundtrip_witness :
  let image := Image.mk (str "a b/c(d)") (str "e") [] in
  Image.String image = str "![e](a%20b/c%28d%29)" /\
  NewImage latin1Tables (Image.String image) [0; 20]
  = Image.mk (str "a b/c(d)") (str "e") [0; 20].
Proof.
  split; [reflexivity|].
  refine (proj2 (proj1 (proj2 (proj2 (proj2 (PathUnescape_escapePath_roundtrip
                                                latin1Tables))))
                   (Image.mk (str "a b/c(d)") (str "e") []) [0; 20] _) _).
  - repeat constructor; discriminate.
  - discriminate.
Defined.

(** ** The grammar of tags *)

Lemma Encodes_ascii b : b2z b < utf8.RuneSelf -> Encodes [b] (b2z b).
Proof.
  intros A. split; [discriminate|]. intros t. cbn [app List.length].
  apply utf8Facts.DecodeRune_ascii. exact A.
Qed.

(** The names and the space of the witnesses. *)
Lemma TagName_one U : TagName U (str "one").
Proof.
  exists [x6f], (b2z x6f), (str "ne"). split; [reflexivity|].
  split; [apply Encodes_ascii; reflexivity|]. split; [reflexivity|].
  apply (RunesCons _ [x6e] (b2z x6e) [x65]);
    [apply Encodes_ascii; reflexivity|reflexivity|].
  apply (RunesCons _ [x65] (b2z x65) []);
    [apply Encodes_ascii; reflexivity|reflexivity|constructor].
Qed.

Lemma TagName_two U : TagName U (str "two").
Proof.
  exists [x74], (b2z x74), (str "wo"). split; [reflexivity|].
  split; [apply Encodes_ascii; reflexivity|]. split; [reflexivity|].
  apply (RunesCons _ [x77] (b2z x77) [x6f]);
    [apply Encodes_ascii; reflexivity|reflexivity|].
  apply (RunesCons _ [x6f] (b2z x6f) []);
    [apply Encodes_ascii; reflexivity|reflexivity|constructor].
Qed.





(** C7. Two tags separated by one space are both found, although the
    match of the first one takes the space: the second match starts at
    the hashtag, with nothing before it. This holds for the two tags of
    the tests and for any two names of the grammar with one space rune
    between them; when the space is a newline the first match stops
    before it. *)
Theorem adjacent_tags U :
  Tags (LoadNote U (str "#one #two"))
  = [Tag.mk (str "one") [0; 5] [] (str " "); Tag.mk (str "two") [5; 9] [] []] /\
  (forall n1 n2 w wr,
      TagName U n1 -> TagName U n2 ->
      Encodes w wr -> IsSpace wr = true -> nameNext U wr = false ->
      Tags (LoadNote U (twoTags n1 w n2))
      = [Tag.mk n1 [0; Z.of_nat (1 + List.length n1 + List.length (afterSpace w wr))]
                [] (afterSpace w wr);
         Tag.mk n2 [Z.of_nat (1 + List.length n1 + List.length w); len (twoTags n1 w n2)]
                [] []]).
Proof.
  split; [vm_compute; reflexivity|].
  intros n1 n2 w wr N1 N2 E S X. apply LoadNote_two_tags; assumption.
Qed.

Lemma adjacent_tags_witness :
  Tags (LoadNote latin1Tables (twoTags (str "one") [x09] (str "two")))
  = [Tag.mk (str "one") [0; 5] [] [x09]; Tag.mk (str "two") [5; 9] [] []].
Proof.
  apply (proj2 (adjacent_tags latin1Tables) (str "one") (str "two") [x09] (b2z x09)).
  - apply TagName_one.
  - apply TagName_two.
  - apply Encodes_ascii. reflexivity.
  - reflexivity.
  - reflexivity.
Defined.

(** * The tests of the package

    The note of [TestLoadNote], the fields that the test reads, the
    changes that it makes and the note that it expects back. *)

Import Examples.

Lemma TestLoadNote U :
  let note := LoadNote U testNote in
  map Tag.Name (Tags note)
  = map str ["tag"; "foo"; "foo/bar@baz"; "and-a_very%special$one/avec/des/éèà"; "end"]%string /\
  map File.Name (Files note) = map str ["my file.pdf"; "my other file.pdf"]%string /\
  map Image.Location (Images note) = map str ["note/image 2.jpg"; "note/no-alt.jpg"]%string /\
  WriteNote (sort.insertionSort updatedItem) (testChanges note) = Some testExpected.
Proof. cbv zeta. repeat split; vm_compute; reflexivity. Qed.

Lemma TestNewTag U :
  let tag := NewTag U (str "#test/123") [0; 9] in
  Tag.Name tag = str "test/123" /\
  Tag.String tag = str "#test/123" /\
  Tag.String (setName [] tag) = [].
Proof. cbv zeta. repeat split; vm_compute; reflexivity. Qed.

Lemma TestNewFile U :
  let file := NewFile U (str "<a href='note/my%20file.pdf'>my file.pdf</a>") [0; 44] in
  File.Location file = str "note/my file.pdf" /\
  File.Name file = str "my file.pdf" /\
  File.String file = str "[my file.pdf](note/my%20file.pdf)".
Proof. cbv zeta. repeat split; vm_compute; reflexivity. Qed.

Lemma TestNewImage U :
  let image := NewImage U (str "![my image](note/image%202.jpg)") [0; 31] in
  Image.Location image = str "note/image 2.jpg" /\
  Image.Description image = str "my image" /\
  Image.String image = str "![my image](note/image%202.jpg)".
Proof. cbv zeta. repeat split; vm_compute; reflexivity. Qed.

Lemma TestNewTagLookAround U :
  map (fun content => Tag.Name (NewTag U (str content) [0; len (str content)]))
      [" #test/123 "; "/#trap "; " #trap#"; "#ok"]%string
  = map str ["test/123"; ""; ""; "ok"]%string.
Proof. vm_compute. reflexivity. Qed.

(** * Further properties of the package *)

(** ** When [WriteNote] returns *)

Module writeFacts.

Import bearnotes sort Spec sortFacts serializerFacts.

Lemma slice_Some content lo hi excerpt :
  slice content lo hi = Some excerpt -> 0 <= lo <= hi /\ hi <= len content.
Proof.
  unfold slice. intros H.
  destruct (0 <=? lo) eqn:A; [|discriminate H].
  destruct (lo <=? hi) eqn:B; [|discriminate H].
  destruct (hi <=? len content) eqn:C; [|discriminate H].
  apply Z.leb_le in A, B, C. lia.
Qed.

Lemma index_Some position :
  forall a b, index position 0 = Some a -> index position 1 = Some b ->
              (2 <= List.length position)%nat /\ nth 0 position 0 = a /\
              nth 1 position 0 = b.
Proof.
  destruct position as [|x [|y p]]; cbn; intros a b A B; try discriminate.
  injection A as <-. injection B as <-. repeat split; lia.
Qed.

(** The copy loop returns exactly when the bounds hold all along. *)
Lemma copyItems_chained content : forall items current newContent,
  copyItems content items current newContent <> None <->
  chained content items current.
Proof.
  induction items as [|it items IH]; intros current newContent;
    cbn [copyItems chained].
  - destruct (slice content current (len content)) as [tail|] eqn:S.
    + apply slice_Some in S. split; [lia|discriminate].
    + split; [congruence|]. intros H. exfalso.
      rewrite slice_between in S by lia. discriminate S.
  - unfold spanStart, spanEnd.
    destruct (index (item_position it) 0) as [p0|] eqn:E0.
    2:{ split; [congruence|]. intros (L & _).
        destruct (item_position it) as [|x p]; [cbn in L; lia|discriminate E0]. }
    destruct (slice content current p0) as [excerpt|] eqn:S.
    2:{ split; [congruence|]. intros (L & B1 & B2 & _).
        destruct (item_position it) as [|x p]; [discriminate E0|].
        cbn in E0. injection E0 as ->. cbn [nth] in B1, B2.
        rewrite slice_between in S by lia. discriminate S. }
    destruct (index (item_position it) 1) as [p1|] eqn:E1.
    2:{ split; [congruence|]. intros (L & _).
        destruct (item_position it) as [|x [|y p]]; cbn in L; try lia.
        discriminate E1. }
    destruct (index_Some _ _ _ E0 E1) as (L & -> & ->).
    apply slice_Some in S. rewrite IH. tauto.
Qed.

Lemma chained_sorted content : forall items current,
  Forall (fun it => spanStart it <= spanEnd it) items ->
  chained content items current ->
  Forall (fun it => current <= spanStart it) items /\
  StronglySorted (fun x y => spanEnd x <= spanStart y) items.
Proof.
  induction items as [|it items IH]; intros current V C.
  - split; constructor.
  - inversion V as [|? ? Vit V']; subst. destruct C as (_ & B1 & _ & C).
    destruct (IH _ V' C) as (F & S). split.
    + constructor; [lia|]. eapply Forall_impl; [|exact F]. cbv beta. intros; lia.
    + constructor; [exact S|exact F].
Qed.

Lemma chained_in_range content : forall items current,
  chained content items current ->
  Forall (fun it => (2 <= List.length (item_position it))%nat /\
                    0 <= spanStart it <= len content) items.
Proof.
  induction items as [|it items IH]; intros current C; [constructor|].
  destruct C as (L & B1 & B2 & C). constructor; [split; [exact L|lia]|eauto].
Qed.

Lemma StronglySorted_ForallOrdPairs (A : Type) (R Q : A -> A -> Prop) l :
  (forall x y, R x y -> Q x y) -> StronglySorted R l -> ForallOrdPairs Q l.
Proof.
  intros I. induction 1 as [|x l S IH F]; constructor; [|exact IH].
  eapply Forall_impl; [|exact F]. auto.
Qed.

End writeFacts.

Import unicode regexp bearnotes Spec Examples.
Import sortFacts serializerFacts packageFacts writeFacts.

(** X1. The items of a note are its tags, its files and its images,
    each with its rendering and its position. When their spans lie in
    the content, [WriteNote] returns a string exactly when, of any two
    of these items, one ends where the other starts or before: on two
    spans that overlap it panics on a slice expression, whatever the
    order in which [sort.Slice] leaves the items. *)
Theorem WriteNote_returns_iff_disjoint
        (sort_Slice : (updatedItem -> updatedItem -> bool) ->
                      list updatedItem -> list updatedItem)
        (note : Note) :
  sort.Slice_spec updatedItem sort_Slice ->
  Forall (wellPlaced (content note)) (noteItems note) ->
  WriteNote sort_Slice note <> None <->
  ForallOrdPairs disjoint
                 (map tagItem (Tags note) ++ map fileItem (Files note)
                    ++ map imageItem (Images note)).
Proof.
  intros C W. fold (noteItems note).
  rewrite <- (spanFacts.collectItems_noteItems note) in *. split.
  - unfold WriteNote. intros H. apply copyItems_chained in H.
    destruct (C less (collectItems note)) as (P & _).
    apply (ForallOrdPairs_perm _ disjoint disjoint_sym _ _ (Permutation_sym P)).
    apply (StronglySorted_ForallOrdPairs _ (fun x y => spanEnd x <= spanStart y)).
    + unfold disjoint. auto.
    + apply (chained_sorted (content note) _ 0); [|exact H].
      eapply Permutation_Forall; [exact P|].
      eapply Forall_impl; [|exact W]. intros it (_ & B & _). lia.
  - intros D.
    destruct (sort_Slice_in_order sort_Slice C _ _ W D) as (P & W' & S).
    unfold WriteNote. rewrite (copyItems_spliced (content note)); auto.
    + discriminate.
    + unfold len. lia.
    + eapply Forall_impl; [|exact W']. intros it (_ & B & _). lia.
Qed.

Lemma WriteNote_returns_iff_disjoint_witness :
  let note := LoadNote latin1Tables (str "![a #foo b](x)") in
  WriteNote (sort.insertionSort updatedItem) note <> None <->
  ForallOrdPairs disjoint
                 (map tagItem (Tags note) ++ map fileItem (Files note)
                    ++ map imageItem (Images note)).
Proof.
  apply (WriteNote_returns_iff_disjoint
           (sort.insertionSort updatedItem)
           (LoadNote latin1Tables (str "![a #foo b](x)"))).
  - apply insertionSort_spec.
  - rewrite <- spanFacts.collectItems_noteItems. apply LoadNote_wellPlaced.
Defined.

(** X2. [WriteNote] returns a string only for a note in which every
    tag, every file and every image has the two offsets of a position
    and starts inside the content: a tag, a file or an image without
    position, like the zero [Tag] that [NewTag] gives for a text with no
    valid tag, makes it panic. *)
Theorem WriteNote_returns_only_in_range
        (sort_Slice : (updatedItem -> updatedItem -> bool) ->
                      list updatedItem -> list updatedItem)
        (note : Note) (newContent : gostring) :
  sort.Slice_spec updatedItem sort_Slice ->
  WriteNote sort_Slice note = Some newContent ->
  Forall (fun tag => (2 <= List.length (Tag.position tag))%nat /\
                     0 <= nth 0 (Tag.position tag) 0 <= len (content note))
         (Tags note) /\
  Forall (fun file => (2 <= List.length (File.position file))%nat /\
                      0 <= nth 0 (File.position file) 0 <= len (content note))
         (Files note) /\
  Forall (fun image => (2 <= List.length (Image.position image))%nat /\
                       0 <= nth 0 (Image.position image) 0 <= len (content note))
         (Images note).
Proof.
  intros C H. unfold WriteNote in H.
  assert (N : copyItems (content note) (sort_Slice less (collectItems note)) 0 [] <> None)
    by congruence.
  apply copyItems_chained, chained_in_range in N.
  destruct (C less (collectItems note)) as (P & _).
  apply (Permutation_Forall (Permutation_sym P)) in N.
  rewrite collectItems_eq, !Forall_app in N. destruct N as (T & F & I).
  rewrite !Forall_map in T, F, I. auto.
Qed.

Lemma WriteNote_returns_only_in_range_witness :
  let note := LoadNote latin1Tables (str "a #b c") in
  Forall (fun tag => (2 <= List.length (Tag.position tag))%nat /\
                     0 <= nth 0 (Tag.position tag) 0 <= len (content note))
         (Tags note) /\
  Forall (fun file => (2 <= List.length (File.position file))%nat /\
                      0 <= nth 0 (File.position file) 0 <= len (content note))
         (Files note) /\
  Forall (fun image => (2 <= List.length (Image.position image))%nat /\
                       0 <= nth 0 (Image.position image) 0 <= len (content note))
         (Images note).
Proof.
  apply (WriteNote_returns_only_in_range
           (sort.insertionSort updatedItem)
           (LoadNote latin1Tables (str "a #b c")) (str "a #b c")).
  - apply insertionSort_spec.
  - vm_compute. reflexivity.
Defined.

(** ** Reading an image *)

(** X3. [NewImage] reads the Markdown of an image whole: the
    description is any text without a closing bracket, the path any
    text, not empty, without an opening parenthesis (closing
    parentheses are part of the path, which goes to the last one), and
    the location is the decoded path, empty when the path does not
    decode. *)
Theorem NewImage_reads_markdown U description path position :
  Forall (fun b => b2z b <> 0x5D) description ->
  path <> [] -> Forall (fun b => b2z b <> 0x28) path ->
  NewImage U (str "![" ++ description ++ str "](" ++ path ++ str ")") position
  = Image.mk (fst (url.PathUnescape path)) description position.
Proof.
  intros D N P. unfold NewImage.
  rewrite (imageFacts.FindStringSubmatch_image U description path D N P).
  reflexivity.
Qed.

Lemma NewImage_reads_markdown_witness :
  NewImage latin1Tables (str "![" ++ str "a b" ++ str "](" ++ str "x%20y).png" ++ str ")")
           [0; 18]
  = Image.mk (str "x y).png") (str "a b") [0; 18].
Proof.
  apply (NewImage_reads_markdown latin1Tables (str "a b") (str "x%20y).png") [0; 18]).
  - repeat constructor; discriminate.
  - discriminate.
  - repeat constructor; discriminate.
Defined.

(** ** Tags and their text *)

(** X4. Every tag that [LoadNote] finds renders, by [Tag.String], to the
    text of its own span: a tag that is not changed leaves the note as
    it is. *)
Theorem Tag_String_is_span_text U content :
  Forall (fun tag =>
            Tag.String tag
            = between content (spanStart (tagItem tag)) (spanEnd (tagItem tag)))
         (Tags (LoadNote U content)).
Proof.
  pose proof (Tags_ownText U content) as H. rewrite Forall_map in H. exact H.
Qed.

(** ** The bytes of an escaped path *)

Lemma inAlphabet_escapePathByte b :
  forallb inAlphabet (escapePathByte b) = true.
Proof. destruct b; vm_compute; reflexivity. Qed.

(** X5. [escapePath] writes only letters, digits and the marks
    [-_.~$&+:=@/%]: whatever the path, the text written between the
    parentheses of a link or of an image holds no space, quote,
    parenthesis, bracket, hashtag, exclamation mark or angle bracket. *)
Theorem escapePath_alphabet p :
  Forall (fun b => In b pathAlphabet) (escapePath p) /\
  Forall (fun b => ~ In b (str " '()[]#!<>") /\ b <> x22) (escapePath p).
Proof.
  assert (A : Forall (fun b => inAlphabet b = true) (escapePath p)).
  { rewrite pathFacts.escapePath_bytes. induction p as [|b t IH]; [constructor|].
    cbn [flat_map]. apply Forall_app. split; [|exact IH].
    apply Forall_forall. intros x X.
    pose proof (inAlphabet_escapePathByte b) as H.
    rewrite forallb_forall in H. apply H, X. }
  split; (eapply Forall_impl; [|exact A]); cbv beta; intros b H.
  - unfold inAlphabet in H. apply existsb_exists in H as (x & I & E).
    apply Byte.byte_dec_bl in E. subst x. exact I.
  - destruct b; vm_compute in H; try discriminate H;
      (split; [intros I; cbn in I; intuition discriminate|discriminate]).
Qed.

(** X6. [LoadNote] finds no tag in a text without a hashtag, no file
    attachment in a text without an opening angle bracket and no image
    in a text without an exclamation mark; a text with neither angle
    bracket nor exclamation mark is written back as it is. *)
Theorem LoadNote_plain_text
        (sort_Slice : (updatedItem -> updatedItem -> bool) ->
                      list updatedItem -> list updatedItem)
        (U : RangeTables) (text : gostring) :
  (~ In x23 text -> Tags (LoadNote U text) = []) /\
  (~ In x3c text -> Files (LoadNote U text) = []) /\
  (~ In x21 text -> Images (LoadNote U text) = []) /\
  (sort.Slice_spec updatedItem sort_Slice ->
   ~ In x3c text -> ~ In x21 text ->
   WriteNote sort_Slice (LoadNote U text) = Some text).
Proof.
  assert (F : ~ In x3c text -> Files (LoadNote U text) = []).
  { intros N. rewrite LoadNote_Files, plainFacts.reFile_needs_angle by exact N.
    reflexivity. }
  assert (I : ~ In x21 text -> Images (LoadNote U text) = []).
  { intros N. rewrite LoadNote_Images, plainFacts.reImage_needs_bang by exact N.
    reflexivity. }
  split; [|split; [exact F|split; [exact I|]]].
  - intros N. rewrite LoadNote_Tags, plainFacts.reTag_needs_hash by exact N.
    reflexivity.
  - intros C N1 N2. apply roundtrip_tags_only; auto.
Qed.

Lemma LoadNote_plain_text_witness :
  WriteNote (sort.insertionSort updatedItem)
            (LoadNote latin1Tables (str "a #tag and (text)"))
  = Some (str "a #tag and (text)").
Proof.
  apply (proj2 (proj2 (proj2 (LoadNote_plain_text
                                (sort.insertionSort updatedItem) latin1Tables
                                (str "a #tag and (text)"))))).
  - apply insertionSort_spec.
  - intros I; cbn in I; intuition discriminate.
  - intros I; cbn in I; intuition discriminate.
Defined.

(** ** Reading a file attachment *)

Module fileFacts.

Import unicode regexp bearnotes Spec utf8 utf8Facts regexpFacts tagFacts imageFacts.

Section Files.

Variable U : RangeTables.

(** The rune read at the head of bytes that are followed by an ASCII
    byte lies within them; it satisfies [p] when the ASCII bytes
    among them and every rune that is not ASCII do. *)
Lemma step_before_ascii_class (p : Z -> bool) d a t q :
  d <> [] -> (forall r, RuneSelf <= r -> p r = true) ->
  Forall (fun b => p (b2z b) = true) d ->
  b2z a < RuneSelf ->
  exists r w,
    (1 <= w <= List.length d)%nat /\
    step (mkInput q (d ++ a :: t)) = Some (r, mkInput (q + w) (skipn w d ++ a :: t)) /\
    p r = true.
Proof.
  intros N Hi F A.
  destruct (step (mkInput q (d ++ a :: t))) as [[r j]|] eqn:S.
  - apply step_Some in S as (w & W & D & ->). cbn [irest ipos] in *.
    pose proof (DecodeRune_before_ascii d a t N A) as B. rewrite D in B.
    cbn [snd] in B.
    exists r, w. split; [lia|]. split.
    + rewrite skipn_app. replace (w - List.length d)%nat with 0%nat by lia.
      reflexivity.
    + destruct (Z_lt_ge_dec r RuneSelf) as [R|R]; [|apply Hi; lia].
      apply DecodeRune_ascii_inv in D as (b & t' & E & <- & _); [|exact R].
      destruct d as [|b' d']; [congruence|]. injection E as <- _.
      inversion F; subst. assumption.
  - apply step_None in S. cbn [irest] in S. destruct d; discriminate S.
Qed.

Lemma star_class_bytes (p : Z -> bool) (k : cont) a t res :
  (forall r, RuneSelf <= r -> p r = true) -> b2z a < RuneSelf ->
  forall n d q c fuel,
    (List.length d <= n)%nat -> (List.length d <= fuel)%nat ->
    Forall (fun b => p (b2z b) = true) d ->
    (forall fuel',
        star (rune1 p) fuel' k (mkInput (q + List.length d) (a :: t)) c = Some res) ->
    star (rune1 p) fuel k (mkInput q (d ++ a :: t)) c = Some res.
Proof.
  intros Hi A. induction n as [|n IH]; intros d q c fuel Ln Lf F K.
  - destruct d; [|cbn in Ln; lia]. cbn [List.length app] in *.
    rewrite Nat.add_0_r in K. apply K.
  - destruct d as [|b d'].
    { cbn [List.length app] in *. rewrite Nat.add_0_r in K. apply K. }
    destruct fuel as [|fuel]; [cbn in Lf; lia|].
    destruct (step_before_ascii_class p (b :: d') a t q) as (r & w & W & S & R); auto;
      [discriminate|].
    cbn [star]. unfold rune1 at 1. rewrite S, R. cbn [ipos].
    replace (q <? q + w)%nat with true by (symmetry; apply Nat.ltb_lt; lia).
    assert (L : (List.length (skipn w (b :: d')) = List.length (b :: d') - w)%nat)
      by apply length_skipn.
    rewrite IH; [reflexivity| | | |].
    + rewrite L. cbn [List.length] in *. lia.
    + rewrite L. cbn [List.length] in *. lia.
    + apply Forall_skipn_bytes, F.
    + intros fuel'. rewrite L.
      replace (q + w + (List.length (b :: d') - w))%nat
        with (q + List.length (b :: d'))%nat by lia.
      apply K.
Qed.

Lemma plus_class_bytes neg items (k : cont) a t res d q c :
  (forall r, RuneSelf <= r -> classMatches U neg items r = true) ->
  b2z a < RuneSelf -> d <> [] ->
  Forall (fun b => classMatches U neg items (b2z b) = true) d ->
  (forall fuel',
      star (rune1 (classMatches U neg items)) fuel' k
           (mkInput (q + List.length d) (a :: t)) c = Some res) ->
  run U (OpPlus (OpCharClass neg items)) k (mkInput q (d ++ a :: t)) c = Some res.
Proof.
  intros Hi A N F K.
  destruct (step_before_ascii_class (classMatches U neg items) d a t q)
    as (r & w & W & S & R); auto.
  cbn [run]. unfold rune1 at 1. rewrite S, R. cbn [irest].
  assert (L : (List.length (skipn w d) = List.length d - w)%nat)
    by apply length_skipn.
  apply (star_class_bytes _ k a t res Hi A (List.length (skipn w d))).
  - lia.
  - rewrite length_app. lia.
  - apply Forall_skipn_bytes, F.
  - intros fuel'. rewrite L.
    replace (q + w + (List.length d - w))%nat with (q + List.length d)%nat by lia.
    apply K.
Qed.

(** A greedy repetition of blanks reads all the blanks. *)
Lemma star_blanks (k : cont) rest res : forall n q c fuel,
  (n <= fuel)%nat ->
  (forall fuel', star (rune1 (Z.eqb 0x20)) fuel' k (mkInput (q + n) rest) c = Some res) ->
  star (rune1 (Z.eqb 0x20)) fuel k (mkInput q (repeat x20 n ++ rest)) c = Some res.
Proof.
  induction n as [|n IH]; intros q c fuel L K.
  - rewrite Nat.add_0_r in K. apply K.
  - destruct fuel as [|fuel]; [lia|].
    cbn [star repeat app]. unfold rune1 at 1, step. cbn [irest ipos].
    rewrite DecodeRune_ascii by reflexivity.
    change (0x20 =? b2z x20) with true. cbn [skipn ipos].
    replace (q <? q + 1)%nat with true by (symmetry; apply Nat.ltb_lt; lia).
    rewrite IH; [reflexivity|lia|].
    intros fuel'. replace (q + 1 + n)%nat with (q + S n)%nat by lia. apply K.
Qed.

(** The classes of [reFile]. *)
Lemma quote_class r :
  classMatches U false [CChar 0x27; CChar 0x22] r = (r =? 0x27) || (r =? 0x22).
Proof. unfold classMatches. cbn. rewrite orb_false_r. reflexivity. Qed.

Lemma not_quote_class r :
  classMatches U true [CChar 0x27; CChar 0x22] r = negb ((r =? 0x27) || (r =? 0x22)).
Proof. unfold classMatches. cbn. rewrite orb_false_r. reflexivity. Qed.

Lemma not_quote_high r :
  RuneSelf <= r -> classMatches U true [CChar 0x27; CChar 0x22] r = true.
Proof.
  intros H. rewrite not_quote_class. unfold RuneSelf in H.
  replace (r =? 39) with false by (symmetry; apply Z.eqb_neq; lia).
  replace (r =? 34) with false by (symmetry; apply Z.eqb_neq; lia).
  reflexivity.
Qed.

Lemma not_angle_high r :
  RuneSelf <= r -> classMatches U true [CChar 0x3C] r = true.
Proof.
  intros H. rewrite classMatches_not. unfold RuneSelf in H.
  replace (r =? 60) with false by (symmetry; apply Z.eqb_neq; lia).
  reflexivity.
Qed.

Lemma step_byte q b t :
  b2z b < RuneSelf -> step (mkInput q (b :: t)) = Some (b2z b, mkInput (q + 1) t).
Proof.
  intros A. unfold step. cbn [irest ipos]. rewrite DecodeRune_ascii by exact A.
  reflexivity.
Qed.

(** The match of [reFile] on the anchor of an attachment: group 1
    is the text between the quotes, group 2 the text of the link. *)
Lemma matchAt_reFile n q1 q2 e name :
  (b2z q1 = 0x27 \/ b2z q1 = 0x22) -> (b2z q2 = 0x27 \/ b2z q2 = 0x22) ->
  e <> [] -> Forall (fun b => b2z b <> 0x27 /\ b2z b <> 0x22) e ->
  name <> [] -> Forall (fun b => b2z b <> 0x3C) name ->
  matchAt U reFile
          (mkInput 0 (str "<a" ++ repeat x20 (S n) ++ str "href="
                          ++ q1 :: e ++ q2 :: str ">" ++ name ++ str "</a>"))
  = Some [(0, (0, 15 + n + List.length e + List.length name));
          (2, (11 + n + List.length e, 11 + n + List.length e + List.length name));
          (1, (9 + n, 9 + n + List.length e))]%nat.
Proof.
  intros Q1 Q2 Ne Fe Nn Fn.
  assert (A1 : b2z q1 < RuneSelf) by (unfold RuneSelf; lia).
  assert (A2 : b2z q2 < RuneSelf) by (unfold RuneSelf; lia).
  assert (C1 : classMatches U false [CChar 0x27; CChar 0x22] (b2z q1) = true).
  { rewrite quote_class. destruct Q1 as [-> | ->]; reflexivity. }
  assert (C2 : classMatches U false [CChar 0x27; CChar 0x22] (b2z q2) = true).
  { rewrite quote_class. destruct Q2 as [-> | ->]; reflexivity. }
  assert (C2' : classMatches U true [CChar 0x27; CChar 0x22] (b2z q2) = false).
  { rewrite not_quote_class. destruct Q2 as [-> | ->]; reflexivity. }
  assert (Fe' : Forall (fun b => classMatches U true [CChar 0x27; CChar 0x22] (b2z b)
                                 = true) e).
  { eapply Forall_impl; [|exact Fe]. cbv beta. intros b (B1 & B2).
    rewrite not_quote_class.
    replace (b2z b =? 39) with false by (symmetry; apply Z.eqb_neq; exact B1).
    replace (b2z b =? 34) with false by (symmetry; apply Z.eqb_neq; exact B2).
    reflexivity. }
  assert (Fn' : Forall (fun b => classMatches U true [CChar 0x3C] (b2z b) = true) name).
  { eapply Forall_impl; [|exact Fn]. cbv beta. intros b B.
    rewrite classMatches_not.
    replace (b2z b =? 60) with false by (symmetry; apply Z.eqb_neq; exact B).
    reflexivity. }
  unfold matchAt, reFile.
  change (runes "<a") with (map b2z (str "<a")).
  change (runes " ") with [0x20].
  change (runes "href=") with (map b2z (str "href=")).
  change (runes ">") with (map b2z (str ">")).
  change (runes "</a>") with (map b2z (str "</a>")).
  change (rune "<") with 0x3C.
  cbn [run]. rewrite literal_bytes by (repeat constructor).
  cbn [irest ipos repeat app literal]. unfold rune1 at 1.
  rewrite step_byte by reflexivity. change (0x20 =? b2z x20) with true.
  cbv beta iota. cbn [irest].
  change (fun k : cont => rune1 (Z.eqb 0x20) k) with (rune1 (Z.eqb 0x20)).
  apply star_blanks; [rewrite !length_app, repeat_length; lia|].
  intros fuel1.
  erewrite star_stop; [|change (str "href=") with (x68 :: str "ref=");
                        apply step_byte; reflexivity|reflexivity].
  rewrite literal_bytes by (repeat constructor).
  unfold rune1 at 1. rewrite step_byte by exact A1. rewrite C1.
  apply plus_class_bytes; auto using not_quote_high.
  intros fuel2.
  erewrite star_stop; [|apply step_byte; exact A2|exact C2'].
  unfold rune1 at 1. rewrite step_byte by exact A2. rewrite C2.
  rewrite literal_bytes by (repeat constructor).
  change (str "</a>") with (x3c :: str "/a>").
  apply plus_class_bytes; auto using not_angle_high; [reflexivity|].
  intros fuel3.
  erewrite star_stop; [|apply step_byte; reflexivity|reflexivity].
  change (x3c :: str "/a>") with (str "</a>" ++ []).
  rewrite literal_bytes by (repeat constructor).
  unfold setcap, nocaps. cbn [ipos].
  change (List.length (str "<a")) with 2%nat.
  change (List.length (str "href=")) with 5%nat.
  change (List.length (str ">")) with 1%nat.
  change (List.length (str "</a>")) with 4%nat.
  eq_caps.
Qed.

Lemma FindStringSubmatch_file n q1 q2 e name :
  (b2z q1 = 0x27 \/ b2z q1 = 0x22) -> (b2z q2 = 0x27 \/ b2z q2 = 0x22) ->
  e <> [] -> Forall (fun b => b2z b <> 0x27 /\ b2z b <> 0x22) e ->
  name <> [] -> Forall (fun b => b2z b <> 0x3C) name ->
  let s := str "<a" ++ repeat x20 (S n) ++ str "href="
               ++ q1 :: e ++ q2 :: str ">" ++ name ++ str "</a>" in
  FindStringSubmatch U reFile s = Some [s; e; name].
Proof.
  intros Q1 Q2 Ne Fe Nn Fn s. unfold FindStringSubmatch, doExecute. cbn [skipn].
  rewrite (searchFrom_here U reFile _ _ _
             (matchAt_reFile n q1 q2 e name Q1 Q2 Ne Fe Nn Fn)).
  change (NumSubexp reFile) with 2%nat. cbn [seq map].
  unfold capText. cbn [getcap Nat.eqb].
  assert (Ls : List.length s = (15 + n + List.length e + List.length name)%nat).
  { unfold s.
    repeat (rewrite length_app || rewrite repeat_length
            || rewrite length_cons).
    change (List.length (str "<a")) with 2%nat.
    change (List.length (str "href=")) with 5%nat.
    change (List.length (str ">")) with 1%nat.
    change (List.length (str "</a>")) with 4%nat. lia. }
  f_equal. f_equal; [|f_equal; [|f_equal]].
  - rewrite <- Ls. apply sub_full.
  - replace s with ((str "<a" ++ repeat x20 (S n) ++ str "href=" ++ [q1])
                      ++ e ++ (q2 :: str ">" ++ name ++ str "</a>"))
      by (unfold s; rewrite <- !app_assoc; reflexivity).
    replace (9 + n)%nat
      with (List.length (str "<a" ++ repeat x20 (S n) ++ str "href=" ++ [q1])).
    + apply sub_middle.
    + repeat (rewrite length_app || rewrite repeat_length
              || rewrite length_cons).
      change (List.length (str "<a")) with 2%nat.
      change (List.length (str "href=")) with 5%nat.
      change (List.length (@nil byte)) with 0%nat. lia.
  - replace s with ((str "<a" ++ repeat x20 (S n) ++ str "href=" ++ q1 :: e
                         ++ q2 :: str ">") ++ name ++ str "</a>").
    2:{ unfold s. rewrite <- !app_assoc. cbn [app]. rewrite <- !app_assoc.
        reflexivity. }
    replace (11 + n + List.length e)%nat
      with (List.length (str "<a" ++ repeat x20 (S n) ++ str "href=" ++ q1 :: e
                             ++ q2 :: str ">")).
    + apply sub_middle.
    + repeat (rewrite length_app || rewrite repeat_length
              || rewrite length_cons).
      change (List.length (str "<a")) with 2%nat.
      change (List.length (str "href=")) with 5%nat.
      change (List.length (str ">")) with 1%nat. lia.
Qed.

End Files.

End fileFacts.

(** X7. [NewFile] reads the anchor of a file attachment whole: one
    blank or more before [href], the path between two quotes, single or
    double, not necessarily the same, and the name up to the closing
    tag. The path is any text, not empty, without a quote; the name any
    text, not empty, without an opening angle bracket; the location is
    the decoded path, empty when the path does not decode. *)
Theorem NewFile_reads_anchor U n q1 q2 path name position :
  (b2z q1 = 0x27 \/ b2z q1 = 0x22) -> (b2z q2 = 0x27 \/ b2z q2 = 0x22) ->
  path <> [] -> Forall (fun b => b2z b <> 0x27 /\ b2z b <> 0x22) path ->
  name <> [] -> Forall (fun b => b2z b <> 0x3C) name ->
  NewFile U (str "<a" ++ repeat x20 (S n) ++ str "href="
                 ++ q1 :: path ++ q2 :: str ">" ++ name ++ str "</a>") position
  = File.mk (fst (url.PathUnescape path)) name position.
Proof.
  intros Q1 Q2 Np Fp Nn Fn. unfold NewFile.
  rewrite (fileFacts.FindStringSubmatch_file U n q1 q2 path name Q1 Q2 Np Fp Nn Fn).
  reflexivity.
Qed.

Lemma NewFile_reads_anchor_witness :
  NewFile latin1Tables
          (str "<a" ++ repeat x20 2 ++ str "href="
               ++ x27 :: str "my%20file.pdf" ++ x22 :: str ">" ++ str "my file.pdf"
               ++ str "</a>") [0; 40]
  = File.mk (str "my file.pdf") (str "my file.pdf") [0; 40].
Proof.
  apply (NewFile_reads_anchor latin1Tables 1 x27 x22 (str "my%20file.pdf")
                              (str "my file.pdf") [0; 40]).
  - left. reflexivity.
  - right. reflexivity.
  - discriminate.
  - repeat constructor; discriminate.
  - discriminate.
  - repeat constructor; discriminate.
Defined.

(** ** The options of a tag *)

Module optionFacts.

Import bearnotes discover Spec.

Lemma eqb_eq (a b : gostring) : eqb a b = true <-> a = b.
Proof.
  unfold eqb. destruct (list_eq_dec Byte.byte_eq_dec a b); split; congruence.
Qed.

Lemma eqb_refl (a : gostring) : eqb a a = true.
Proof. apply eqb_eq. reflexivity. Qed.

Lemma eqb_neq (a b : gostring) : eqb a b = false <-> a <> b.
Proof.
  unfold eqb. destruct (list_eq_dec Byte.byte_eq_dec a b); split; congruence.
Qed.

(** [strings.Split] ends with the text after the last separator. *)
Lemma Split_last s sep :
  exists init last,
    strings.Split s sep = init ++ [last] /\
    ~ In sep last /\
    s = flat_map (fun c => c ++ [sep]) init ++ last.
Proof.
  induction s as [|c t (init & last & E & N & S)].
  - exists [], []. repeat split; auto.
  - cbn [strings.Split]. destruct (Byte.eqb c sep) eqn:C.
    + apply Byte.byte_dec_bl in C. subst c.
      exists ([] :: init), last. rewrite E. repeat split; auto.
      cbn [flat_map app]. rewrite <- S. reflexivity.
    + rewrite E. destruct init as [|h init].
      * exists [], (c :: last). cbn [app] in *. repeat split.
        -- intros [I|I]; [|auto]. subst c.
           rewrite (Byte.byte_dec_lb eq_refl) in C. discriminate C.
        -- rewrite S. reflexivity.
      * exists ((c :: h) :: init), last. repeat split; auto.
        cbn [flat_map app] in *. rewrite S, <- !app_assoc. reflexivity.
Qed.

Lemma element_last (init : list gostring) last :
  element (init ++ [last]) (Z.of_nat (List.length (init ++ [last])) - 1) = Some last.
Proof.
  unfold element. rewrite length_app. cbn [List.length].
  replace (Z.of_nat (List.length init + 1) - 1 <? 0) with false
    by (symmetry; apply Z.ltb_ge; lia).
  replace (Z.to_nat (Z.of_nat (List.length init + 1) - 1)) with (List.length init) by lia.
  rewrite nth_error_app2, Nat.sub_diag by lia. reflexivity.
Qed.

Lemma Split_without s sep : ~ In sep s -> strings.Split s sep = [s].
Proof.
  induction s as [|c t IH]; intros N; [reflexivity|].
  cbn [strings.Split]. destruct (Byte.eqb c sep) eqn:C.
  - apply Byte.byte_dec_bl in C. subst c. exfalso. apply N. left. reflexivity.
  - rewrite IH; [reflexivity|]. intros I. apply N. right. exact I.
Qed.

Lemma flat_map_ends (sep : byte) (init : list gostring) :
  init = [] \/
  exists directory, flat_map (fun c => c ++ [sep]) init = directory ++ [sep].
Proof.
  induction init as [|c init [->|(directory & E)]]; [left; reflexivity| |];
    right; cbn [flat_map].
  - exists c. rewrite app_nil_r. reflexivity.
  - exists ((c ++ [sep]) ++ directory). rewrite E, app_assoc. reflexivity.
Qed.

Lemma NewTagOptions_default tag :
  exists o,
    NewTagOptions tag = Some o /\ count o = 1 /\ defaultOptions (Tag.Name tag) o.
Proof.
  unfold NewTagOptions.
  destruct (Split_last (Tag.Name tag) x2f) as (init & last & E & N & S).
  rewrite E, element_last. eexists. split; [reflexivity|]. split; [reflexivity|].
  unfold defaultOptions.
  cbn [Ignore HandlingStrategy TargetDirectory TargetTagName].
  repeat split. exists (flat_map (fun c => c ++ [x2f]) init).
  split; [exact S|]. split; [exact N|].
  destruct (flat_map_ends x2f init) as [->|D]; [left; reflexivity|right; exact D].
Qed.

(** ** Counting the tags *)

Lemma int_add_l a b : int_ (int_ a + b) = int_ (a + b).
Proof.
  unfold int_.
  replace ((a + 2 ^ 63) mod 2 ^ 64 - 2 ^ 63 + b + 2 ^ 63)
    with ((a + 2 ^ 63) mod 2 ^ 64 + b) by lia.
  rewrite Zplus_mod_idemp_l. f_equal. f_equal. lia.
Qed.

Lemma int_small z : - 2 ^ 63 <= z < 2 ^ 63 -> int_ z = z.
Proof. intros H. unfold int_. rewrite Z.mod_small; lia. Qed.

Section Counting.

Variable norm_NFC_String : gostring -> gostring.
Variable strings_ToLower : gostring -> gostring.

Local Abbreviation tagKey := (tagKey norm_NFC_String strings_ToLower).
Local Abbreviation occurrences := (occurrences norm_NFC_String strings_ToLower).
Local Abbreviation countTag := (countTag norm_NFC_String strings_ToLower).
Local Abbreviation countTags := (countTags norm_NFC_String strings_ToLower).
Local Abbreviation fromTags := (fromTags norm_NFC_String strings_ToLower).

Lemma NewTagOptions_Some tag :
  exists lastComponent,
    NewTagOptions tag
    = Some (mkTagOptions 1 false (str "same-folder") (Tag.Name tag) lastComponent).
Proof.
  unfold NewTagOptions.
  destruct (Split_last (Tag.Name tag) x2f) as (init & last & E & _).
  rewrite E, element_last. eauto.
Qed.

(** One tag: the entry of its key is new with a count of 1, or the
    entry that was there counted once more; the other entries stay. *)
Lemma countTag_entry tags tag :
  exists tags' entry,
    countTag tags tag = Some tags' /\
    tags' (tagKey tag) = Some entry /\
    (forall k, k <> tagKey tag -> tags' k = tags k) /\
    match tags (tagKey tag) with
    | Some old =>
        entry = mkTagOptions (int_ (count old + 1)) (Ignore old)
                             (HandlingStrategy old) (TargetDirectory old)
                             (TargetTagName old)
    | None =>
        count entry = 1 /\ Ignore entry = false /\
        HandlingStrategy entry = str "same-folder" /\
        TargetDirectory entry = norm_NFC_String (Tag.Name tag)
    end.
Proof.
  unfold discover.countTag. cbv zeta.
  change (Tag.Name (withName tag (norm_NFC_String (Tag.Name tag))))
    with (norm_NFC_String (Tag.Name tag)).
  fold (tagKey tag).
  destruct (tags (tagKey tag)) as [old|] eqn:L.
  - eexists. eexists. split; [reflexivity|]. split; [|split; [|reflexivity]].
    + unfold assign. rewrite eqb_refl. reflexivity.
    + intros k N. unfold assign. apply eqb_neq in N. rewrite N. reflexivity.
  - destruct (NewTagOptions_Some (withName tag (norm_NFC_String (Tag.Name tag))))
      as (lc & E).
    change (Tag.Name (withName tag (norm_NFC_String (Tag.Name tag))))
      with (norm_NFC_String (Tag.Name tag)) in E.
    rewrite E.
    eexists. eexists. split; [reflexivity|]. split; [|split].
    + unfold assign. rewrite eqb_refl. reflexivity.
    + intros k N. unfold assign. apply eqb_neq in N. rewrite N. reflexivity.
    + cbn. auto.
Qed.

Lemma occurrences_cons k tag l :
  occurrences k (tag :: l)
  = ((if eqb (tagKey tag) k then 1 else 0) + occurrences k l)%nat.
Proof.
  unfold Spec.occurrences. cbn [filter].
  destruct (eqb (tagKey tag) k); reflexivity.
Qed.

Lemma countTags_entries : forall l tags,
  exists tags',
    countTags tags l = Some tags' /\
    forall k,
      (occurrences k l = 0%nat -> tags' k = tags k) /\
      ((0 < occurrences k l)%nat ->
       exists entry,
         tags' k = Some entry /\
         count entry
         = int_ (match tags k with Some old => count old | None => 0 end
                 + Z.of_nat (occurrences k l)) /\
         match tags k with
         | Some old =>
             Ignore entry = Ignore old /\
             HandlingStrategy entry = HandlingStrategy old /\
             TargetDirectory entry = TargetDirectory old /\
             TargetTagName entry = TargetTagName old
         | None =>
             Ignore entry = false /\
             HandlingStrategy entry = str "same-folder"
         end).
Proof.
  induction l as [|tag l IH]; intros tags.
  - exists tags. split; [reflexivity|]. intros k. split; [reflexivity|].
    unfold Spec.occurrences. cbn. lia.
  - destruct (countTag_entry tags tag) as (tags1 & entry & C & E & O & M).
    destruct (IH tags1) as (tags' & C' & P).
    exists tags'. cbn [discover.countTags]. rewrite C. split; [exact C'|].
    intros k. rewrite occurrences_cons. destruct (P k) as (P0 & P1).
    destruct (eqb (tagKey tag) k) eqn:K.
    + apply eqb_eq in K. subst k. split; [lia|]. intros _.
      destruct (Nat.eq_dec (occurrences (tagKey tag) l) 0) as [Z|Z].
      * rewrite Z, (P0 Z), E. exists entry. split; [reflexivity|].
        destruct (tags (tagKey tag)) as [old|].
        -- subst entry. cbn. repeat split.
        -- destruct M as (M1 & M2 & M3 & _). rewrite M1. repeat split; auto.
      * destruct (P1 ltac:(lia)) as (e' & E' & Cn & F). rewrite E in Cn, F.
        exists e'. split; [exact E'|].
        destruct (tags (tagKey tag)) as [old|].
        -- subst entry. cbn in Cn, F. split; [|exact F].
           rewrite Cn, int_add_l. f_equal. lia.
        -- destruct M as (M1 & M2 & M3 & _). rewrite M1 in Cn.
           destruct F as (F1 & F2 & _). rewrite M2 in F1. rewrite M3 in F2.
           split; [|auto]. rewrite Cn. f_equal. lia.
    + apply eqb_neq in K. cbn [Nat.add]. rewrite (O k) in P0, P1 by congruence.
      split; [exact P0|exact P1].
Qed.

Lemma occurrences_In tag l : In tag l -> (0 < occurrences (tagKey tag) l)%nat.
Proof.
  intros I. unfold Spec.occurrences.
  assert (F : In tag (filter (fun t => eqb (tagKey t) (tagKey tag)) l)).
  { apply filter_In. split; [exact I|apply eqb_refl]. }
  destruct (filter _ l); [destruct F|cbn; lia].
Qed.

(** The tags of a note are known after they have been counted. *)
Lemma countTags_known l tags tags' :
  countTags tags l = Some tags' ->
  Forall (fun tag => tags' (tagKey tag) <> None) l.
Proof.
  intros C. destruct (countTags_entries l tags) as (tags1 & C1 & P).
  rewrite C in C1. injection C1 as <-.
  apply Forall_forall. intros tag I.
  destruct (proj2 (P (tagKey tag)) (occurrences_In tag l I)) as (e & E & _).
  congruence.
Qed.

Lemma countTag_default seen tags tag tags' :
  fromTags seen tags ->
  countTag tags tag = Some tags' ->
  fromTags (seen ++ [tag]) tags'.
Proof.
  intros F. unfold discover.countTag. cbv zeta.
  change (Tag.Name (withName tag (norm_NFC_String (Tag.Name tag))))
    with (norm_NFC_String (Tag.Name tag)).
  fold (tagKey tag). intros C k o L.
  assert (W : forall e, tags' = assign tags (tagKey tag) e ->
                        k <> tagKey tag ->
                        exists t, In t (seen ++ [tag]) /\ tagKey t = k /\
                                  defaultOptions (norm_NFC_String (Tag.Name t)) o).
  { intros e -> Nk. unfold assign in L. apply eqb_neq in Nk. rewrite Nk in L.
    destruct (F k o L) as (t & I & K & D). exists t.
    split; [apply in_or_app; left; exact I|auto]. }
  destruct (eqb k (tagKey tag)) eqn:K.
  - apply eqb_eq in K. subst k.
    destruct (tags (tagKey tag)) as [old|] eqn:T.
    + injection C as <-. unfold assign in L. rewrite eqb_refl in L.
      injection L as <-.
      destruct (F _ _ T) as (t & I & Kt & D). exists t.
      split; [apply in_or_app; left; exact I|]. split; [exact Kt|exact D].
    + destruct (NewTagOptions_default (withName tag (norm_NFC_String (Tag.Name tag))))
        as (o' & E & _ & D).
      rewrite E in C. injection C as <-. unfold assign in L.
      rewrite eqb_refl in L. injection L as <-.
      exists tag. split; [apply in_or_app; right; left; reflexivity|].
      split; [reflexivity|exact D].
  - apply eqb_neq in K.
    destruct (tags (tagKey tag)) as [old|].
    + injection C as <-. eapply W; eauto.
    + destruct (NewTagOptions (withName tag (norm_NFC_String (Tag.Name tag))));
        [|discriminate C].
      injection C as <-. eapply W; eauto.
Qed.

Lemma countTags_default : forall l seen tags tags',
  fromTags seen tags ->
  countTags tags l = Some tags' ->
  fromTags (seen ++ l) tags'.
Proof.
  induction l as [|tag l IH]; intros seen tags tags' F C.
  - cbn in C. injection C as <-. rewrite app_nil_r. exact F.
  - cbn [discover.countTags] in C.
    destruct (countTag tags tag) as [tags1|] eqn:C1; [|discriminate C].
    replace (seen ++ tag :: l) with ((seen ++ [tag]) ++ l)
      by (rewrite <- app_assoc; reflexivity).
    eapply IH; [|exact C]. eapply countTag_default; eauto.
Qed.

End Counting.

End optionFacts.

(** ** The loop over the tags in the migration *)

Module migrateFacts.

Import bearnotes discover migrate Spec optionFacts.

Lemma setTagName_nth l i name tag :
  nth_error l i = Some tag ->
  setTagName l i name = firstn i l ++ withName tag name :: skipn (S i) l.
Proof. intros E. unfold setTagName. rewrite E. reflexivity. Qed.

Lemma nth_error_split (A : Type) (l : list A) i x :
  nth_error l i = Some x -> l = firstn i l ++ x :: skipn (S i) l /\ (i < List.length l)%nat.
Proof.
  revert i. induction l as [|y l IH]; intros [|i] E; cbn in E; try discriminate E.
  - injection E as ->. split; [reflexivity|cbn; lia].
  - destruct (IH i E) as (S & L). split; [cbn [firstn skipn app]; f_equal; exact S|].
    cbn. lia.
Qed.

Section Loop.

Variable norm_NFC_String : gostring -> gostring.
Variable strings_ToLower : gostring -> gostring.
Variable tags : tagMap.
Variable infoName : gostring.

Local Abbreviation tagKey := (tagKey norm_NFC_String strings_ToLower).
Local Abbreviation renameTag := (renameTag norm_NFC_String strings_ToLower tags).
Local Abbreviation firstDirectory :=
  (firstDirectory norm_NFC_String strings_ToLower tags).
Local Abbreviation tagDirective :=
  (tagDirective norm_NFC_String strings_ToLower tags infoName).
Local Abbreviation rangeTags :=
  (rangeTags norm_NFC_String strings_ToLower tags infoName).

(** One iteration: the closure returns on a tag that the map does
    not know; otherwise the tag at the index is renamed, unless it
    is ignored, and the directives are updated. *)
Lemma tagDirective_cases i tag d :
  nth_error (noteTags d) i = Some tag ->
  match tags (tagKey tag) with
  | None =>
      tagDirective i tag d = Return (log d (ErrorUnknownTag (tagKey tag) infoName))
  | Some o =>
      exists d',
        tagDirective i tag d = Next d' /\
        noteTags d'
        = firstn i (noteTags d) ++ renameTag tag :: skipn (S i) (noteTags d) /\
        targetDir d'
        = (if Ignore o then targetDir d
           else if negb (eqb (TargetDirectory o) []) && negb (eqb (targetDir d) [])
                   && negb (eqb (targetDir d) (TargetDirectory o))
           then targetDir d else TargetDirectory o) /\
        handlingStrategy d'
        = (if Ignore o then handlingStrategy d
           else if negb (eqb (HandlingStrategy o) [])
                   && negb (eqb (handlingStrategy d) [])
                   && negb (eqb (handlingStrategy d) (HandlingStrategy o))
           then handlingStrategy d
           else if eqb (HandlingStrategy o) (str "same-folder")
                   || eqb (HandlingStrategy o) (str "one-note-per-folder")
                   || eqb (HandlingStrategy o) []
           then HandlingStrategy o else handlingStrategy d)
  end.
Proof.
  intros E. unfold migrate.tagDirective. cbv zeta.
  change (Tag.Name (withName tag (norm_NFC_String (Tag.Name tag))))
    with (norm_NFC_String (Tag.Name tag)).
  fold (tagKey tag). unfold Spec.renameTag.
  destruct (tags (tagKey tag)) as [o|]; [|reflexivity].
  destruct (Ignore o) eqn:I.
  - exists d. split; [reflexivity|]. split; [apply nth_error_split, E|].
    split; reflexivity.
  - cbn [noteTags targetDir handlingStrategy logged].
    rewrite (setTagName_nth _ _ _ _ E).
    destruct (negb (eqb (TargetDirectory o) []) && negb (eqb (targetDir d) [])
              && negb (eqb (targetDir d) (TargetDirectory o)));
      cbn [log noteTags targetDir handlingStrategy logged];
      (destruct (negb (eqb (HandlingStrategy o) [])
                 && negb (eqb (handlingStrategy d) [])
                 && negb (eqb (handlingStrategy d) (HandlingStrategy o)));
       [|destruct (eqb (HandlingStrategy o) (str "same-folder")
                   || eqb (HandlingStrategy o) (str "one-note-per-folder")
                   || eqb (HandlingStrategy o) [])]);
      cbn [log noteTags targetDir handlingStrategy logged];
      eexists; (split; [reflexivity|]);
      cbn [noteTags targetDir handlingStrategy logged];
      repeat split.
Qed.

(** One iteration of the loop, [done] being the tags before the
    index and [rest] the tags after it. *)
Lemma rangeTags_step done tag rest d :
  noteTags d = done ++ tag :: rest ->
  match tags (tagKey tag) with
  | None =>
      rangeTags (S (List.length rest)) (List.length done) d
      = Return (log d (ErrorUnknownTag (tagKey tag) infoName))
  | Some o =>
      exists d',
        rangeTags (S (List.length rest)) (List.length done) d
        = rangeTags (List.length rest) (List.length (done ++ [renameTag tag])) d' /\
        noteTags d' = (done ++ [renameTag tag]) ++ rest /\
        targetDir d'
        = (if Ignore o then targetDir d
           else if negb (eqb (TargetDirectory o) []) && negb (eqb (targetDir d) [])
                   && negb (eqb (targetDir d) (TargetDirectory o))
           then targetDir d else TargetDirectory o) /\
        handlingStrategy d'
        = (if Ignore o then handlingStrategy d
           else if negb (eqb (HandlingStrategy o) [])
                   && negb (eqb (handlingStrategy d) [])
                   && negb (eqb (handlingStrategy d) (HandlingStrategy o))
           then handlingStrategy d
           else if eqb (HandlingStrategy o) (str "same-folder")
                   || eqb (HandlingStrategy o) (str "one-note-per-folder")
                   || eqb (HandlingStrategy o) []
           then HandlingStrategy o else handlingStrategy d)
  end.
Proof.
  intros N.
  assert (E : nth_error (noteTags d) (List.length done) = Some tag).
  { rewrite N, nth_error_app2, Nat.sub_diag by lia. reflexivity. }
  pose proof (tagDirective_cases (List.length done) tag d E) as C.
  cbn [migrate.rangeTags]. rewrite E.
  destruct (tags (tagKey tag)) as [o|].
  - destruct C as (d' & T & NT & TD & HS). exists d'. rewrite T.
    split; [rewrite length_app, Nat.add_comm; reflexivity|].
    split; [|split; assumption].
    rewrite NT, N, firstn_app, Nat.sub_diag, firstn_all.
    cbn [firstn]. rewrite app_nil_r.
    replace (skipn (S (List.length done)) (done ++ tag :: rest)) with rest.
    + rewrite <- app_assoc. reflexivity.
    + rewrite skipn_app, skipn_all2 by lia.
      replace (S (List.length done) - List.length done)%nat with 1%nat by lia.
      reflexivity.
  - rewrite C. reflexivity.
Qed.

(** The loop leaves the note exactly when the map does not know
    one of the tags. *)
Lemma rangeTags_Return : forall rest done d,
  noteTags d = done ++ rest ->
  (exists d', rangeTags (List.length rest) (List.length done) d = Return d')
  <-> Exists (fun tag => tags (tagKey tag) = None) rest.
Proof.
  induction rest as [|tag rest IH]; intros done d N.
  - cbn. split; [intros (d' & E); discriminate E|intros E; inversion E].
  - pose proof (rangeTags_step done tag rest d N) as S. cbn [List.length] in *.
    destruct (tags (tagKey tag)) as [o|] eqn:T.
    + destruct S as (d1 & R & N1 & _). rewrite R, (IH _ _ N1).
      split; [intros E; right; exact E|].
      intros E. inversion E as [? ? H|? ? H]; subst; [congruence|exact H].
    + rewrite S. split; [intros _; left; exact T|eauto].
Qed.

(** When the loop ends, every tag has the name that the tag file
    asks for. *)
Lemma rangeTags_renamed : forall rest done d d',
  noteTags d = done ++ rest ->
  rangeTags (List.length rest) (List.length done) d = Next d' ->
  noteTags d' = done ++ map renameTag rest.
Proof.
  induction rest as [|tag rest IH]; intros done d d' N R.
  - cbn in R. injection R as <-. rewrite N. reflexivity.
  - pose proof (rangeTags_step done tag rest d N) as S. cbn [List.length] in *.
    destruct (tags (tagKey tag)) as [o|] eqn:T.
    + destruct S as (d1 & R1 & N1 & _). rewrite R1 in R.
      rewrite (IH _ _ _ N1 R), <- app_assoc. reflexivity.
    + rewrite S in R. discriminate R.
Qed.

(** The handling strategy stays one of the three values. *)
Lemma rangeTags_strategy : forall rest done d d',
  noteTags d = done ++ rest ->
  rangeTags (List.length rest) (List.length done) d = Next d' ->
  validStrategy (handlingStrategy d) ->
  validStrategy (handlingStrategy d').
Proof.
  induction rest as [|tag rest IH]; intros done d d' N R V.
  - cbn in R. injection R as <-. exact V.
  - pose proof (rangeTags_step done tag rest d N) as S. cbn [List.length] in *.
    destruct (tags (tagKey tag)) as [o|] eqn:T.
    + destruct S as (d1 & R1 & N1 & _ & HS). rewrite R1 in R.
      apply (IH _ _ _ N1 R). rewrite HS.
      destruct (Ignore o); [exact V|].
      destruct (negb (eqb (HandlingStrategy o) [])
                && negb (eqb (handlingStrategy d) [])
                && negb (eqb (handlingStrategy d) (HandlingStrategy o)));
        [exact V|].
      destruct (eqb (HandlingStrategy o) (str "same-folder")
                || eqb (HandlingStrategy o) (str "one-note-per-folder")
                || eqb (HandlingStrategy o) []) eqn:C; [|exact V].
      unfold validStrategy.
      apply orb_true_iff in C as [C|C];
        [apply orb_true_iff in C as [C|C]|]; apply eqb_eq in C; auto.
    + rewrite S in R. discriminate R.
Qed.

(** The target directory is the one at the start of the loop or
    the directive of a tag that is not ignored. *)
Lemma rangeTags_directory : forall rest done d d',
  noteTags d = done ++ rest ->
  rangeTags (List.length rest) (List.length done) d = Next d' ->
  targetDir d' = targetDir d \/
  exists tag o,
    In tag rest /\ tags (tagKey tag) = Some o /\ Ignore o = false /\
    targetDir d' = TargetDirectory o.
Proof.
  induction rest as [|tag rest IH]; intros done d d' N R.
  - cbn in R. injection R as <-. left. reflexivity.
  - pose proof (rangeTags_step done tag rest d N) as S. cbn [List.length] in *.
    destruct (tags (tagKey tag)) as [o|] eqn:T.
    + destruct S as (d1 & R1 & N1 & TD & _). rewrite R1 in R.
      destruct (IH _ _ _ N1 R) as [E|(tag' & o' & I & T' & G & E)].
      * rewrite E, TD. destruct (Ignore o) eqn:G; [left; reflexivity|].
        destruct (negb (eqb (TargetDirectory o) []) && negb (eqb (targetDir d) [])
                  && negb (eqb (targetDir d) (TargetDirectory o)));
          [left; reflexivity|].
        right. exists tag, o. repeat split; auto. left. reflexivity.
      * right. exists tag', o'. repeat split; auto. right. exact I.
    + rewrite S in R. discriminate R.
Qed.

(** The directives of the last tag, when it is not ignored and
    they are empty, replace what the tags before it have set. *)
Lemma rangeTags_last : forall rest done d d' tag o,
  noteTags d = done ++ rest ++ [tag] ->
  rangeTags (List.length (rest ++ [tag])) (List.length done) d = Next d' ->
  tags (tagKey tag) = Some o ->
  Ignore o = false ->
  (TargetDirectory o = [] -> targetDir d' = []) /\
  (HandlingStrategy o = [] -> handlingStrategy d' = []).
Proof.
  induction rest as [|tag0 rest IH]; intros done d d' tag o N R T G.
  - pose proof (rangeTags_step done tag [] d N) as S. rewrite T in S.
    destruct S as (d1 & R1 & _ & TD & HS).
    cbn [app] in R. change (List.length [tag]) with (S (List.length (@nil Tag.t))) in R.
    rewrite R1 in R. cbn in R. injection R as <-.
    rewrite TD, HS, G. split; intros ->; reflexivity.
  - pose proof (rangeTags_step done tag0 (rest ++ [tag]) d N) as S.
    cbn [app List.length] in R.
    destruct (tags (tagKey tag0)) as [o0|].
    + destruct S as (d1 & R1 & N1 & _). rewrite R1 in R.
      exact (IH _ _ _ _ _ N1 R T G).
    + rewrite S in R. discriminate R.
Qed.

(** The loop with the first directive winning: when no directive
    for the target directory is empty, the directory that is set
    stays. *)
Lemma rangeTags_first : forall rest done d d',
  noteTags d = done ++ rest ->
  rangeTags (List.length rest) (List.length done) d = Next d' ->
  Forall (fun tag => forall o, tags (tagKey tag) = Some o -> Ignore o = false ->
                               TargetDirectory o <> []) rest ->
  targetDir d' = (if eqb (targetDir d) [] then firstDirectory rest else targetDir d).
Proof.
  induction rest as [|tag rest IH]; intros done d d' N R F.
  - cbn in R. injection R as <-. cbn.
    destruct (eqb (targetDir d) []) eqn:E; [apply eqb_eq, E|reflexivity].
  - pose proof (rangeTags_step done tag rest d N) as S. cbn [List.length] in *.
    inversion F as [|? ? F1 F2]; subst.
    cbn [Spec.firstDirectory]. fold firstDirectory.
    destruct (tags (tagKey tag)) as [o|] eqn:T.
    + destruct S as (d1 & R1 & N1 & TD & _). rewrite R1 in R.
      rewrite (IH _ _ _ N1 R F2), TD.
      destruct (Ignore o) eqn:G; [reflexivity|].
      specialize (F1 o eq_refl G).
      destruct (eqb (TargetDirectory o) []) eqn:E1;
        [apply eqb_eq in E1; contradiction|].
      destruct (eqb (targetDir d) []) eqn:E2; cbn [negb andb].
      * rewrite E1. reflexivity.
      * destruct (eqb (targetDir d) (TargetDirectory o)) eqn:E3; cbn [negb].
        -- apply eqb_eq in E3. rewrite <- E3, E2. reflexivity.
        -- rewrite E2. reflexivity.
    + rewrite S in R. discriminate R.
Qed.

(** Tags that all ask for the same valid strategy set it. *)
Lemma rangeTags_one_strategy s : forall rest done d d',
  noteTags d = done ++ rest ->
  rangeTags (List.length rest) (List.length done) d = Next d' ->
  validStrategy s ->
  Forall (fun tag => exists o, tags (tagKey tag) = Some o /\ Ignore o = false /\
                               HandlingStrategy o = s) rest ->
  handlingStrategy d = [] \/ handlingStrategy d = s ->
  rest <> [] ->
  handlingStrategy d' = s.
Proof.
  intros rest done d d' N R V F H Ne.
  assert (G : forall rest done d d',
             noteTags d = done ++ rest ->
             rangeTags (List.length rest) (List.length done) d = Next d' ->
             Forall (fun tag => exists o, tags (tagKey tag) = Some o /\
                                          Ignore o = false /\
                                          HandlingStrategy o = s) rest ->
             handlingStrategy d = [] \/ handlingStrategy d = s ->
             handlingStrategy d' = s \/ rest = [] /\ d' = d).
  { clear rest done d d' N R F H Ne.
    induction rest as [|tag rest IH]; intros done d d' N R F H.
    - cbn in R. injection R as <-. right. auto.
    - left. pose proof (rangeTags_step done tag rest d N) as S.
      cbn [List.length] in *.
      inversion F as [|? ? (o & T & I & Hs) F']; subst. rewrite T in S.
      destruct S as (d1 & R1 & N1 & _ & HS). rewrite R1 in R.
      assert (H1 : handlingStrategy d1 = HandlingStrategy o).
      { rewrite HS, I.
        replace (eqb (HandlingStrategy o) (str "same-folder")
                 || eqb (HandlingStrategy o) (str "one-note-per-folder")
                 || eqb (HandlingStrategy o) []) with true.
        - destruct H as [H|H]; rewrite H.
          + rewrite andb_false_r. reflexivity.
          + rewrite eqb_refl, andb_false_r. reflexivity.
        - symmetry. destruct V as [V|[V|V]]; rewrite V; reflexivity. }
      destruct (IH _ _ _ N1 R F' (or_intror H1)) as [E|(_ & ->)];
        [exact E|exact H1]. }
  destruct (G rest done d d' N R F H) as [E|(E & _)]; [exact E|contradiction].
Qed.

End Loop.

End migrateFacts.

(** ** Writing the migrated note *)

Module migratedFacts.

Import unicode regexp bearnotes discover migrate Spec.
Import regexpFacts sortFacts serializerFacts packageFacts spanFacts.

Lemma spansInOrder_sorted content (items : list updatedItem) :
  spansInOrder content (map item_position items) ->
  StronglySorted (fun x y => spanEnd x <= spanStart y) items.
Proof.
  intros (ms & E & S & _). revert ms E S.
  induction items as [|it items IH]; intros ms E S; [constructor|].
  destruct ms as [|m ms]; [discriminate E|]. cbn [map] in E.
  injection E as E1 E2. inversion S as [|? ? S' G]; subst.
  constructor; [eapply IH; eauto|].
  clear IH S S'. revert ms E2 G.
  induction items as [|it' items IH]; intros ms E2 G; [constructor|].
  destruct ms as [|m' ms]; [discriminate E2|]. cbn [map] in E2.
  injection E2 as E3 E4. inversion G; subst.
  constructor; [|eapply IH; eauto].
  unfold spanStart, spanEnd. rewrite E1, E3. cbn. lia.
Qed.

Lemma renameTag_position NFC ToLower tags tag :
  Tag.position (renameTag NFC ToLower tags tag) = Tag.position tag.
Proof.
  unfold renameTag. destruct (tags _) as [o|]; [|reflexivity].
  destruct (Ignore o); reflexivity.
Qed.

(** A note with tags only, the tags being those of a text with other
    names: every tag is written in place of its span. *)
Lemma WriteNote_renamed sort_Slice U text (rename : Tag.t -> Tag.t) :
  sort.Slice_spec updatedItem sort_Slice ->
  (forall tag, Tag.position (rename tag) = Tag.position tag) ->
  WriteNote sort_Slice (mkNote (map rename (Tags (LoadNote U text))) [] [] text)
  = Some (spliced text (map tagItem (map rename (Tags (LoadNote U text)))) 0).
Proof.
  intros C R.
  set (items := map tagItem (map rename (Tags (LoadNote U text)))).
  assert (P : map item_position items
              = map item_position (map tagItem (Tags (LoadNote U text)))).
  { unfold items. rewrite !map_map. apply map_ext. intros tag. apply R. }
  assert (O : spansInOrder text (map item_position items)).
  { rewrite P, map_map. apply Tags_spansInOrder. }
  assert (E : collectItems (mkNote (map rename (Tags (LoadNote U text))) [] [] text)
              = items).
  { rewrite collectItems_eq. cbn [Tags Files Images map]. rewrite !app_nil_r.
    reflexivity. }
  destruct (WriteNote_spliced sort_Slice C
              (mkNote (map rename (Tags (LoadNote U text))) [] [] text))
    as (sorted & Pm & S & W & Wr).
  - rewrite E. cbn [content]. apply spansInOrder_wellPlaced, O.
  - rewrite E. apply (spansInOrder_disjoint text), O.
  - rewrite Wr. cbn [content]. rewrite E in Pm. do 2 f_equal.
    assert (Ne : Forall (fun it => spanStart it < spanEnd it) items).
    { unfold items. rewrite map_map. apply Forall_map.
      eapply Forall_impl; [|apply (Tags_spans U text)].
      intros tag. unfold spanStart, spanEnd, tagItem. cbn [item_position].
      rewrite R. auto. }
    symmetry.
    apply (sorted_unique _ (fun x y => spanStart x < spanStart y)); auto.
    + intros; lia.
    + apply strictly_sorted; [exact Ne|]. apply (spansInOrder_sorted text), O.
    + apply strictly_sorted; [|exact S]. eapply Permutation_Forall; eauto.
Qed.

End migratedFacts.

Import unicode regexp bearnotes Spec discover migrate Examples.
Import regexpFacts sortFacts serializerFacts packageFacts.
Import optionFacts migrateFacts migratedFacts.

(** ** The options of a new tag *)

(** X8. [NewTagOptions] never panics: the options of a tag have the
    count 1, are not ignored, ask for the strategy [same-folder] and
    for the name of the tag as target directory. The target tag name
    is the end of the name, holds no slash, and what comes before it
    in the name is empty or ends with a slash; it is the whole name
    when the name has no slash. *)
Theorem NewTagOptions_last_component (tag : Tag.t) :
  exists directory lastComponent,
    NewTagOptions tag
    = Some (mkTagOptions 1 false (str "same-folder") (Tag.Name tag) lastComponent) /\
    Tag.Name tag = directory ++ lastComponent /\
    ~ In x2f lastComponent /\
    (directory = [] \/ exists parent, directory = parent ++ [x2f]) /\
    (~ In x2f (Tag.Name tag) -> directory = []).
Proof.
  unfold NewTagOptions.
  destruct (Split_last (Tag.Name tag) x2f) as (init & last & E & N & S).
  exists (flat_map (fun c => c ++ [x2f]) init), last.
  rewrite E, element_last. split; [reflexivity|]. split; [exact S|].
  split; [exact N|]. split.
  - destruct (flat_map_ends x2f init) as [->|D]; [left; reflexivity|right; exact D].
  - intros W. rewrite (Split_without _ _ W) in E.
    destruct init as [|c [|c' init]]; [reflexivity|discriminate E|discriminate E].
Qed.

(** ** Counting the tags of a note *)

(** X9. The loop of [DiscoverNotes] over the tags of a note never
    panics. The entry of a key that no tag of the note has is as it
    was, also when there was none; the entry of a key that [n] tags of
    the note have, [n] positive, has the count that was there, or 0,
    plus [n], as an [int]; its other fields are those that were there,
    and a new entry is not ignored and asks for [same-folder]. *)
Theorem countTags_counts_occurrences
        (norm_NFC_String strings_ToLower : gostring -> gostring)
        (noteTags : list Tag.t) (tags : tagMap) :
  exists tags',
    countTags norm_NFC_String strings_ToLower tags noteTags = Some tags' /\
    forall k,
      (occurrences norm_NFC_String strings_ToLower k noteTags = 0%nat ->
       tags' k = tags k) /\
      ((0 < occurrences norm_NFC_String strings_ToLower k noteTags)%nat ->
       exists entry,
         tags' k = Some entry /\
         count entry
         = int_ (match tags k with Some old => count old | None => 0 end
                 + Z.of_nat (occurrences norm_NFC_String strings_ToLower k noteTags)) /\
         match tags k with
         | Some old =>
             Ignore entry = Ignore old /\
             HandlingStrategy entry = HandlingStrategy old /\
             TargetDirectory entry = TargetDirectory old /\
             TargetTagName entry = TargetTagName old
         | None =>
             Ignore entry = false /\
             HandlingStrategy entry = str "same-folder"
         end).
Proof. apply countTags_entries. Qed.

(** ** The directives of the tags of a note *)

(** X10. In [MigrateNotes] the loop over the tags of a note leaves the
    note, with the error about an unknown tag, exactly when the tag
    file has no entry for the key of one of the tags, ignored entries
    included. *)
Theorem tagDirectives_returns_iff_unknown
        (norm_NFC_String strings_ToLower : gostring -> gostring)
        (tags : tagMap) (infoName : gostring) (note : Note) :
  (exists d,
      tagDirectives norm_NFC_String strings_ToLower tags infoName note = Return d)
  <-> Exists (fun tag => tags (tagKey norm_NFC_String strings_ToLower tag) = None)
             (Tags note).
Proof.
  unfold tagDirectives.
  apply (rangeTags_Return norm_NFC_String strings_ToLower tags infoName
                          (Tags note) []).
  reflexivity.
Qed.

(** X11. When the loop over the tags ends, every tag of the note has
    the name that the tag file asks for, the ignored ones their own;
    the handling strategy is empty, [same-folder] or
    [one-note-per-folder]; and the target directory is empty or the
    target directory of a tag of the note that is not ignored. *)
Theorem tagDirectives_directives
        (norm_NFC_String strings_ToLower : gostring -> gostring)
        (tags : tagMap) (infoName : gostring) (note : Note) (d : directives) :
  tagDirectives norm_NFC_String strings_ToLower tags infoName note = Next d ->
  noteTags d = map (renameTag norm_NFC_String strings_ToLower tags) (Tags note) /\
  validStrategy (handlingStrategy d) /\
  (targetDir d = [] \/
   exists tag o,
     In tag (Tags note) /\
     tags (tagKey norm_NFC_String strings_ToLower tag) = Some o /\
     Ignore o = false /\ targetDir d = TargetDirectory o).
Proof.
  unfold tagDirectives. intros R.
  split; [|split].
  - exact (rangeTags_renamed _ _ _ _ (Tags note) [] (mkDirectives (Tags note) [] [] []) d eq_refl R).
  - apply (rangeTags_strategy _ _ _ _ (Tags note) [] (mkDirectives (Tags note) [] [] []) d eq_refl R).
    left. reflexivity.
  - exact (rangeTags_directory _ _ _ _ (Tags note) [] (mkDirectives (Tags note) [] [] []) d eq_refl R).
Qed.

Lemma tagDirectives_directives_witness :
  exists d,
    tagDirectives asIs asIs tagFile (str "n.md") noteWorkDraft = Next d /\
    noteTags d = map (renameTag asIs asIs tagFile) (Tags noteWorkDraft) /\
    validStrategy (handlingStrategy d) /\
    (targetDir d = [] \/
     exists tag o,
       In tag (Tags noteWorkDraft) /\
       tagFile (tagKey asIs asIs tag) = Some o /\
       Ignore o = false /\ targetDir d = TargetDirectory o).
Proof.
  eexists. split; [vm_compute; reflexivity|].
  apply (tagDirectives_directives asIs asIs tagFile (str "n.md") noteWorkDraft).
  vm_compute. reflexivity.
Defined.

(** X12. The directives of the last tag of a note, when the tag is not
    ignored, replace what the tags before it have set where they are
    empty: an empty target directory empties the target directory, and
    an empty handling strategy empties the handling strategy, so that
    the note goes to the root of the target. *)
Theorem tagDirectives_last_tag_resets
        (norm_NFC_String strings_ToLower : gostring -> gostring)
        (path_Join : list gostring -> gostring)
        (tags : tagMap) (infoName to : gostring) (note : Note) (d : directives)
        (before : list Tag.t) (tag : Tag.t) (o : TagOptions) :
  Tags note = before ++ [tag] ->
  tags (tagKey norm_NFC_String strings_ToLower tag) = Some o ->
  Ignore o = false ->
  tagDirectives norm_NFC_String strings_ToLower tags infoName note = Next d ->
  (TargetDirectory o = [] -> targetDir d = []) /\
  (HandlingStrategy o = [] ->
   handlingStrategy d = [] /\ finalTargetDir path_Join infoName to d = to).
Proof.
  unfold tagDirectives. intros E T G R. rewrite E in R.
  destruct (rangeTags_last norm_NFC_String strings_ToLower tags infoName
                           before [] (mkDirectives (before ++ [tag]) [] [] [])
                           d tag o eq_refl R T G) as (D & H).
  split; [exact D|]. intros Z. specialize (H Z). split; [exact H|].
  unfold finalTargetDir. rewrite H. reflexivity.
Qed.

Lemma tagDirectives_last_tag_resets_witness :
  exists d,
    tagDirectives asIs asIs tagFile (str "n.md") noteWorkDraft = Next d /\
    (TargetDirectory (mkTagOptions 1 false [] [] (str "draft")) = [] ->
     targetDir d = []) /\
    (HandlingStrategy (mkTagOptions 1 false [] [] (str "draft")) = [] ->
     handlingStrategy d = [] /\
     finalTargetDir (@List.concat byte) (str "n.md") (str "zettlr") d = str "zettlr").
Proof.
  eexists. split; [vm_compute; reflexivity|].
  apply (tagDirectives_last_tag_resets
           asIs asIs (@List.concat byte) tagFile (str "n.md") (str "zettlr")
           noteWorkDraft _
           [Tag.mk (str "work") [0; 6] [] (str " ")]
           (Tag.mk (str "draft") [10; 17] (str " ") [])
           (mkTagOptions 1 false [] [] (str "draft"))).
  - vm_compute. reflexivity.
  - vm_compute. reflexivity.
  - reflexivity.
  - vm_compute. reflexivity.
Defined.

(** X13. When no tag of the note that the tag file knows and does not
    ignore has an empty target directory, the target directory at the
    end of the loop is the one of the first such tag: a later tag with
    another directory does not change it. *)
Theorem tagDirectives_first_directory
        (norm_NFC_String strings_ToLower : gostring -> gostring)
        (tags : tagMap) (infoName : gostring) (note : Note) (d : directives) :
  Forall (fun tag =>
            forall o, tags (tagKey norm_NFC_String strings_ToLower tag) = Some o ->
                      Ignore o = false -> TargetDirectory o <> [])
         (Tags note) ->
  tagDirectives norm_NFC_String strings_ToLower tags infoName note = Next d ->
  targetDir d = firstDirectory norm_NFC_String strings_ToLower tags (Tags note).
Proof.
  unfold tagDirectives. intros F R.
  exact (rangeTags_first _ _ _ _ (Tags note) [] (mkDirectives (Tags note) [] [] []) d eq_refl R F).
Qed.

Lemma tagDirectives_first_directory_witness :
  exists d,
    tagDirectives asIs asIs tagFile (str "n.md")
                  (LoadNote latin1Tables (str "#old #work")) = Next d /\
    targetDir d
    = firstDirectory asIs asIs tagFile
                     (Tags (LoadNote latin1Tables (str "#old #work"))).
Proof.
  eexists. split; [vm_compute; reflexivity|].
  apply (tagDirectives_first_directory
           asIs asIs tagFile (str "n.md") (LoadNote latin1Tables (str "#old #work"))).
  - repeat constructor; intros o E G; vm_compute in E; injection E as <-;
      discriminate.
  - vm_compute. reflexivity.
Defined.

(** ** Writing the migrated note *)

(** X14. For a note in which only tags are found, [WriteNote] after
    the loop over the tags returns the text of the note with every tag
    written, under the name that the tag file asks for, in place of
    its span, in the order of the text. *)
Theorem migrated_note_is_written
        (sort_Slice : (updatedItem -> updatedItem -> bool) ->
                      list updatedItem -> list updatedItem)
        (U : RangeTables)
        (norm_NFC_String strings_ToLower : gostring -> gostring)
        (tags : tagMap) (infoName text : gostring) (d : directives) :
  sort.Slice_spec updatedItem sort_Slice ->
  Files (LoadNote U text) = [] ->
  Images (LoadNote U text) = [] ->
  tagDirectives norm_NFC_String strings_ToLower tags infoName (LoadNote U text)
  = Next d ->
  WriteNote sort_Slice (migratedNote (LoadNote U text) d)
  = Some (spliced text
                  (map tagItem
                       (map (renameTag norm_NFC_String strings_ToLower tags)
                            (Tags (LoadNote U text))))
                  0).
Proof.
  intros C F I R. unfold migratedNote, tagDirectives in *.
  rewrite (rangeTags_renamed _ _ _ _ (Tags (LoadNote U text)) []
             (mkDirectives (Tags (LoadNote U text)) [] [] []) d eq_refl R).
  rewrite F, I. cbn [app].
  apply (WriteNote_renamed sort_Slice U text); [exact C|].
  intros tag. apply renameTag_position.
Qed.

Lemma migrated_note_is_written_witness :
  exists d,
    tagDirectives asIs asIs tagFile (str "n.md") noteWorkDraft = Next d /\
    WriteNote (sort.insertionSort updatedItem) (migratedNote noteWorkDraft d)
    = Some (spliced (str "#work on a #draft")
                    (map tagItem (map (renameTag asIs asIs tagFile)
                                      (Tags noteWorkDraft)))
                    0).
Proof.
  eexists. split; [vm_compute; reflexivity|].
  apply (migrated_note_is_written
           (sort.insertionSort updatedItem) latin1Tables asIs asIs tagFile
           (str "n.md") (str "#work on a #draft")).
  - apply insertionSort_spec.
  - vm_compute. reflexivity.
  - vm_compute. reflexivity.
  - vm_compute. reflexivity.
Defined.

(** ** From the discovery of the tags to the migration *)

(** X15. The tag file that [DiscoverNotes] builds, whatever it held
    before, knows every tag of the notes it has read: the loop of
    [MigrateNotes] over the tags of such a note never leaves the note
    with the error about an unknown tag. *)
Theorem discovered_tags_are_known
        (norm_NFC_String strings_ToLower : gostring -> gostring)
        (tags : tagMap) (infoName : gostring) (note : Note) :
  exists tags',
    countTags norm_NFC_String strings_ToLower tags (Tags note) = Some tags' /\
    exists d,
      tagDirectives norm_NFC_String strings_ToLower tags' infoName note = Next d.
Proof.
  destruct (countTags_entries norm_NFC_String strings_ToLower (Tags note) tags)
    as (tags' & C & _).
  exists tags'. split; [exact C|].
  destruct (tagDirectives norm_NFC_String strings_ToLower tags' infoName note)
    as [d|d] eqn:R; [eauto|].
  exfalso.
  assert (E : exists d,
             tagDirectives norm_NFC_String strings_ToLower tags' infoName note
             = Return d) by eauto.
  unfold tagDirectives in E.
  apply (rangeTags_Return norm_NFC_String strings_ToLower tags' infoName
                          (Tags note) [] (mkDirectives (Tags note) [] [] [])
                          eq_refl) in E.
  apply Exists_exists in E as (tag & I & N).
  pose proof (countTags_known _ _ _ _ _ C) as K.
  rewrite Forall_forall in K. exact (K tag I N).
Qed.

(** X16. From an empty map, the loop of [DiscoverNotes] over the tags
    gives an entry to the keys of the tags and to no other key. The
    count of an entry is the number of tags with its key, as an [int];
    its other fields are the options of a new tag with the normalized
    name of one of these tags. *)
Theorem discovered_defaults
        (norm_NFC_String strings_ToLower : gostring -> gostring)
        (noteTags : list Tag.t) :
  exists tags',
    countTags norm_NFC_String strings_ToLower emptyMap noteTags = Some tags' /\
    forall k,
      match tags' k with
      | Some o =>
          count o
          = int_ (Z.of_nat (occurrences norm_NFC_String strings_ToLower k noteTags)) /\
          exists tag,
            In tag noteTags /\
            tagKey norm_NFC_String strings_ToLower tag = k /\
            defaultOptions (norm_NFC_String (Tag.Name tag)) o
      | None => occurrences norm_NFC_String strings_ToLower k noteTags = 0%nat
      end.
Proof.
  destruct (countTags_entries norm_NFC_String strings_ToLower noteTags emptyMap)
    as (tags' & C & P).
  exists tags'. split; [exact C|]. intros k. destruct (P k) as (P0 & P1).
  destruct (Nat.eq_dec (occurrences norm_NFC_String strings_ToLower k noteTags) 0)
    as [Z|Z].
  - rewrite (P0 Z). exact Z.
  - destruct (P1 ltac:(lia)) as (e & E & Cn & _). rewrite E.
    split; [exact Cn|].
    apply (countTags_default norm_NFC_String strings_ToLower noteTags [] emptyMap tags');
      [|exact C|exact E].
    intros k' o' L. discriminate L.
Qed.

(** X17. With the tag file that [DiscoverNotes] builds from an empty
    map for the tags of a note, and no normalized tag name empty, the
    loop of [MigrateNotes] sets the strategy [same-folder] and the
    normalized name of the first tag of the note as target directory:
    the note goes to the directory of its first tag. *)
Theorem default_tag_file_first_tag
        (norm_NFC_String strings_ToLower : gostring -> gostring)
        (path_Join : list gostring -> gostring)
        (infoName to : gostring) (note : Note) (first : Tag.t) (others : list Tag.t)
        (tags' : tagMap) (d : directives) :
  Tags note = first :: others ->
  Forall (fun tag => norm_NFC_String (Tag.Name tag) <> []) (Tags note) ->
  countTags norm_NFC_String strings_ToLower emptyMap (Tags note) = Some tags' ->
  tagDirectives norm_NFC_String strings_ToLower tags' infoName note = Next d ->
  handlingStrategy d = str "same-folder" /\
  targetDir d = norm_NFC_String (Tag.Name first) /\
  finalTargetDir path_Join infoName to d
  = path_Join [to; norm_NFC_String (Tag.Name first)].
Proof.
  intros E Ne C R.
  assert (D : fromTags norm_NFC_String strings_ToLower (Tags note) tags').
  { apply (countTags_default norm_NFC_String strings_ToLower (Tags note) []
                             emptyMap tags'); [|exact C].
    intros k o L. discriminate L. }
  pose proof (countTags_known _ _ _ _ _ C) as K.
  assert (H : handlingStrategy d = str "same-folder").
  { unfold tagDirectives in R.
    apply (rangeTags_one_strategy norm_NFC_String strings_ToLower tags' infoName
             (str "same-folder") (Tags note) []
             (mkDirectives (Tags note) [] [] []) d eq_refl R).
    - right. left. reflexivity.
    - apply Forall_forall. intros tag I. rewrite Forall_forall in K.
      specialize (K tag I).
      destruct (tags' (tagKey norm_NFC_String strings_ToLower tag)) as [o|] eqn:T;
        [|contradiction].
      destruct (D _ _ T) as (t & _ & _ & G & S & _). exists o. auto.
    - left. reflexivity.
    - rewrite E. discriminate. }
  assert (T : targetDir d = norm_NFC_String (Tag.Name first)).
  { unfold tagDirectives in R.
    rewrite (rangeTags_first norm_NFC_String strings_ToLower tags' infoName
               (Tags note) [] (mkDirectives (Tags note) [] [] []) d eq_refl R).
    - cbn [targetDir]. change (eqb (@nil byte) []) with true. cbv iota.
      rewrite E in C |- *. cbn [firstDirectory]. cbn [discover.countTags] in C.
      destruct (countTag_entry norm_NFC_String strings_ToLower emptyMap first)
        as (tags1 & entry & C1 & E1 & _ & _ & G1 & _ & D1).
      rewrite C1 in C.
      destruct (countTags_entries norm_NFC_String strings_ToLower others tags1)
        as (tags2 & C2 & P).
      rewrite C in C2. injection C2 as <-.
      destruct (P (tagKey norm_NFC_String strings_ToLower first)) as (P0 & P1).
      destruct (Nat.eq_dec (occurrences norm_NFC_String strings_ToLower
                                        (tagKey norm_NFC_String strings_ToLower first)
                                        others) 0) as [Z|Z].
      + rewrite (P0 Z), E1, G1. exact D1.
      + destruct (P1 ltac:(lia)) as (e & Ee & _ & F). rewrite E1 in F.
        destruct F as (F1 & _ & F3 & _). rewrite Ee, F1, G1, F3. exact D1.
    - apply Forall_forall. intros tag I o L _.
      destruct (D _ _ L) as (t & It & _ & _ & _ & Td & _). rewrite Td.
      rewrite Forall_forall in Ne. exact (Ne t It). }
  split; [exact H|]. split; [exact T|].
  unfold finalTargetDir. rewrite H, T. reflexivity.
Qed.

Lemma default_tag_file_first_tag_witness :
  exists d,
    tagDirectives asIs asIs discoveredTags (str "n.md") noteWorkDraft = Next d /\
    handlingStrategy d = str "same-folder" /\
    targetDir d = asIs (str "work") /\
    finalTargetDir (@List.concat byte) (str "n.md") (str "zettlr/") d
    = str "zettlr/work".
Proof.
  eexists. split; [vm_compute; reflexivity|].
  apply (default_tag_file_first_tag
           asIs asIs (@List.concat byte) (str "n.md") (str "zettlr/") noteWorkDraft
           (Tag.mk (str "work") [0; 6] [] (str " "))
           [Tag.mk (str "draft") [10; 17] (str " ") []]
           discoveredTags).
  - vm_compute. reflexivity.
  - vm_compute. repeat constructor; discriminate.
  - vm_compute. reflexivity.
  - vm_compute. reflexivity.
Defined.

(** ** Notes with ignored tags only *)

Module ignoredFacts.

Import bearnotes discover migrate Spec optionFacts.

Section Ignored.

Variable norm_NFC_String : gostring -> gostring.
Variable strings_ToLower : gostring -> gostring.
Variable tags : tagMap.
Variable infoName : gostring.

Lemma rangeTags_ignored : forall rest done d,
  noteTags d = done ++ rest ->
  Forall (fun tag =>
            exists o, tags (tagKey norm_NFC_String strings_ToLower tag) = Some o /\
                      Ignore o = true) rest ->
  rangeTags norm_NFC_String strings_ToLower tags infoName
            (List.length rest) (List.length done) d
  = Next d.
Proof.
  induction rest as [|tag rest IH]; intros done d N F; [reflexivity|].
  inversion F as [|? ? (o & T & I) F']; subst.
  cbn [List.length migrate.rangeTags].
  rewrite N, nth_error_app2, Nat.sub_diag by lia. cbn [nth_error].
  unfold migrate.tagDirective. cbv zeta.
  change (Tag.Name (withName tag (norm_NFC_String (Tag.Name tag))))
    with (norm_NFC_String (Tag.Name tag)).
  fold (tagKey norm_NFC_String strings_ToLower tag). rewrite T, I.
  replace (S (List.length done)) with (List.length (done ++ [tag]))
    by (rewrite length_app; cbn; lia).
  apply IH; [|exact F']. rewrite N, <- app_assoc. reflexivity.
Qed.

End Ignored.

End ignoredFacts.

(** X18. A note whose tags are all ignored by the tag file goes through
    the loop over the tags as it is: no tag is renamed, nothing is
    logged, the target directory and the handling strategy stay empty,
    and the note goes to the root of the target. *)
Theorem ignored_tags_leave_the_note
        (norm_NFC_String strings_ToLower : gostring -> gostring)
        (path_Join : list gostring -> gostring)
        (tags : tagMap) (infoName to : gostring) (note : Note) :
  Forall (fun tag =>
            exists o, tags (tagKey norm_NFC_String strings_ToLower tag) = Some o /\
                      Ignore o = true)
         (Tags note) ->
  exists d,
    tagDirectives norm_NFC_String strings_ToLower tags infoName note = Next d /\
    d = mkDirectives (Tags note) [] [] [] /\
    migratedNote note d = note /\
    finalTargetDir path_Join infoName to d = to.
Proof.
  intros F. eexists. split; [|split; [reflexivity|split]].
  - unfold tagDirectives.
    exact (ignoredFacts.rangeTags_ignored
             norm_NFC_String strings_ToLower tags infoName (Tags note) []
             (mkDirectives (Tags note) [] [] []) eq_refl F).
  - destruct note. reflexivity.
  - reflexivity.
Qed.

Lemma ignored_tags_leave_the_note_witness :
  exists d,
    tagDirectives asIs asIs tagFile (str "n.md")
                  (LoadNote latin1Tables (str "an #old note")) = Next d /\
    d = mkDirectives (Tags (LoadNote latin1Tables (str "an #old note"))) [] [] [] /\
    migratedNote (LoadNote latin1Tables (str "an #old note")) d
    = LoadNote latin1Tables (str "an #old note") /\
    finalTargetDir (@List.concat byte) (str "n.md") (str "zettlr") d = str "zettlr".
Proof.
  apply (ignored_tags_leave_the_note
           asIs asIs (@List.concat byte) tagFile (str "n.md") (str "zettlr")
           (LoadNote latin1Tables (str "an #old note"))).
  vm_compute. repeat constructor. eexists. split; reflexivity.
Defined.
